(** * KSUID compressed sets and 128-bit arithmetic

    A shallow embedding of the TypeScript sources [src/uint128.ts],
    [src/ksuid.ts], [src/base62.ts], [src/sort.ts], [src/errors.ts] and
    [src/compressed-set.ts], followed by the properties established about
    them.  BigInt values are [Z]; JavaScript [number]s that hold integers are
    [Z] together with the conversions the language applies to them (rounding
    to a double, [ToInt32] before a bitwise operator); Node [Buffer]s are
    lists of bytes; arrays of identifiers live in a heap of array objects. *)

From Stdlib Require Import ZArith List Strings.Byte Lia Bool.
From stdpp Require Import gmap strings list sorting.

Local Open Scope Z_scope.

(** ** Exceptions ([src/errors.ts]) *)

Inductive KSUIDErrorCode :=
| INVALID_LENGTH | INVALID_CHARACTER | INVALID_BUFFER_SIZE
| INVALID_TIMESTAMP | INVALID_INPUT
| MALFORMED_DATA | CORRUPTION_DETECTED
| SEQUENCE_EXHAUSTED | OPERATION_FAILED.

(** The static factories of [KSUIDError]; messages and the attached input
    are not modelled. *)
Inductive KSUIDError :=
| invalidStringLength | invalidBufferLength | invalidCharacter
| invalidTimestamp | invalidInput | malformedData.

Definition code (e : KSUIDError) : KSUIDErrorCode :=
  match e with
  | invalidStringLength => INVALID_LENGTH
  | invalidBufferLength => INVALID_BUFFER_SIZE
  | invalidCharacter => INVALID_CHARACTER
  | invalidTimestamp => INVALID_TIMESTAMP
  | invalidInput => INVALID_INPUT
  | malformedData => MALFORMED_DATA
  end.

(** What a call can throw: a [KSUIDError], a [RangeError] (the
    ERR_OUT_OF_RANGE Node raises from a [Buffer] primitive, or the one the
    engine raises when a call finds the call stack exhausted), or the
    [TypeError] of a method call on [undefined].  [OutOfFuel] is not a
    JavaScript exception: it marks a run of a loop of the model that was
    given too little fuel. *)
Inductive Exception :=
| Thrown (e : KSUIDError)
| RangeError
| TypeError
| OutOfFuel.

Inductive Result (A : Type) :=
| Ok (a : A)
| Err (e : Exception).
Arguments Ok {A} a.
Arguments Err {A} e.

Definition bindR {A B} (r : Result A) (k : A -> Result B) : Result B :=
  match r with
  | Ok a => k a
  | Err e => Err e
  end.

Notation "'let?' x ':=' r 'in' k" := (bindR r (fun x => k))
  (at level 10, x pattern, r at level 100, k at level 200).

(** State that survives an exception: a computation returns its outcome
    together with the store as the call left it. *)
Definition SE (S A : Type) : Type := S -> Result A * S.

Definition retS {S A} (a : A) : SE S A := fun s => (Ok a, s).
Definition throwS {S A} (e : Exception) : SE S A := fun s => (Err e, s).
Definition liftS {S A} (r : Result A) : SE S A := fun s => (r, s).
Definition getS {S} : SE S S := fun s => (Ok s, s).
Definition bindS {S A B} (m : SE S A) (k : A -> SE S B) : SE S B :=
  fun s => match m s with
           | (Ok a, s') => k a s'
           | (Err e, s') => (Err e, s')
           end.

Notation "x <- m ;; k" := (bindS m (fun x => k))
  (at level 100, m at next level, right associativity).
Notation "m ;; k" := (bindS m (fun _ => k))
  (at level 100, right associativity).

(** ** JavaScript numbers *)

Module JS.

(** The double nearest to an integer [z] (round half to even), for
    [|z| < 2^1024]: integers of at most 53 bits are exact. *)
Definition round53 (z : Z) : Z :=
  let a := Z.abs z in
  let n := Z.log2 a + 1 in
  if n <=? 53 then z
  else
    let sh := n - 53 in
    let q := Z.shiftr a sh in
    let r := a mod 2 ^ sh in
    let half := 2 ^ (sh - 1) in
    let q' := if (half <? r) || ((r =? half) && Z.odd q) then q + 1 else q in
    Z.sgn z * Z.shiftl q' sh.

(** A numeric literal, [Number(bigint)], and the result of [+]/[-] on
    integer-valued numbers all round to a double. *)
Definition literal (z : Z) : Z := round53 z.
Definition Number (z : Z) : Z := round53 z.
Definition add (x y : Z) : Z := round53 (x + y).
Definition sub (x y : Z) : Z := round53 (x - y).

(** [ToInt32]: the conversion applied to both operands of [&], [|], [~]. *)
Definition ToInt32 (z : Z) : Z := (z + 2 ^ 31) mod 2 ^ 32 - 2 ^ 31.

Definition band (x y : Z) : Z := Z.land (ToInt32 x) (ToInt32 y).
Definition bor (x y : Z) : Z := Z.lor (ToInt32 x) (ToInt32 y).
Definition bnot (x : Z) : Z := Z.lnot (ToInt32 x).
(** [x << n] for [0 <= n < 32]. *)
Definition shl (x n : Z) : Z := ToInt32 (Z.shiftl (ToInt32 x) n).

End JS.

(** ** Node buffers *)

Abbreviation Buffer := (list byte).

Definition byte_val (b : byte) : Z := Z.of_N (Byte.to_N b).

(** Storing a number into a [Uint8Array] slot keeps it modulo 256. *)
Definition to_uint8 (z : Z) : byte :=
  match Byte.of_N (Z.to_N (z mod 256)) with
  | Some b => b
  | None => x00
  end.

Module Buf.

(** [Buffer.alloc(n)]: [n] zero bytes. *)
Definition alloc (n : nat) : Buffer := replicate n x00.

(** [buf[i] = v]: an indexed store outside the buffer is dropped. *)
Definition set (buf : Buffer) (i : nat) (v : Z) : Buffer :=
  <[i := to_uint8 v]> buf.

(** [buf.subarray(s, e)] for [0 <= s], [0 <= e]: both ends are clamped to
    the length of [buf]. *)
Definition subarray (buf : Buffer) (s e : nat) : Buffer :=
  take (e - s)%nat (drop s buf).

(** [src.copy(target, targetStart)] for [targetStart >= 0]: bytes that do
    not fit in the target are dropped. *)
Fixpoint copy_at (src target : Buffer) (targetStart : nat) : Buffer :=
  match src with
  | [] => target
  | b :: src' => copy_at src' (<[targetStart := b]> target) (S targetStart)
  end.

(** [src.copy(target, targetStart)]: a negative [targetStart] raises
    ERR_OUT_OF_RANGE. *)
Definition copy (src target : Buffer) (targetStart : Z) : Result Buffer :=
  if targetStart <? 0 then Err RangeError
  else Ok (copy_at src target (Z.to_nat targetStart)).

(** The unsigned big-endian value of a byte string. *)
Definition be_value (bs : Buffer) : Z :=
  fold_left (fun acc b => acc * 256 + byte_val b) bs 0.

(** The [n] low-order bytes of [v], most significant first. *)
Fixpoint be_bytes (n : nat) (v : Z) : Buffer :=
  match n with
  | O => []
  | S n' => be_bytes n' (v / 256) ++ [to_uint8 v]
  end.

(** [buf.readUInt32BE(off)] and [buf.readBigUInt64BE(off)]: a field that
    does not lie inside [buf] raises ERR_OUT_OF_RANGE. *)
Definition readUInt32BE (buf : Buffer) (off : nat) : Result Z :=
  if (off + 4 <=? length buf)%nat then Ok (be_value (take 4 (drop off buf)))
  else Err RangeError.
Definition readBigUInt64BE (buf : Buffer) (off : nat) : Result Z :=
  if (off + 8 <=? length buf)%nat then Ok (be_value (take 8 (drop off buf)))
  else Err RangeError.

(** [buf.writeUInt32BE(v, off)]: [v] outside [0, 2^32-1], or a field that
    does not lie inside [buf], raises ERR_OUT_OF_RANGE. *)
Definition writeUInt32BE (buf : Buffer) (v : Z) (off : nat) : Result Buffer :=
  if (v <? 0) || (4294967295 <? v) || negb (off + 4 <=? length buf)%nat
  then Err RangeError
  else Ok (copy_at (be_bytes 4 v) buf off).

(** [buf.writeBigUInt64BE(v, off)]: [v] outside [0, 2^64-1], or a field
    that does not lie inside [buf], raises ERR_OUT_OF_RANGE. *)
Definition writeBigUInt64BE (buf : Buffer) (v : Z) (off : nat) : Result Buffer :=
  if (v <? 0) || (18446744073709551615 <? v) || negb (off + 8 <=? length buf)%nat
  then Err RangeError
  else Ok (copy_at (be_bytes 8 v) buf off).

(** [a.compare(b)]: unsigned lexicographic order, as -1, 0 or 1. *)
Fixpoint compare (a b : Buffer) : Z :=
  match a, b with
  | [], [] => 0
  | [], _ :: _ => -1
  | _ :: _, [] => 1
  | x :: a', y :: b' =>
      if byte_val x <? byte_val y then -1
      else if byte_val y <? byte_val x then 1
      else compare a' b'
  end.

(** [a.equals(b)]: the same bytes, in the same number. *)
Fixpoint equals (a b : Buffer) : bool :=
  match a, b with
  | [], [] => true
  | x :: a', y :: b' => Byte.eqb x y && equals a' b'
  | _, _ => false
  end.

End Buf.

(** ** 128-bit unsigned integers ([src/uint128.ts]) *)

Module Uint128.

Definition U64_MAX : Z := 0xffffffffffffffff.

(** Stored as the two 64-bit halves. *)
Record t := mk { low : Z; high : Z }.

(** The class constructor: both halves are masked to 64 bits. *)
Definition new (low high : Z) : t :=
  {| low := Z.land low U64_MAX; high := Z.land high U64_MAX |}.

Definition makeUint128 (high low : Z) : t := new low high.

Definition makeUint128FromPayload (payload : option Buffer) : Result t :=
  match payload with
  | None => Err (Thrown invalidInput)
  | Some payload =>
      if negb (length payload =? 16)%nat then Err (Thrown invalidBufferLength)
      else
        let? high := Buf.readBigUInt64BE payload 0 in
        let? low := Buf.readBigUInt64BE payload 8 in
        Ok (new low high)
  end.

Definition uint128Payload (buffer : Buffer) : Result t :=
  let payload := Buf.subarray buffer 4 20 in
  makeUint128FromPayload (Some payload).

Definition zero : t := new 0 0.
Definition one : t := new 1 0.
Definition max : t := new U64_MAX U64_MAX.

Definition ksuid (x : t) (timestamp : Z) : Result Buffer :=
  let out := Buf.alloc 20 in
  let? out := Buf.writeUInt32BE out timestamp 0 in
  let? out := Buf.writeBigUInt64BE out (high x) 4 in
  let? out := Buf.writeBigUInt64BE out (low x) 12 in
  Ok out.

Definition bytes (x : t) : Result Buffer :=
  let out := Buf.alloc 16 in
  let? out := Buf.writeBigUInt64BE out (high x) 0 in
  let? out := Buf.writeBigUInt64BE out (low x) 8 in
  Ok out.

Definition toBuffer (x : t) : Result Buffer := bytes x.

Definition fromBuffer (buffer : option Buffer) : Result t :=
  makeUint128FromPayload buffer.

Definition add (x other : t) : t :=
  let lowSum := low x + low other in
  let carry := if U64_MAX <? lowSum then 1 else 0 in
  let newLow := Z.land lowSum U64_MAX in
  let newHigh := Z.land (high x + high other + carry) U64_MAX in
  new newLow newHigh.

Definition sub (x other : t) : t :=
  let newLow := low x - low other in
  let '(newLow, borrow) :=
    if newLow <? 0 then (newLow + Z.shiftl 1 64, 1) else (newLow, 0) in
  let newHigh := Z.land (high x - high other - borrow) U64_MAX in
  new newLow newHigh.

Definition incr (x : t) : t :=
  let newLow := low x + 1 in
  let carry := if U64_MAX <? newLow then 1 else 0 in
  new (Z.land newLow U64_MAX) (Z.land (high x + carry) U64_MAX).

Definition decr (x : t) : t :=
  let newLow := low x - 1 in
  let '(newLow, borrow) :=
    if newLow <? 0 then (newLow + Z.shiftl 1 64, 1) else (newLow, 0) in
  let newHigh := Z.land (high x - borrow) U64_MAX in
  new newLow newHigh.

Definition compare (x other : t) : Z :=
  if high x <? high other then -1
  else if high other <? high x then 1
  else if low x <? low other then -1
  else if low other <? low x then 1
  else 0.

Definition equals (x other : t) : bool :=
  (low x =? low other) && (high x =? high other).

Definition isZero (x : t) : bool := (low x =? 0) && (high x =? 0).

Definition getLow (x : t) : Z := low x.
Definition getHigh (x : t) : Z := high x.

(** The number a value stands for, and the range both halves are kept in. *)
Definition toZ (x : t) : Z := high x * 2 ^ 64 + low x.
Definition wf (x : t) : Prop :=
  0 <= low x < 2 ^ 64 /\ 0 <= high x < 2 ^ 64.

End Uint128.

(** ** Base62 text form ([src/base62.ts]) *)

Module Base62.

Definition BASE62_ALPHABET : string :=
  "0123456789ABCDEFGHIJKLMNOPQRSTUVWXYZabcdefghijklmnopqrstuvwxyz".
Definition BASE : Z := 62.
Definition KSUID_BYTE_LENGTH : nat := 20.
Definition ENCODED_STRING_LENGTH : nat := 27.

(** [s.padStart(n, "0")]. *)
Definition padStart0 (s : string) (n : nat) : string :=
  String.append (String.concat "" (repeat "0"%string (n - String.length s))) s.

(** The [while (num > 0n)] loop of [encode]; [num] at least halves at
    every turn, so [fuel] bounds the number of turns by the bit length. *)
Fixpoint encode_loop (fuel : nat) (num : Z) (encoded : string) : Result string :=
  if 0 <? num then
    match fuel with
    | O => Err OutOfFuel
    | S fuel' =>
        let remainder := num mod BASE in
        let num := num / BASE in
        let digit :=
          match String.get (Z.to_nat remainder) BASE62_ALPHABET with
          | Some c => String c EmptyString
          | None => "undefined"%string
          end in
        encode_loop fuel' num (String.append digit encoded)
    end
  else Ok encoded.

Definition encode (buffer : option Buffer) : Result string :=
  match buffer with
  | None => Err (Thrown invalidInput)
  | Some buffer =>
      if negb (length buffer =? KSUID_BYTE_LENGTH)%nat
      then Err (Thrown invalidBufferLength)
      else
        let num := Buf.be_value buffer in
        if num =? 0 then
          Ok (String.concat "" (repeat "0"%string ENCODED_STRING_LENGTH))
        else
          let? encoded := encode_loop (8 * length buffer) num EmptyString in
          Ok (padStart0 encoded ENCODED_STRING_LENGTH)
  end.

(** [CHAR_MAP], filled by the loop over the alphabet. *)
Fixpoint char_map_fill (alphabet : string) (i : Z) (m : gmap Ascii.ascii Z)
  : gmap Ascii.ascii Z :=
  match alphabet with
  | EmptyString => m
  | String c rest => char_map_fill rest (i + 1) (<[c := i]> m)
  end.

Definition CHAR_MAP : gmap Ascii.ascii Z := char_map_fill BASE62_ALPHABET 0 ∅.

(** The [for] loop of [decode], from position [i] on. *)
Fixpoint decode_loop (str : string) (num : Z) : Result Z :=
  match str with
  | EmptyString => Ok num
  | String char rest =>
      match CHAR_MAP !! char with
      | None => Err (Thrown invalidCharacter)
      | Some value => decode_loop rest (num * BASE + value)
      end
  end.

(** [num.toString(16)] for a BigInt [num >= 0]: lower-case digits, no
    leading zero, ["0"] for zero.  One digit is produced per turn; the bit
    length of [num] bounds the number of turns. *)
Definition HEX_DIGITS : string := "0123456789abcdef".

Fixpoint toString16_loop (fuel : nat) (num : Z) (acc : string) : string :=
  match fuel with
  | O => acc
  | S fuel' =>
      if 0 <? num then
        match String.get (Z.to_nat (num mod 16)) HEX_DIGITS with
        | Some c => toString16_loop fuel' (num / 16) (String c acc)
        | None => acc
        end
      else acc
  end.

Definition toString16 (num : Z) : string :=
  if num =? 0 then "0"%string
  else toString16_loop (Z.to_nat (Z.log2 num) + 1) num EmptyString.

(** The value of a hexadecimal digit, in either case. *)
Definition hexval (c : Ascii.ascii) : option Z :=
  let n := Z.of_nat (Ascii.nat_of_ascii c) in
  if (48 <=? n) && (n <=? 57) then Some (n - 48)
  else if (97 <=? n) && (n <=? 102) then Some (n - 87)
  else if (65 <=? n) && (n <=? 70) then Some (n - 55)
  else None.

(** [Buffer.from(hex, "hex")]: one byte per pair of digits; decoding stops
    at the first pair that is not two digits, and a last single digit is
    dropped. *)
Fixpoint from_hex (hex : string) : Buffer :=
  match hex with
  | String c1 (String c2 rest) =>
      match hexval c1, hexval c2 with
      | Some a, Some b => to_uint8 (16 * a + b) :: from_hex rest
      | _, _ => []
      end
  | _ => []
  end.

(** [decode]; the strings of the model are strings of 8-bit characters. *)
Definition decode (str : option string) : Result Buffer :=
  match str with
  | None => Err (Thrown invalidInput)
  | Some str =>
      if negb (String.length str =? ENCODED_STRING_LENGTH)%nat
      then Err (Thrown invalidStringLength)
      else
        let? num := decode_loop str 0 in
        let hex := padStart0 (toString16 num) (KSUID_BYTE_LENGTH * 2) in
        let decodedBuffer := from_hex hex in
        if (KSUID_BYTE_LENGTH <? length decodedBuffer)%nat then
          Ok (Buf.subarray decodedBuffer
                (length decodedBuffer - KSUID_BYTE_LENGTH) (length decodedBuffer))
        else Ok decodedBuffer
  end.

End Base62.

(** ** Identifiers ([src/ksuid.ts]) *)

Module KSUID.

Definition TIMESTAMP_LENGTH : nat := 4.
Definition PAYLOAD_LENGTH : nat := 16.
Definition KSUID_LENGTH : nat := (TIMESTAMP_LENGTH + PAYLOAD_LENGTH)%nat.

Record t := mk { buffer : Buffer }.

(** The private constructor. *)
Definition new (buffer : Buffer) : Result t :=
  if negb (length buffer =? KSUID_LENGTH)%nat
  then Err (Thrown invalidBufferLength)
  else Ok (mk buffer).

Definition fromBytes (buffer : option Buffer) : Result t :=
  match buffer with
  | None => Err (Thrown invalidInput)
  | Some buffer =>
      if negb (length buffer =? KSUID_LENGTH)%nat
      then Err (Thrown invalidBufferLength)
      else new buffer
  end.

Definition fromParts (timestamp : Z) (payload : option Buffer) : Result t :=
  if (timestamp <? 0) || (0xffffffff <? timestamp)
  then Err (Thrown invalidTimestamp)
  else
    match payload with
    | None => Err (Thrown invalidInput)
    | Some payload =>
        if negb (length payload =? PAYLOAD_LENGTH)%nat
        then Err (Thrown invalidBufferLength)
        else
          let buffer := Buf.alloc KSUID_LENGTH in
          let? buffer := Buf.writeUInt32BE buffer timestamp 0 in
          let buffer := Buf.copy_at payload buffer TIMESTAMP_LENGTH in
          new buffer
    end.

(** [KSUID.nil]: twenty zero bytes, which the constructor accepts. *)
Definition nil : t := mk (Buf.alloc KSUID_LENGTH).

Definition timestamp (k : t) : Result Z := Buf.readUInt32BE (buffer k) 0.

Definition payload (k : t) : Buffer :=
  Buf.subarray (buffer k) TIMESTAMP_LENGTH (length (buffer k)).

Definition toString (k : t) : Result string := Base62.encode (Some (buffer k)).

Definition toBuffer (k : t) : Buffer := buffer k.

Definition compare (k other : t) : Z := Buf.compare (buffer k) (buffer other).

(** Every identifier the constructor lets through has twenty bytes. *)
Definition wf (k : t) : Prop := length (buffer k) = KSUID_LENGTH.

Definition parse (s : option string) : Result t :=
  match s with
  | None => Err (Thrown invalidInput)
  | Some s =>
      if negb (String.length s =? 27)%nat then Err (Thrown invalidStringLength)
      else
        let? buffer := Base62.decode (Some s) in
        new buffer
  end.

(** The [...OrNil] constructors: any exception is caught and answered with
    [nil]. *)
Definition orNil (r : Result t) : t :=
  match r with
  | Ok k => k
  | Err _ => nil
  end.
Definition parseOrNil (s : option string) : t := orNil (parse s).
Definition fromPartsOrNil (timestamp : Z) (payload : option Buffer) : t :=
  orNil (fromParts timestamp payload).
Definition fromBytesOrNil (buffer : option Buffer) : t :=
  orNil (fromBytes buffer).

Definition isNil (k : t) : bool := Buf.equals (buffer k) (buffer nil).

Definition next (k : t) : Result t :=
  let? timestamp := timestamp k in
  let? payload := Uint128.uint128Payload (buffer k) in
  let nextPayload := Uint128.add payload Uint128.one in
  if Uint128.isZero nextPayload then
    let nextTimestamp := JS.add timestamp 1 in
    let? b := Uint128.ksuid nextPayload nextTimestamp in
    fromBytes (Some b)
  else
    let? b := Uint128.ksuid nextPayload timestamp in
    fromBytes (Some b).

Definition prev (k : t) : Result t :=
  let? timestamp := timestamp k in
  let? payload := Uint128.uint128Payload (buffer k) in
  let prevPayload := Uint128.sub payload Uint128.one in
  if Uint128.equals prevPayload Uint128.max then
    let prevTimestamp := JS.sub timestamp 1 in
    if prevTimestamp <? 0 then
      let? b := Uint128.ksuid prevPayload 0xffffffff in
      fromBytes (Some b)
    else
      let? b := Uint128.ksuid prevPayload prevTimestamp in
      fromBytes (Some b)
  else
    let? b := Uint128.ksuid prevPayload timestamp in
    fromBytes (Some b).

End KSUID.

(** ** Sorting ([src/sort.ts]) *)

Module Sort.

(** [a[i]] followed by a method call: [undefined] raises a TypeError. *)
Definition get (a : list KSUID.t) (i : Z) : Result KSUID.t :=
  if i <? 0 then Err TypeError
  else match a !! Z.to_nat i with
       | Some k => Ok k
       | None => Err TypeError
       end.

(** [[a[i], a[j]] = [a[j], a[i]]] on indices inside the array. *)
Definition swap (a : list KSUID.t) (i j : Z) : Result (list KSUID.t) :=
  let? x := get a j in
  let? y := get a i in
  Ok (<[Z.to_nat j := y]> (<[Z.to_nat i := x]> a)).

(** The [for (j = lo; j < hi; j++)] loop of [quickSort]; [n] is the number
    of turns left, [hi - j]. *)
Fixpoint partition (n : nat) (a : list KSUID.t) (pivot : KSUID.t) (i j : Z)
  : Result (list KSUID.t * Z) :=
  match n with
  | O => Ok (a, i)
  | S n' =>
      let? aj := get a j in
      if KSUID.compare aj pivot <? 0 then
        let i := i + 1 in
        let? a := swap a i j in
        partition n' a pivot i (j + 1)
      else partition n' a pivot i (j + 1)
  end.

(** [quickSort] calls itself, and JavaScript has no unbounded call stack:
    [stack] is the number of nested calls of [quickSort] the call stack
    still has room for.  A call that finds no room left, also one with
    nothing to sort, throws the RangeError of the engine; a call that is
    entered leaves one frame less to the two calls it makes. *)
Fixpoint quickSort (stack : nat) (a : list KSUID.t) (lo hi : Z)
  : Result (list KSUID.t) :=
  match stack with
  | O => Err RangeError
  | S stack' =>
      if lo <? hi then
        let? pivot := get a hi in
        let i := lo - 1 in
        let? (a, i) := partition (Z.to_nat (hi - lo)) a pivot i lo in
        let i := i + 1 in
        let? ahi := get a hi in
        let? ai := get a i in
        let? a := if KSUID.compare ahi ai <? 0 then swap a i hi else Ok a in
        let? a := quickSort stack' a lo (i - 1) in
        quickSort stack' a (i + 1) hi
      else Ok a
  end.

(** [sort(ids)]: the array is sorted in place; the result is its new
    content.  [stack] is the room the call stack has for [quickSort] when
    [sort] calls it. *)
Definition sort (stack : nat) (ids : list KSUID.t) : Result (list KSUID.t) :=
  if (length ids <=? 1)%nat then Ok ids
  else quickSort stack ids 0 (Z.of_nat (length ids) - 1).

(** The loop of [isSorted], from index 1 on. *)
Fixpoint isSorted_from (min : KSUID.t) (rest : list KSUID.t) : bool :=
  match rest with
  | [] => true
  | current :: rest' =>
      if 0 <? KSUID.compare min current then false
      else isSorted_from current rest'
  end.

Definition isSorted (ids : list KSUID.t) : bool :=
  match ids with
  | [] => true
  | min :: rest => isSorted_from min rest
  end.

Definition compare (a b : KSUID.t) : Z := KSUID.compare a b.

End Sort.

(** ** Arrays of identifiers

    A JavaScript array is an object: the heap maps its address to its
    current content. *)

Abbreviation Heap := (gmap nat (list KSUID.t)).

Module Arr.

(** [a[i]] followed by a property access: [undefined] raises a TypeError. *)
Definition get (a : list KSUID.t) (i : nat) : Result KSUID.t :=
  match a !! i with
  | Some k => Ok k
  | None => Err TypeError
  end.

Definition read (l : nat) : SE Heap (list KSUID.t) :=
  fun h => match h !! l with
           | Some a => (Ok a, h)
           | None => (Err TypeError, h)
           end.

(** [const a = []]: a new array object at an unused address. *)
Definition alloc : SE Heap nat :=
  fun h => let l := fresh (dom h) in (Ok l, <[l := []]> h).

(** [a.push(x)]. *)
Definition push (l : nat) (x : KSUID.t) : SE Heap unit :=
  fun h => match h !! l with
           | Some a => (Ok tt, <[l := a ++ [x]]> h)
           | None => (Err TypeError, h)
           end.

(** [sort(a)]: the array object at [l] is updated in place.  A sort that
    throws leaves its array partly sorted; the model leaves it as it was.
    The only array sorted here is the one [appendCompressed] creates for
    itself, which nothing can reach once the call has thrown. *)
Definition sort (stack : nat) (l : nat) : SE Heap unit :=
  fun h => match h !! l with
           | Some a =>
               match Sort.sort stack a with
               | Ok a' => (Ok tt, <[l := a']> h)
               | Err e => (Err e, h)
               end
           | None => (Err TypeError, h)
           end.

End Arr.

(** ** The compressed set ([src/compressed-set.ts]) *)

Module CompressedSet.

Definition RAW_KSUID : Z := 0.
Definition TIME_DELTA : Z := JS.shl 1 6.
Definition PAYLOAD_DELTA : Z := JS.shl 1 7.
Definition PAYLOAD_RANGE : Z := JS.bor (JS.shl 1 6) (JS.shl 1 7).

Record t := mk { content : Buffer }.

Definition fromBuffer (buffer : Buffer) : t := mk buffer.
Definition toBuffer (c : t) : Buffer := content c.

(** *** Varint helpers *)

Definition varintLength64BigInt (v : Z) : Z :=
  if Z.land v 0xffffffffffffff00 =? 0 then 1
  else if Z.land v 0xffffffffffff0000 =? 0 then 2
  else if Z.land v 0xffffffffff000000 =? 0 then 3
  else if Z.land v 0xffffffff00000000 =? 0 then 4
  else if Z.land v 0xffffff0000000000 =? 0 then 5
  else if Z.land v 0xffff000000000000 =? 0 then 6
  else if Z.land v 0xff00000000000000 =? 0 then 7
  else 8.

Definition varintLength128 (v : Uint128.t) : Z :=
  let high := Uint128.getHigh v in
  if negb (high =? 0) then 8 + varintLength64BigInt high
  else varintLength64BigInt (Uint128.getLow v).

(** Here [v] and the masks are [number]s and [&] is the 32-bit operator. *)
Definition varintLength64 (v : Z) : Z :=
  if JS.band v (JS.literal 0xffffffffffffff00) =? 0 then 1
  else if JS.band v (JS.literal 0xffffffffffff0000) =? 0 then 2
  else if JS.band v (JS.literal 0xffffffffff000000) =? 0 then 3
  else if JS.band v (JS.literal 0xffffffff00000000) =? 0 then 4
  else if JS.band v (JS.literal 0xffffff0000000000) =? 0 then 5
  else if JS.band v (JS.literal 0xffff000000000000) =? 0 then 6
  else if JS.band v (JS.literal 0xff00000000000000) =? 0 then 7
  else 8.

Definition varintLength32 (v : Z) : Z :=
  if JS.band v (JS.literal 0xffffff00) =? 0 then 1
  else if JS.band v (JS.literal 0xffff0000) =? 0 then 2
  else if JS.band v (JS.literal 0xff000000) =? 0 then 3
  else 4.

(** [length] is what the matching length helper returned, between 1 and the
    width of the field, so the start of [subarray] is never negative. *)
Definition appendVarint128 (buffer : Buffer) (offset : nat) (v : Uint128.t)
    (length : Z) : Result Buffer :=
  let? bytes := Uint128.bytes v in
  Ok (Buf.copy_at (Buf.subarray bytes (Z.to_nat (16 - length)) 16) buffer offset).

Definition appendVarint64 (buffer : Buffer) (offset : nat) (v : Z)
    (length : Z) : Result Buffer :=
  let temp := Buf.alloc 8 in
  let? temp := Buf.writeBigUInt64BE temp v 0 in
  Ok (Buf.copy_at (Buf.subarray temp (Z.to_nat (8 - length)) 8) buffer offset).

Definition appendVarint32 (buffer : Buffer) (offset : nat) (v : Z)
    (length : Z) : Result Buffer :=
  let temp := Buf.alloc 4 in
  let? temp := Buf.writeUInt32BE temp v 0 in
  Ok (Buf.copy_at (Buf.subarray temp (Z.to_nat (4 - length)) 4) buffer offset).

(** *** Run detection *)

(** The loop of [rangeLength] over the remaining identifiers. *)
Fixpoint rangeLength_loop (ids : list KSUID.t) (timestamp : Z)
    (lastKSUID : KSUID.t) (currentValue : Uint128.t) (length count : nat)
  : Result (nat * nat) :=
  match ids with
  | [] => Ok (length, count)
  | id :: ids' =>
      let? s := KSUID.toString id in
      let? s' := KSUID.toString lastKSUID in
      if String.eqb s s' then
        rangeLength_loop ids' timestamp lastKSUID currentValue length (S count)
      else
        let? t := KSUID.timestamp id in
        if negb (t =? timestamp) then Ok (length, count)
        else
          let? v := Uint128.uint128Payload (KSUID.toBuffer id) in
          let expectedNext := Uint128.add currentValue Uint128.one in
          if negb (Uint128.equals v expectedNext) then Ok (length, count)
          else rangeLength_loop ids' timestamp id v (S length) (S count)
  end.

Definition rangeLength (ids : list KSUID.t) (timestamp : Z)
    (lastKSUID : KSUID.t) (lastValue : Uint128.t) : Result (nat * nat) :=
  rangeLength_loop ids timestamp lastKSUID lastValue 0 0.

(** *** The encoder *)

(** The variables the main loop of [appendCompressed] updates. *)
Record LoopState := mkLoop {
  i : nat;
  pos : nat;
  timestamp : Z;
  lastValue : Uint128.t;
  buffer : Buffer
}.

Inductive Flow := Next | Break.

(** One turn of [for (let i = 1; i < uniqueIds.length; i++)], up to but not
    including [i++]. *)
Definition loopBody (uniqueIds : list KSUID.t) (s : LoopState)
  : Result (LoopState * Flow) :=
  let one := Uint128.one in
  let '(mkLoop i pos timestamp lastValue buffer) := s in
  let? id := Arr.get uniqueIds i in
  let? t := KSUID.timestamp id in
  let? v := Uint128.uint128Payload (KSUID.toBuffer id) in
  let? branches :=
    if negb (t =? timestamp) then
      let delta := JS.sub t timestamp in
      let deltaLength := varintLength32 delta in
      let buffer := Buf.set buffer pos (JS.bor TIME_DELTA deltaLength) in
      let pos := S pos in
      let? buffer := appendVarint32 buffer pos delta deltaLength in
      let pos := (pos + Z.to_nat deltaLength)%nat in
      let payload := KSUID.payload id in
      let buffer := Buf.copy_at payload buffer pos in
      let pos := (pos + 16)%nat in
      let timestamp := t in
      Ok (mkLoop i pos timestamp lastValue buffer, Next)
    else
      let delta := Uint128.sub v lastValue in
      if negb (Uint128.equals delta one) then
        let deltaLength := varintLength128 delta in
        let buffer := Buf.set buffer pos (JS.bor PAYLOAD_DELTA deltaLength) in
        let pos := S pos in
        let? buffer := appendVarint128 buffer pos delta deltaLength in
        let pos := (pos + Z.to_nat deltaLength)%nat in
        Ok (mkLoop i pos timestamp lastValue buffer, Next)
      else
        let? (length, count) :=
          rangeLength (drop (i + 1) uniqueIds) timestamp id v in
        if (0 <? length)%nat then
          let rangeSize := JS.add (Z.of_nat length) 1 in
          let rangeSizeLength := varintLength64 rangeSize in
          let buffer := Buf.set buffer pos (JS.bor PAYLOAD_RANGE rangeSizeLength) in
          let pos := S pos in
          let? buffer := appendVarint64 buffer pos rangeSize rangeSizeLength in
          let pos := (pos + Z.to_nat rangeSizeLength)%nat in
          let i := (i + count)%nat in
          if (i <? List.length uniqueIds)%nat then
            let? newId := Arr.get uniqueIds i in
            let? lastValue := Uint128.uint128Payload (KSUID.toBuffer newId) in
            Ok (mkLoop i pos timestamp lastValue buffer, Next)
          else Ok (mkLoop i pos timestamp lastValue buffer, Break)
        else
          let deltaLength := varintLength128 delta in
          let buffer := Buf.set buffer pos (JS.bor PAYLOAD_DELTA deltaLength) in
          let pos := S pos in
          let? buffer := appendVarint128 buffer pos delta deltaLength in
          let pos := (pos + Z.to_nat deltaLength)%nat in
          Ok (mkLoop i pos timestamp lastValue buffer, Next) in
  match branches with
  | (s', Break) => Ok (s', Break)
  | (mkLoop i pos timestamp _ buffer, Next) =>
      (* the statement that closes the loop body: [lastValue = v] *)
      let lastValue := v in
      Ok (mkLoop i pos timestamp lastValue buffer, Next)
  end.

(** The main loop; every turn moves [i] forward, so [fuel] bounds the
    number of turns by the length of the array. *)
Fixpoint loop (fuel : nat) (uniqueIds : list KSUID.t) (s : LoopState)
  : Result LoopState :=
  if (i s <? length uniqueIds)%nat then
    match fuel with
    | O => Err OutOfFuel
    | S fuel' =>
        let? (s', flow) := loopBody uniqueIds s in
        match flow with
        | Break => Ok s'
        | Next =>
            loop fuel' uniqueIds
              (mkLoop (S (i s')) (pos s') (timestamp s') (lastValue s') (buffer s'))
        end
    end
  else Ok s.

(** [appendCompressed] from the first write on, for the deduplicated and
    sorted array [uniqueIds]. *)
Definition emit (buffer : Buffer) (uniqueIds : list KSUID.t) : Result Buffer :=
  let pos := 0%nat in
  let buffer := Buf.set buffer pos RAW_KSUID in
  let pos := S pos in
  let? first := Arr.get uniqueIds 0 in
  let firstBuffer := KSUID.toBuffer first in
  let buffer := Buf.copy_at firstBuffer buffer pos in
  let pos := (pos + 20)%nat in
  let? timestamp := KSUID.timestamp first in
  let? lastValue := Uint128.uint128Payload (KSUID.toBuffer first) in
  let? s := loop (length uniqueIds) uniqueIds
              (mkLoop 1 pos timestamp lastValue buffer) in
  Ok (Buf.subarray (CompressedSet.buffer s) 0 (CompressedSet.pos s)).

(** The [for (const id of ids)] loop that fills [uniqueIds]. *)
Fixpoint dedupe (ids : list KSUID.t) (seen : gset string) (uniqueIds : nat)
  : SE Heap unit :=
  match ids with
  | [] => retS tt
  | id :: ids' =>
      key <- liftS (KSUID.toString id) ;;
      if decide (key ∈ seen) then dedupe ids' seen uniqueIds
      else
        Arr.push uniqueIds id ;;
        dedupe ids' ({[key]} ∪ seen) uniqueIds
  end.

(** [stack] is the room the call stack has for [quickSort], should the
    identifiers need sorting. *)
Definition appendCompressed (stack : nat) (buffer : Buffer) (ids : nat)
  : SE Heap Buffer :=
  idsv <- Arr.read ids ;;
  if (length idsv =? 0)%nat then retS (Buf.subarray buffer 0 0)
  else
    uniqueIds <- Arr.alloc ;;
    dedupe idsv ∅ uniqueIds ;;
    u <- Arr.read uniqueIds ;;
    (if negb (Sort.isSorted u) then Arr.sort stack uniqueIds else retS tt) ;;
    u <- Arr.read uniqueIds ;;
    if (length u =? 0)%nat then retS (Buf.subarray buffer 0 0)
    else liftS (emit buffer u).

(** [compress(...ids)]; [ids] is the address of the array of arguments. *)
Definition compress (stack : nat) (ids : nat) : SE Heap t :=
  idsv <- Arr.read ids ;;
  let capacity := Z.max 100 (1 + 20 + Z.of_nat (length idsv) / 5) in
  let buffer := Buf.alloc (Z.to_nat (capacity * 10)) in
  content <- appendCompressed stack buffer ids ;;
  retS (mk content).

End CompressedSet.

(** ** The iterator ([CompressedSetIter]) *)

Module CompressedSetIter.

Import CompressedSet.

(** The fields of the iterator object. *)
Record t := mkIter {
  ksuid : KSUID.t;
  content : Buffer;
  offset : nat;
  seqlength : Z;
  timestamp : Z;
  lastValue : Uint128.t
}.

(** The constructor. *)
Definition new (content : Buffer) : t :=
  mkIter KSUID.nil content 0 0 0 Uint128.zero.

Definition set_ksuid (k : KSUID.t) : SE t unit :=
  fun s => (Ok tt, mkIter k (content s) (offset s) (seqlength s) (timestamp s) (lastValue s)).
Definition set_offset (o : nat) : SE t unit :=
  fun s => (Ok tt, mkIter (ksuid s) (content s) o (seqlength s) (timestamp s) (lastValue s)).
Definition set_seqlength (n : Z) : SE t unit :=
  fun s => (Ok tt, mkIter (ksuid s) (content s) (offset s) n (timestamp s) (lastValue s)).
Definition set_timestamp (ts : Z) : SE t unit :=
  fun s => (Ok tt, mkIter (ksuid s) (content s) (offset s) (seqlength s) ts (lastValue s)).
Definition set_lastValue (v : Uint128.t) : SE t unit :=
  fun s => (Ok tt, mkIter (ksuid s) (content s) (offset s) (seqlength s) (timestamp s) v).

Definition readVarint32 (buffer : Buffer) : Result Z :=
  let temp := Buf.alloc 4 in
  let? temp := Buf.copy buffer temp (4 - Z.of_nat (length buffer)) in
  Buf.readUInt32BE temp 0.

Definition readVarint64 (buffer : Buffer) : Result Z :=
  let temp := Buf.alloc 8 in
  let? temp := Buf.copy buffer temp (8 - Z.of_nat (length buffer)) in
  let? n := Buf.readBigUInt64BE temp 0 in
  Ok (JS.Number n).

Definition readVarint128 (buffer : Buffer) : Result Uint128.t :=
  let temp := Buf.alloc 16 in
  let? temp := Buf.copy buffer temp (16 - Z.of_nat (length buffer)) in
  Uint128.makeUint128FromPayload (Some temp).

(** The four [case] bodies of [next], entered after the tag byte has been
    read and [offset] moved past it. *)
Definition caseRaw : SE t unit :=
  s <- getS ;;
  let ksuidBuffer := Buf.subarray (content s) (offset s) (offset s + 20) in
  k <- liftS (KSUID.fromBytes (Some ksuidBuffer)) ;;
  set_ksuid k ;;
  set_offset (offset s + 20) ;;
  ts <- liftS (KSUID.timestamp k) ;;
  set_timestamp ts ;;
  v <- liftS (Uint128.uint128Payload (KSUID.toBuffer k)) ;;
  set_lastValue v.

Definition caseTimeDelta (cnt : Z) : SE t unit :=
  s <- getS ;;
  let deltaBuffer :=
    Buf.subarray (content s) (offset s) (offset s + Z.to_nat cnt) in
  delta <- liftS (readVarint32 deltaBuffer) ;;
  let offset1 := (offset s + Z.to_nat cnt)%nat in
  set_offset offset1 ;;
  let timestamp1 := JS.add (timestamp s) delta in
  set_timestamp timestamp1 ;;
  let payloadBuffer := Buf.subarray (content s) offset1 (offset1 + 16) in
  set_offset (offset1 + 16) ;;
  let ksuidBuffer := Buf.alloc 20 in
  ksuidBuffer <- liftS (Buf.writeUInt32BE ksuidBuffer timestamp1 0) ;;
  let ksuidBuffer := Buf.copy_at payloadBuffer ksuidBuffer 4 in
  k <- liftS (KSUID.fromBytes (Some ksuidBuffer)) ;;
  set_ksuid k ;;
  v <- liftS (Uint128.uint128Payload (KSUID.toBuffer k)) ;;
  set_lastValue v.

Definition casePayloadDelta (cnt : Z) : SE t unit :=
  s <- getS ;;
  let deltaBuffer :=
    Buf.subarray (content s) (offset s) (offset s + Z.to_nat cnt) in
  delta <- liftS (readVarint128 deltaBuffer) ;;
  set_offset (offset s + Z.to_nat cnt) ;;
  let value := Uint128.add (lastValue s) delta in
  b <- liftS (Uint128.ksuid value (timestamp s)) ;;
  k <- liftS (KSUID.fromBytes (Some b)) ;;
  set_ksuid k ;;
  set_lastValue value.

Definition casePayloadRange (cnt : Z) : SE t unit :=
  s <- getS ;;
  let lengthBuffer :=
    Buf.subarray (content s) (offset s) (offset s + Z.to_nat cnt) in
  rangeLength <- liftS (readVarint64 lengthBuffer) ;;
  set_offset (offset s + Z.to_nat cnt) ;;
  let value := Uint128.incr (lastValue s) in
  b <- liftS (Uint128.ksuid value (timestamp s)) ;;
  k <- liftS (KSUID.fromBytes (Some b)) ;;
  set_ksuid k ;;
  set_seqlength (JS.sub rangeLength 1) ;;
  set_lastValue value.

Definition next : SE t bool :=
  s <- getS ;;
  if 0 <? seqlength s then
    let value := Uint128.incr (lastValue s) in
    b <- liftS (Uint128.ksuid value (timestamp s)) ;;
    k <- liftS (KSUID.fromBytes (Some b)) ;;
    set_ksuid k ;;
    set_seqlength (JS.sub (seqlength s) 1) ;;
    set_lastValue value ;;
    retS true
  else if (length (content s) <=? offset s)%nat then retS false
  else
    let b := match content s !! offset s with
             | Some x => byte_val x
             | None => 0
             end in
    set_offset (offset s + 1) ;;
    let mask := JS.bor (JS.bor (JS.bor RAW_KSUID TIME_DELTA) PAYLOAD_DELTA)
                  PAYLOAD_RANGE in
    let tag := JS.band b mask in
    let cnt := JS.band b (JS.bnot mask) in
    (if tag =? RAW_KSUID then caseRaw
     else if tag =? TIME_DELTA then caseTimeDelta cnt
     else if tag =? PAYLOAD_DELTA then casePayloadDelta cnt
     else if tag =? PAYLOAD_RANGE then casePayloadRange cnt
     else throwS (Thrown malformedData)) ;;
    retS true.

End CompressedSetIter.

(** [CompressedSet.iter] and [CompressedSet.toArray]. *)
Definition iter (c : CompressedSet.t) : CompressedSetIter.t :=
  CompressedSetIter.new (CompressedSet.content c).

(** The [while (iter.next())] loop of [toArray]; the number of turns is
    decided by the buffer, so the model takes fuel. *)
Fixpoint toArray_loop (fuel : nat) (result : list KSUID.t)
  : SE CompressedSetIter.t (list KSUID.t) :=
  match fuel with
  | O => throwS OutOfFuel
  | S fuel' =>
      more <- CompressedSetIter.next ;;
      if more then
        s <- getS ;;
        toArray_loop fuel' (result ++ [CompressedSetIter.ksuid s])
      else retS result
  end.

Definition toArray (fuel : nat) (c : CompressedSet.t) : Result (list KSUID.t) :=
  fst (toArray_loop fuel [] (iter c)).

(** ** Identifiers by their parts

    [ident ts p] is the identifier with timestamp [ts] and payload [p], the
    value [KSUID.fromParts] builds from the 16 payload bytes of [p]. *)
Definition ident (ts p : Z) : KSUID.t :=
  KSUID.mk (Buf.be_bytes 4 ts ++ Buf.be_bytes 16 p).

(** [CompressedSet.compress(...ids).toArray()], started from a heap that
    holds only the array of arguments, with room for [stack] nested calls
    of [quickSort]. *)
Definition compress_then_toArray (stack fuel : nat) (ids : list KSUID.t)
  : Result (list KSUID.t) :=
  let? c := fst (CompressedSet.compress stack 0 ({[0%nat := ids]} : Heap)) in
  toArray fuel c.

(** ** Vocabulary of the statements *)

(** The kind and length bits of a tag byte, as [next] splits them. *)
Definition tag_of (x : byte) : Z := JS.band (byte_val x) 192.
Definition cnt_of (x : byte) : Z := JS.band (byte_val x) (JS.bnot 192).

(** The failures a call on a damaged buffer can end in: the invalid buffer
    length error of the identifier constructor, or a [RangeError] of the
    host. *)
Definition benign (e : Exception) : Prop :=
  e = Thrown invalidBufferLength \/ e = RangeError.

(** A failure of the source, as opposed to a model run short of fuel. *)
Definition genuine (e : Exception) : Prop := e <> OutOfFuel.

(** Every failure of a computation satisfies [P]. *)
Definition errsR (P : Exception -> Prop) {A} (r : Result A) : Prop :=
  forall e, r = Err e -> P e.
Definition errsS (P : Exception -> Prop) {S A} (m : SE S A) : Prop :=
  forall s e s', m s = (Err e, s') -> P e.

(** Two heaps that hold the same arrays everywhere but at [l0]. *)
Definition agree_off (l0 : nat) (h h' : Heap) : Prop :=
  forall l, l <> l0 -> h' !! l = h !! l.

(** The 160-bit number an identifier's bytes stand for. *)
Definition value (k : KSUID.t) : Z := Buf.be_value (KSUID.buffer k).

(** The identifier made of the timestamp [ts] and the payload [x], as
    [KSUID.fromBytes(x.ksuid(ts))] builds it. *)
Definition assemble (ts : Z) (x : Uint128.t) : KSUID.t :=
  KSUID.mk (Buf.be_bytes 4 ts ++ Buf.be_bytes 8 (Uint128.high x)
            ++ Buf.be_bytes 8 (Uint128.low x)).

(** [n] characters ["0"], and the [k] low-order hexadecimal digits of
    [num], most significant first. *)
Definition zeros (n : nat) : string := String.concat "" (repeat "0"%string n).

Definition hexdigit (d : Z) : string :=
  match String.get (Z.to_nat d) Base62.HEX_DIGITS with
  | Some c => String c EmptyString
  | None => EmptyString
  end.

Fixpoint hexfix (k : nat) (num : Z) : string :=
  match k with
  | O => EmptyString
  | S k' => String.append (hexfix k' (num / 16)) (hexdigit (num mod 16))
  end.

(** The place of the character [c] in [alphabet], counted from [i]. *)
Fixpoint place (c : Ascii.ascii) (alphabet : string) (i : Z) : option Z :=
  match alphabet with
  | EmptyString => None
  | String a rest => if Ascii.eqb c a then Some i else place c rest (i + 1)
  end.

(** The number a string stands for in base 62, most significant digit
    first, the digits being the places of its characters in the alphabet;
    none when a character is not in the alphabet. *)
Fixpoint number62 (s : string) : option Z :=
  match s with
  | EmptyString => Some 0
  | String c rest =>
      match place c Base62.BASE62_ALPHABET 0, number62 rest with
      | Some d, Some v => Some (d * 62 ^ Z.of_nat (String.length rest) + v)
      | _, _ => None
      end
  end.

(** The order of identifiers by the numbers they stand for. *)
Definition vle (a b : KSUID.t) : Prop := value a <= value b.
Definition vlt (a b : KSUID.t) : Prop := value a < value b.

(** The timestamp and the payload of an identifier, as [timestamp] and
    [Uint128.uint128Payload] read them. *)
Definition tsOf (k : KSUID.t) : Z :=
  match KSUID.timestamp k with
  | Ok t => t
  | Err _ => 0
  end.

Definition plOf (k : KSUID.t) : Uint128.t :=
  match Uint128.uint128Payload (KSUID.toBuffer k) with
  | Ok v => v
  | Err _ => Uint128.zero
  end.

(** The first byte of a record: its kind, and the length of the field that
    follows. *)
Definition tagByte (tag len : Z) : byte := to_uint8 (JS.bor tag len).

(** The records [appendCompressed] writes: an identifier in full; the
    difference of two timestamps followed by a payload; the difference of
    two payloads; the length of a run. *)
Definition rawRecord (id : KSUID.t) : Buffer :=
  tagByte CompressedSet.RAW_KSUID 0 :: KSUID.buffer id.

Definition timeRecord (ts : Z) (id : KSUID.t) : Buffer :=
  let n := Z.to_nat (CompressedSet.varintLength32 (tsOf id - ts)) in
  tagByte CompressedSet.TIME_DELTA (Z.of_nat n)
  :: Buf.be_bytes n (tsOf id - ts) ++ KSUID.payload id.

Definition deltaRecord (d : Uint128.t) : Buffer :=
  let n := Z.to_nat (CompressedSet.varintLength128 d) in
  tagByte CompressedSet.PAYLOAD_DELTA (Z.of_nat n)
  :: Buf.be_bytes n (Uint128.toZ d).

Definition rangeRecord (m : Z) : Buffer :=
  [tagByte CompressedSet.PAYLOAD_RANGE 1; to_uint8 m].

(** The [m] identifiers that follow the payload [v] in the timestamp [ts]. *)
Fixpoint run_ids (ts : Z) (v : Uint128.t) (m : nat) : list KSUID.t :=
  match m with
  | O => []
  | S m' => assemble ts (Uint128.incr v) :: run_ids ts (Uint128.incr v) m'
  end.

(** Every run of three or more consecutive identifiers is the last thing in
    its timestamp, and has at most 255 members after its first: if [u[i]]
    and [u[i+2]] have one timestamp and numbers two apart, every later
    [u[i+j]] with that timestamp is the [j]-th successor of [u[i]], and
    [j <= 255]. *)
Definition runs_final (u : list KSUID.t) : Prop :=
  forall (i j : nat) (a c d : KSUID.t),
    u !! i = Some a -> u !! (i + 2)%nat = Some c ->
    tsOf a = tsOf c -> value c = value a + 2 ->
    u !! (i + j)%nat = Some d -> tsOf d = tsOf a ->
    value d = value a + Z.of_nat j /\ (j <= 255)%nat.

(** The payload [m] steps after [v]. *)
Fixpoint advance (v : Uint128.t) (m : nat) : Uint128.t :=
  match m with
  | O => v
  | S m' => advance (Uint128.incr v) m'
  end.

(** The identifiers [rest] that follow a run ending at payload [cur] do not
    continue it: the first of them is neither the end of the run nor its
    successor. *)
Definition stops (ts : Z) (cur : Uint128.t) (rest : list KSUID.t) : Prop :=
  match rest with
  | [] => True
  | d :: _ => KSUID.wf d /\ d <> assemble ts cur
              /\ d <> assemble ts (Uint128.incr cur)
  end.

(** * Properties *)

(** ** Bytes and big-endian fields *)

Lemma byte_val_range (b : byte) : 0 <= byte_val b < 256.
Proof.
  unfold byte_val. pose proof (Byte.to_N_bounded b) as H.
  split; [apply N2Z.is_nonneg|]. apply N.lt_succ_r in H. lia.
Qed.

Lemma to_uint8_byte_val (b : byte) : to_uint8 (byte_val b) = b.
Proof.
  unfold to_uint8. rewrite Z.mod_small by apply byte_val_range.
  unfold byte_val. rewrite N2Z.id, Byte.of_to_N. reflexivity.
Qed.

Lemma to_uint8_mod (z : Z) : to_uint8 (z mod 256) = to_uint8 z.
Proof. unfold to_uint8. rewrite Z.mod_mod by lia. reflexivity. Qed.

Lemma be_value_snoc (bs : Buffer) (b : byte) :
  Buf.be_value (bs ++ [b]) = Buf.be_value bs * 256 + byte_val b.
Proof. unfold Buf.be_value. rewrite fold_left_app. reflexivity. Qed.

Lemma be_value_range (bs : Buffer) :
  0 <= Buf.be_value bs < 256 ^ Z.of_nat (length bs).
Proof.
  induction bs as [|b bs IH] using rev_ind.
  - simpl. unfold Buf.be_value. simpl. lia.
  - rewrite be_value_snoc, length_app, Nat2Z.inj_add. simpl length.
    rewrite Z.pow_add_r by lia. change (256 ^ Z.of_nat 1) with 256.
    pose proof (byte_val_range b). nia.
Qed.

Lemma be_bytes_length (n : nat) (v : Z) : length (Buf.be_bytes n v) = n.
Proof.
  revert v. induction n as [|n IH]; intros v; simpl; [reflexivity|].
  rewrite length_app, IH. simpl. lia.
Qed.

(** Splitting a byte string into its big-endian value and back. *)
Lemma be_bytes_be_value (bs : Buffer) :
  Buf.be_bytes (length bs) (Buf.be_value bs) = bs.
Proof.
  induction bs as [|b bs IH] using rev_ind; [reflexivity|].
  rewrite length_app. simpl length. rewrite Nat.add_1_r. simpl.
  rewrite be_value_snoc. pose proof (byte_val_range b) as Hb.
  replace ((Buf.be_value bs * 256 + byte_val b) / 256) with (Buf.be_value bs).
  - rewrite IH. f_equal. f_equal.
    rewrite <- to_uint8_mod, Z.add_comm, Z.mod_add by lia.
    rewrite Z.mod_small by lia. apply to_uint8_byte_val.
  - rewrite Z.add_comm, Z.div_add by lia. rewrite Z.div_small by lia. reflexivity.
Qed.

(** A copy that fits replaces exactly the bytes it covers. *)
Lemma copy_at_fits (src target : Buffer) (off : nat) :
  (off + length src <= length target)%nat ->
  Buf.copy_at src target off
  = take off target ++ src ++ drop (off + length src) target.
Proof.
  revert target off. induction src as [|b src IH]; intros target off Hlen.
  - simpl. rewrite Nat.add_0_r, take_drop. reflexivity.
  - cbn [Buf.copy_at length] in *.
    assert (Hoff : (off < length target)%nat) by lia.
    rewrite IH by (rewrite length_insert; lia).
    rewrite (take_S_r (<[off:=b]> target) off b)
      by (apply list_lookup_insert_eq; exact Hoff).
    rewrite take_insert_ge by lia.
    rewrite drop_insert_lt by lia.
    rewrite <- app_assoc. cbn [app].
    replace (off + S (length src))%nat with (S off + length src)%nat by lia.
    reflexivity.
Qed.

Lemma copy_at_length (src target : Buffer) (off : nat) :
  length (Buf.copy_at src target off) = length target.
Proof.
  revert target off.
  induction src as [|b src IH]; intros; cbn [Buf.copy_at]; [reflexivity|].
  rewrite IH. apply length_insert.
Qed.

Lemma alloc_length (n : nat) : length (Buf.alloc n) = n.
Proof. apply length_replicate. Qed.

(** ** Uint128 *)

Lemma land_U64_MAX (x : Z) : Z.land x Uint128.U64_MAX = x mod 2 ^ 64.
Proof. change Uint128.U64_MAX with (Z.ones 64). apply Z.land_ones. lia. Qed.

Lemma new_wf (l h : Z) : Uint128.wf (Uint128.new l h).
Proof.
  unfold Uint128.wf, Uint128.new. simpl. rewrite !land_U64_MAX.
  split; apply Z.mod_pos_bound; lia.
Qed.

Lemma new_of_wf (x : Uint128.t) :
  Uint128.wf x -> Uint128.new (Uint128.low x) (Uint128.high x) = x.
Proof.
  destruct x as [l h]. unfold Uint128.wf, Uint128.new. simpl. intros [Hl Hh].
  rewrite !land_U64_MAX, !Z.mod_small by lia. reflexivity.
Qed.

Lemma add_halves (a b : Uint128.t) :
  Uint128.wf a -> Uint128.wf b ->
  let carry := (Uint128.low a + Uint128.low b) / 2 ^ 64 in
  (carry = 0 \/ carry = 1) /\
  Uint128.low (Uint128.add a b) = (Uint128.low a + Uint128.low b) mod 2 ^ 64 /\
  Uint128.high (Uint128.add a b)
  = (Uint128.high a + Uint128.high b + carry) mod 2 ^ 64.
Proof.
  destruct a as [la ha], b as [lb hb]. unfold Uint128.wf, Uint128.add.
  cbn [Uint128.low Uint128.high Uint128.new]. intros [Hla Hha] [Hlb Hhb].
  rewrite !land_U64_MAX, !Z.mod_mod by lia.
  assert (Hc : (if Uint128.U64_MAX <? la + lb then 1 else 0) = (la + lb) / 2 ^ 64).
  { unfold Uint128.U64_MAX. destruct (Z.ltb_spec 0xffffffffffffffff (la + lb)).
    - apply Z.div_unique with (r := la + lb - 2 ^ 64); lia.
    - symmetry. apply Z.div_small. lia. }
  rewrite Hc. repeat split; try reflexivity.
  assert (0 <= (la + lb) / 2 ^ 64 < 2).
  { split; [apply Z.div_pos; lia | apply Z.div_lt_upper_bound; lia]. }
  lia.
Qed.

Lemma sub_halves (a b : Uint128.t) :
  Uint128.wf a -> Uint128.wf b ->
  let borrow := if Uint128.low a <? Uint128.low b then 1 else 0 in
  Uint128.low (Uint128.sub a b) = (Uint128.low a - Uint128.low b) mod 2 ^ 64 /\
  Uint128.high (Uint128.sub a b)
  = (Uint128.high a - Uint128.high b - borrow) mod 2 ^ 64.
Proof.
  destruct a as [la ha], b as [lb hb]. unfold Uint128.wf, Uint128.sub.
  cbn [Uint128.low Uint128.high]. intros [Hla Hha] [Hlb Hhb].
  change (Z.shiftl 1 64) with (2 ^ 64).
  destruct (Z.ltb_spec (la - lb) 0) as [Hneg|Hpos];
    destruct (Z.ltb_spec la lb) as [Hlt|Hge]; try lia;
    cbn [Uint128.low Uint128.high Uint128.new];
    rewrite !land_U64_MAX, !Z.mod_mod by lia; split; try reflexivity.
  rewrite <- (Z.mod_add (la - lb) 1 (2 ^ 64)) by lia. f_equal; lia.
Qed.

Lemma toZ_mod_unique (h l s : Z) :
  0 <= l < 2 ^ 64 -> 0 <= h < 2 ^ 64 ->
  (exists k, h * 2 ^ 64 + l = s + k * 2 ^ 128) ->
  h * 2 ^ 64 + l = s mod 2 ^ 128.
Proof.
  intros Hl Hh [k Hk].
  rewrite <- (Z.mod_add s k (2 ^ 128)) by lia. rewrite <- Hk.
  symmetry. apply Z.mod_small.
  change (2 ^ 128) with (2 ^ 64 * 2 ^ 64). nia.
Qed.

Lemma add_wf (a b : Uint128.t) : Uint128.wf (Uint128.add a b).
Proof. unfold Uint128.add. apply new_wf. Qed.

Lemma sub_wf (a b : Uint128.t) : Uint128.wf (Uint128.sub a b).
Proof.
  unfold Uint128.sub.
  destruct (Uint128.low a - Uint128.low b <? 0); apply new_wf.
Qed.

Lemma add_toZ (a b : Uint128.t) :
  Uint128.wf a -> Uint128.wf b ->
  Uint128.toZ (Uint128.add a b) = (Uint128.toZ a + Uint128.toZ b) mod 2 ^ 128.
Proof.
  intros Ha Hb. destruct (add_halves a b Ha Hb) as (Hc & Hl & Hh).
  pose proof (add_wf a b) as [Hwl Hwh].
  unfold Uint128.toZ. apply toZ_mod_unique; [assumption..|].
  rewrite Hl, Hh.
  set (c := (Uint128.low a + Uint128.low b) / 2 ^ 64) in *.
  exists (- ((Uint128.high a + Uint128.high b + c) / 2 ^ 64)).
  pose proof (Z.div_mod (Uint128.low a + Uint128.low b) (2 ^ 64) ltac:(lia)) as E1.
  pose proof (Z.div_mod (Uint128.high a + Uint128.high b + c) (2 ^ 64) ltac:(lia)) as E2.
  fold c in E1. change (2 ^ 128) with (2 ^ 64 * 2 ^ 64). lia.
Qed.

Lemma sub_toZ (a b : Uint128.t) :
  Uint128.wf a -> Uint128.wf b ->
  Uint128.toZ (Uint128.sub a b) = (Uint128.toZ a - Uint128.toZ b) mod 2 ^ 128.
Proof.
  intros Ha Hb. destruct (sub_halves a b Ha Hb) as (Hl & Hh).
  pose proof (sub_wf a b) as [Hwl Hwh].
  unfold Uint128.toZ. apply toZ_mod_unique; [assumption..|].
  rewrite Hl, Hh.
  set (c := if Uint128.low a <? Uint128.low b then 1 else 0) in *.
  exists (- ((Uint128.high a - Uint128.high b - c) / 2 ^ 64)).
  pose proof (Z.div_mod (Uint128.low a - Uint128.low b) (2 ^ 64) ltac:(lia)) as E1.
  pose proof (Z.div_mod (Uint128.high a - Uint128.high b - c) (2 ^ 64) ltac:(lia)) as E2.
  assert (Hq : (Uint128.low a - Uint128.low b) / 2 ^ 64 = - c).
  { destruct Ha as [Ha _], Hb as [Hb _]. subst c.
    destruct (Z.ltb_spec (Uint128.low a) (Uint128.low b)).
    - symmetry. apply Z.div_unique with (r := Uint128.low a - Uint128.low b + 2 ^ 64); lia.
    - apply Z.div_small. lia. }
  rewrite Hq in E1. change (2 ^ 128) with (2 ^ 64 * 2 ^ 64). lia.
Qed.

(** C6. For well-formed [a] and [b] (both halves within 64 bits, as the
    constructor leaves them), [add a b] is [(a + b) mod 2^128] and [sub a b]
    is [(a - b) mod 2^128]; both halves of either result are within 64 bits;
    the low halves are added or subtracted modulo 2^64 and a single carry or
    borrow bit enters the high half; [add max one] is [zero] and
    [sub zero one] is [max]. *)
Theorem add_sub_wraparound (a b : Uint128.t) :
  Uint128.wf a -> Uint128.wf b ->
  Uint128.toZ (Uint128.add a b) = (Uint128.toZ a + Uint128.toZ b) mod 2 ^ 128 /\
  Uint128.toZ (Uint128.sub a b) = (Uint128.toZ a - Uint128.toZ b) mod 2 ^ 128 /\
  Uint128.wf (Uint128.add a b) /\ Uint128.wf (Uint128.sub a b) /\
  (let carry := (Uint128.low a + Uint128.low b) / 2 ^ 64 in
   (carry = 0 \/ carry = 1) /\
   Uint128.low (Uint128.add a b) = (Uint128.low a + Uint128.low b) mod 2 ^ 64 /\
   Uint128.high (Uint128.add a b)
   = (Uint128.high a + Uint128.high b + carry) mod 2 ^ 64) /\
  (let borrow := if Uint128.low a <? Uint128.low b then 1 else 0 in
   Uint128.low (Uint128.sub a b) = (Uint128.low a - Uint128.low b) mod 2 ^ 64 /\
   Uint128.high (Uint128.sub a b)
   = (Uint128.high a - Uint128.high b - borrow) mod 2 ^ 64) /\
  Uint128.add Uint128.max Uint128.one = Uint128.zero /\
  Uint128.sub Uint128.zero Uint128.one = Uint128.max.
Proof.
  intros Ha Hb.
  split; [apply add_toZ; assumption|].
  split; [apply sub_toZ; assumption|].
  split; [apply add_wf|]. split; [apply sub_wf|].
  split; [apply add_halves; assumption|].
  split; [apply sub_halves; assumption|].
  split; vm_compute; reflexivity.
Qed.

(** Closed range facts are settled by evaluation. *)
Ltac by_compute := vm_compute; repeat split; try discriminate; try reflexivity.

(** C6 (instance). [max] and [one] are well formed, and their sum wraps. *)
Lemma add_sub_wraparound_witness :
  Uint128.wf Uint128.max /\ Uint128.wf Uint128.one /\
  Uint128.toZ (Uint128.add Uint128.max Uint128.one)
  = (Uint128.toZ Uint128.max + Uint128.toZ Uint128.one) mod 2 ^ 128.
Proof.
  assert (Hmax : Uint128.wf Uint128.max) by by_compute.
  assert (Hone : Uint128.wf Uint128.one) by by_compute.
  split; [exact Hmax|]. split; [exact Hone|].
  exact (proj1 (add_sub_wraparound Uint128.max Uint128.one Hmax Hone)).
Defined.

(** C7. For every [x], [incr x] is [add x one] and [decr x] is
    [sub x one]; hence [incr max] is [zero] and [decr zero] is [max]. *)
Theorem incr_decr_are_add_sub_one (x : Uint128.t) :
  Uint128.incr x = Uint128.add x Uint128.one /\
  Uint128.decr x = Uint128.sub x Uint128.one /\
  Uint128.incr Uint128.max = Uint128.zero /\
  Uint128.decr Uint128.zero = Uint128.max.
Proof.
  split; [|split; [|split; vm_compute; reflexivity]].
  - unfold Uint128.incr, Uint128.add.
    change (Uint128.low Uint128.one) with 1.
    change (Uint128.high Uint128.one) with 0.
    rewrite Z.add_0_r. unfold Uint128.new. rewrite !land_U64_MAX, !Z.mod_mod by lia.
    reflexivity.
  - unfold Uint128.decr, Uint128.sub.
    change (Uint128.low Uint128.one) with 1.
    change (Uint128.high Uint128.one) with 0.
    rewrite Z.sub_0_r. reflexivity.
Qed.

Lemma writeBigUInt64BE_fits (buf : Buffer) (v : Z) (off : nat) :
  0 <= v < 2 ^ 64 -> (off + 8 <= length buf)%nat ->
  Buf.writeBigUInt64BE buf v off
  = Ok (take off buf ++ Buf.be_bytes 8 v ++ drop (off + 8) buf).
Proof.
  intros Hv Hoff. unfold Buf.writeBigUInt64BE.
  destruct (Z.ltb_spec v 0); [lia|].
  destruct (Z.ltb_spec 18446744073709551615 v); [lia|].
  destruct (Nat.leb_spec (off + 8) (length buf)); [|lia].
  cbn [orb negb]. f_equal.
  rewrite copy_at_fits by (rewrite be_bytes_length; lia).
  rewrite be_bytes_length. reflexivity.
Qed.

Lemma be_value_take8_range (bs : Buffer) :
  0 <= Buf.be_value (take 8 bs) < 2 ^ 64.
Proof.
  pose proof (be_value_range (take 8 bs)) as H.
  assert (Hl : (length (take 8 bs) <= 8)%nat) by (rewrite length_take; lia).
  assert (256 ^ Z.of_nat (length (take 8 bs)) <= 256 ^ 8)
    by (apply Z.pow_le_mono_r; lia).
  change (256 ^ 8) with (2 ^ 64) in *. lia.
Qed.

Lemma makeUint128FromPayload_16 (b : Buffer) :
  length b = 16%nat ->
  Uint128.makeUint128FromPayload (Some b)
  = Ok (Uint128.mk (Buf.be_value (drop 8 b)) (Buf.be_value (take 8 b))).
Proof.
  intros Hlen. unfold Uint128.makeUint128FromPayload, Buf.readBigUInt64BE.
  rewrite Hlen. cbn [Nat.eqb negb Nat.add Nat.leb bindR drop].
  unfold Uint128.new. rewrite !land_U64_MAX.
  rewrite !Z.mod_small by apply be_value_take8_range.
  rewrite (take_ge (drop 8 b)) by (rewrite length_drop; lia).
  reflexivity.
Qed.

Lemma bytes_of_halves (hi lo : Buffer) :
  length hi = 8%nat -> length lo = 8%nat ->
  Uint128.bytes (Uint128.mk (Buf.be_value lo) (Buf.be_value hi)) = Ok (hi ++ lo).
Proof.
  intros Hhi Hlo. unfold Uint128.bytes. cbn [Uint128.low Uint128.high].
  assert (Rhi : 0 <= Buf.be_value hi < 2 ^ 64).
  { pose proof (be_value_range hi) as H. rewrite Hhi in H. exact H. }
  assert (Rlo : 0 <= Buf.be_value lo < 2 ^ 64).
  { pose proof (be_value_range lo) as H. rewrite Hlo in H. exact H. }
  rewrite writeBigUInt64BE_fits by (rewrite ?alloc_length; lia).
  cbn [bindR].
  rewrite writeBigUInt64BE_fits
    by (rewrite ?length_app, ?be_bytes_length, ?length_drop, ?alloc_length;
        cbn; lia).
  pose proof (be_bytes_be_value hi) as Ehi. rewrite Hhi in Ehi.
  pose proof (be_bytes_be_value lo) as Elo. rewrite Hlo in Elo.
  rewrite Ehi, Elo. cbn [bindR]. f_equal.
  rewrite take_0, app_nil_l.
  rewrite take_app_length' by (symmetry; exact Hhi).
  rewrite drop_ge
    by (rewrite length_app, length_drop, alloc_length, Hhi; lia).
  rewrite app_nil_r. reflexivity.
Qed.

(** C8. For every buffer [b]: when [b] has 16 bytes, building a Uint128 from
    it succeeds and [bytes] of the result is [b] again; building fails with
    the invalid-buffer-length error (the spec's InvalidLength kind, built by
    [KSUIDError.invalidBufferLength]) exactly when the length of [b] is not
    16, and with no other error. *)
Theorem uint128_bytes_roundtrip (b : Buffer) :
  (length b = 16%nat ->
   exists u, Uint128.makeUint128FromPayload (Some b) = Ok u
             /\ Uint128.bytes u = Ok b) /\
  (length b <> 16%nat <->
   Uint128.makeUint128FromPayload (Some b) = Err (Thrown invalidBufferLength)) /\
  (forall e, Uint128.makeUint128FromPayload (Some b) = Err e ->
             e = Thrown invalidBufferLength /\ length b <> 16%nat).
Proof.
  assert (Hok : length b = 16%nat ->
                exists u, Uint128.makeUint128FromPayload (Some b) = Ok u
                          /\ Uint128.bytes u = Ok b).
  { intros Hlen. eexists. split; [apply makeUint128FromPayload_16; exact Hlen|].
    rewrite bytes_of_halves
      by (rewrite ?length_take, ?length_drop, Hlen; reflexivity).
    rewrite take_drop. reflexivity. }
  assert (Hbad : length b <> 16%nat ->
                 Uint128.makeUint128FromPayload (Some b)
                 = Err (Thrown invalidBufferLength)).
  { intros Hne. unfold Uint128.makeUint128FromPayload.
    destruct (Nat.eqb_spec (length b) 16); [contradiction|reflexivity]. }
  split; [exact Hok|]. split.
  - split; [exact Hbad|]. intros Herr Hlen.
    destruct (Hok Hlen) as (u & Hu & _). congruence.
  - intros e He. destruct (Nat.eq_dec (length b) 16%nat) as [Hlen|Hne].
    + destruct (Hok Hlen) as (u & Hu & _). congruence.
    + rewrite (Hbad Hne) in He. split; [congruence|exact Hne].
Qed.

(** ** Varint lengths *)

Lemma literal_mask64 : JS.ToInt32 (JS.literal 0xffffffffffffff00) = 0.
Proof. vm_compute. reflexivity. Qed.

Lemma varintLength64_eq_1 (v : Z) : CompressedSet.varintLength64 v = 1.
Proof.
  unfold CompressedSet.varintLength64, JS.band.
  rewrite literal_mask64, Z.land_0_r. reflexivity.
Qed.

(** Masking with [-(2^k)] clears the [k] low bits. *)
Lemma land_neg_pow2 (x k : Z) :
  0 <= k -> Z.land x (- 2 ^ k) = x - x mod 2 ^ k.
Proof.
  intros Hk. replace (- 2 ^ k) with (Z.lnot (Z.ones k))
    by (rewrite Z.ones_equiv; unfold Z.lnot; lia).
  rewrite <- Z.ldiff_land, Z.ldiff_ones_r by lia.
  rewrite Z.shiftl_mul_pow2, Z.shiftr_div_pow2 by lia.
  pose proof (Z.div_mod x (2 ^ k) ltac:(lia)). lia.
Qed.

Lemma land_neg_pow2_zero (x k : Z) :
  0 <= k -> (Z.land x (- 2 ^ k) =? 0) = (0 <=? x) && (x <? 2 ^ k).
Proof.
  intros Hk. rewrite land_neg_pow2 by lia.
  pose proof (Z.mod_pos_bound x (2 ^ k) ltac:(lia)) as Hm.
  destruct (Z.eqb_spec (x - x mod 2 ^ k) 0) as [E|E];
    destruct (Z.leb_spec 0 x); destruct (Z.ltb_spec x (2 ^ k));
    cbn [andb]; try reflexivity; exfalso; try lia.
  apply E. rewrite Z.mod_small by lia. lia.
Qed.

(** The 32-bit helper tests [v < 2^k] at each of its masks. *)
Lemma band_mask32 (v mask k : Z) :
  JS.ToInt32 (JS.literal mask) = - 2 ^ k -> 0 <= k <= 31 ->
  0 <= v < 2 ^ 32 ->
  (JS.band v (JS.literal mask) =? 0) = (v <? 2 ^ k).
Proof.
  intros Hmask Hk Hv. unfold JS.band. rewrite Hmask, land_neg_pow2_zero by lia.
  assert (2 ^ k <= 2 ^ 31) by (apply Z.pow_le_mono_r; lia).
  unfold JS.ToInt32.
  destruct (Z.ltb_spec v (2 ^ 31)).
  - rewrite (Z.mod_small (v + 2 ^ 31)) by lia.
    destruct (Z.leb_spec 0 (v + 2 ^ 31 - 2 ^ 31)); [|lia]. cbn [andb].
    f_equal. lia.
  - replace ((v + 2 ^ 31) mod 2 ^ 32) with (v - 2 ^ 31).
    + destruct (Z.leb_spec 0 (v - 2 ^ 31 - 2 ^ 31)); [lia|]. cbn [andb].
      symmetry. apply Z.ltb_ge. lia.
    + apply Z.mod_unique with (q := 1); lia.
Qed.

(** The 32-bit helper returns the minimal length: between 1 and 4, enough
    for the value, and no byte more. *)
Lemma varintLength32_minimal (v : Z) :
  0 <= v < 2 ^ 32 ->
  let n := CompressedSet.varintLength32 v in
  1 <= n <= 4 /\ v < 256 ^ n /\ (1 < n -> 256 ^ (n - 1) <= v).
Proof.
  intros Hv. unfold CompressedSet.varintLength32.
  rewrite (band_mask32 v 0xffffff00 8), (band_mask32 v 0xffff0000 16),
    (band_mask32 v 0xff000000 24) by (reflexivity || lia).
  destruct (Z.ltb_spec v (2 ^ 8)); [cbn; lia|].
  destruct (Z.ltb_spec v (2 ^ 16)); [cbn; lia|].
  destruct (Z.ltb_spec v (2 ^ 24)); cbn; lia.
Qed.

(** The BigInt helper tests [v < 2^k] at each of its masks. *)
Lemma land_mask64 (v mask k : Z) :
  mask = Z.land (Z.ones 64) (- 2 ^ k) -> 0 <= k ->
  0 <= v < 2 ^ 64 ->
  (Z.land v mask =? 0) = (v <? 2 ^ k).
Proof.
  intros -> Hk Hv. rewrite Z.land_assoc, Z.land_ones by lia.
  rewrite (Z.mod_small v) by lia. rewrite land_neg_pow2_zero by lia.
  destruct (Z.leb_spec 0 v); [reflexivity|lia].
Qed.

Lemma varintLength64BigInt_minimal (v : Z) :
  0 <= v < 2 ^ 64 ->
  let n := CompressedSet.varintLength64BigInt v in
  1 <= n <= 8 /\ v < 256 ^ n /\ (1 < n -> 256 ^ (n - 1) <= v).
Proof.
  intros Hv. unfold CompressedSet.varintLength64BigInt.
  rewrite (land_mask64 v 0xffffffffffffff00 8),
    (land_mask64 v 0xffffffffffff0000 16),
    (land_mask64 v 0xffffffffff000000 24),
    (land_mask64 v 0xffffffff00000000 32),
    (land_mask64 v 0xffffff0000000000 40),
    (land_mask64 v 0xffff000000000000 48),
    (land_mask64 v 0xff00000000000000 56) by (reflexivity || lia).
  destruct (Z.ltb_spec v (2 ^ 8)); [cbn; lia|].
  destruct (Z.ltb_spec v (2 ^ 16)); [cbn; lia|].
  destruct (Z.ltb_spec v (2 ^ 24)); [cbn; lia|].
  destruct (Z.ltb_spec v (2 ^ 32)); [cbn; lia|].
  destruct (Z.ltb_spec v (2 ^ 40)); [cbn; lia|].
  destruct (Z.ltb_spec v (2 ^ 48)); [cbn; lia|].
  destruct (Z.ltb_spec v (2 ^ 56)); cbn; lia.
Qed.

(** The 128-bit helper returns the minimal length, between 1 and 16. *)
Lemma varintLength128_minimal (v : Uint128.t) :
  Uint128.wf v ->
  let n := CompressedSet.varintLength128 v in
  1 <= n <= 16 /\ Uint128.toZ v < 256 ^ n
  /\ (1 < n -> 256 ^ (n - 1) <= Uint128.toZ v).
Proof.
  intros [Hl Hh]. unfold CompressedSet.varintLength128, Uint128.getHigh,
    Uint128.getLow, Uint128.toZ.
  destruct (Z.eqb_spec (Uint128.high v) 0) as [E|E]; cbn [negb].
  - rewrite E, Z.mul_0_l, Z.add_0_l.
    pose proof (varintLength64BigInt_minimal (Uint128.low v) Hl) as H.
    cbv zeta in H. lia.
  - pose proof (varintLength64BigInt_minimal (Uint128.high v) Hh) as (Hn & Hlt & Hge).
    cbv zeta in *.
    set (m := CompressedSet.varintLength64BigInt (Uint128.high v)) in *.
    replace (8 + m - 1) with (8 + (m - 1)) by lia.
    rewrite !Z.pow_add_r by lia. change (256 ^ 8) with (2 ^ 64).
    split; [lia|]. split; [nia|]. intros _.
    destruct (Z.eq_dec m 1) as [->|Hm].
    + change (256 ^ (1 - 1)) with 1. nia.
    + specialize (Hge ltac:(lia)). nia.
Qed.

(** C3 (divergence). The 64-bit length helper answers 1 for every number:
    its first mask, written as a [number] literal, is the double 2^64, which
    [&] reduces to the 32-bit integer 0.  So 256 gets length 1, the single
    byte written for it is 0, and reading that byte back gives 0. *)
Theorem varintLength64_always_1 :
  (forall v, CompressedSet.varintLength64 v = 1) /\
  JS.literal 0xffffffffffffff00 = 2 ^ 64 /\
  CompressedSet.varintLength64 256 = 1 /\
  CompressedSet.appendVarint64 (Buf.alloc 4) 0 256
    (CompressedSet.varintLength64 256) = Ok [x00; x00; x00; x00]%byte /\
  CompressedSetIter.readVarint64 [x00]%byte = Ok 0 /\
  CompressedSet.varintLength64BigInt 256 = 2.
Proof.
  split.
  - exact varintLength64_eq_1.
  - repeat split; vm_compute; reflexivity.
Qed.

(** ** The encoder loop *)

Import CompressedSet.

(** Whatever record a turn writes, a turn that does not leave the loop ends
    with [lastValue] equal to the payload of the identifier it started at. *)
Lemma loopBody_Next_lastValue (uniqueIds : list KSUID.t) (s s' : LoopState)
    (id : KSUID.t) (v : Uint128.t) :
  Arr.get uniqueIds (i s) = Ok id ->
  Uint128.uint128Payload (KSUID.toBuffer id) = Ok v ->
  loopBody uniqueIds s = Ok (s', Next) ->
  lastValue s' = v.
Proof.
  intros Hid Hv. unfold loopBody. destruct s as [i0 pos0 ts0 lv0 buf0].
  cbn [i] in Hid. rewrite Hid. cbn [bindR].
  destruct (KSUID.timestamp id) as [t|e]; cbn [bindR]; [|discriminate].
  rewrite Hv. cbn [bindR].
  match goal with
  | |- bindR ?X _ = _ -> _ => destruct X as [[[] []]|err]
  end; cbn [bindR]; try discriminate.
  intros [= <-]. reflexivity.
Qed.

Lemma equals_true (x y : Uint128.t) : Uint128.equals x y = true -> x = y.
Proof.
  destruct x, y. unfold Uint128.equals. cbn [Uint128.low Uint128.high].
  intros H. apply andb_true_iff in H as [Hl Hh].
  apply Z.eqb_eq in Hl, Hh. congruence.
Qed.

(** C9 (counterexample). Two identifiers with the same timestamp whose
    payloads differ by exactly 1: the buffer is the Raw record followed by
    the two bytes 0x81 0x01, a PayloadDelta record that carries delta 1, and
    not a PayloadRange record.  The arguments are in order, so nothing is
    sorted and the room on the call stack plays no part. *)
Lemma delta_one_without_run_is_PayloadDelta :
  exists c,
    (forall stack,
       fst (compress stack 0 ({[0%nat := [ident 100 5; ident 100 6]]} : Heap))
       = Ok c) /\
    content c = [x00]%byte ++ KSUID.buffer (ident 100 5)
                ++ [to_uint8 (JS.bor PAYLOAD_DELTA 1); to_uint8 1] /\
    JS.band (JS.bor PAYLOAD_DELTA 1) 192 = PAYLOAD_DELTA /\
    PAYLOAD_DELTA <> PAYLOAD_RANGE.
Proof.
  eexists. split; [intros stack; vm_compute; reflexivity|].
  split; [vm_compute; reflexivity|]. split; [reflexivity|discriminate].
Qed.

(** C2 (divergence). A turn that does not leave the loop ends with
    [lastValue] equal to the payload of the identifier the turn started at,
    also when the turn wrote a PayloadRange record and moved past a run.  For
    payloads 5, 6, 7, 15 at one timestamp the run scan finds one
    continuation, the turn at index 1 writes one PayloadRange record of count
    2 and moves the index to 2, but leaves [lastValue] at 6, not at the last
    payload of the run, 7; the next record is PayloadDelta 9, not 8. *)
Theorem range_turn_leaves_lastValue_at_run_start :
  let ids := [ident 100 5; ident 100 6; ident 100 7; ident 100 15] in
  let buf := Buf.copy_at (KSUID.toBuffer (ident 100 5))
               (Buf.set (Buf.alloc 1000) 0 RAW_KSUID) 1 in
  let s := mkLoop 1 21 100 (Uint128.new 5 0) buf in
  rangeLength (drop 2 ids) 100 (ident 100 6) (Uint128.new 6 0) = Ok (1, 1)%nat /\
  (exists buffer',
     loopBody ids s = Ok (mkLoop 2 23 100 (Uint128.new 6 0) buffer', Next) /\
     map byte_val (take 2 (drop 21 buffer')) = [193; 2]) /\
  Uint128.uint128Payload (KSUID.toBuffer (ident 100 7)) = Ok (Uint128.new 7 0) /\
  (exists out,
     emit (Buf.alloc 1000) ids = Ok out /\
     map byte_val (drop 21 out) = [193; 2; 129; 9]).
Proof.
  intros ids buf s. split; [vm_compute; reflexivity|].
  split.
  { eexists. split; [vm_compute; reflexivity|]. vm_compute. reflexivity. }
  split; [vm_compute; reflexivity|].
  eexists. split; [vm_compute; reflexivity|]. vm_compute. reflexivity.
Qed.

(** ** Decoding what the encoder wrote *)

Lemma toArray_loop_more_fuel (n k : nat) (r : list KSUID.t)
    (s : CompressedSetIter.t) :
  fst (toArray_loop n r s) <> Err OutOfFuel ->
  toArray_loop (n + k) r s = toArray_loop n r s.
Proof.
  revert r s. induction n as [|n IH]; intros r s.
  - cbn. intros H. exfalso. apply H. reflexivity.
  - cbn [Nat.add toArray_loop]. unfold bindS, getS, retS.
    destruct (CompressedSetIter.next s) as [[[|]|e] s1]; intros H;
      try reflexivity.
    apply IH. exact H.
Qed.

(** C1 (divergence). Payloads 5, 6, 7, 15 at one timestamp are sorted and
    distinct, so the expected decoding is the input itself; the decoder
    returns 5, 6, 7, 16 for any fuel that lets it finish, whatever room the
    call stack has. *)
Theorem roundtrip_breaks_after_run (stack k : nat) :
  let ids := [ident 100 5; ident 100 6; ident 100 7; ident 100 15] in
  Sort.isSorted ids = true /\ NoDup ids /\
  compress_then_toArray stack (5 + k) ids
  = Ok [ident 100 5; ident 100 6; ident 100 7; ident 100 16] /\
  compress_then_toArray stack (5 + k) ids <> Ok ids.
Proof.
  intros ids.
  assert (E : compress_then_toArray stack (5 + k) ids
              = Ok [ident 100 5; ident 100 6; ident 100 7; ident 100 16]).
  { unfold compress_then_toArray.
    assert (Ec : exists c, fst (compress stack 0 ({[0%nat := ids]} : Heap)) = Ok c
                           /\ toArray 5 c = Ok [ident 100 5; ident 100 6;
                                                ident 100 7; ident 100 16]).
    { eexists. split; [vm_compute; reflexivity|]. vm_compute. reflexivity. }
    destruct Ec as (c & Hc & Hdec). rewrite Hc. cbn [bindR].
    unfold toArray in *. rewrite toArray_loop_more_fuel; [exact Hdec|].
    rewrite Hdec. discriminate. }
  split; [reflexivity|]. split.
  - repeat constructor; rewrite ?elem_of_cons, ?elem_of_nil;
      intros H; repeat destruct H as [H|H]; try discriminate H; exact H.
  - split; [exact E|]. rewrite E. discriminate.
Qed.

(** C5 (divergence). Payloads 2^128-5, 2^128-4, 2^128-3, 2^128-1 at one
    timestamp: the decoder returns 2^128-5, 2^128-4, 2^128-3, 0, whose last
    identifier is below the one before it, whatever room the call stack
    has. *)
Theorem decoded_order_breaks_after_run (stack k : nat) :
  let ids := [ident 100 (2 ^ 128 - 5); ident 100 (2 ^ 128 - 4);
              ident 100 (2 ^ 128 - 3); ident 100 (2 ^ 128 - 1)] in
  compress_then_toArray stack (5 + k) ids
  = Ok [ident 100 (2 ^ 128 - 5); ident 100 (2 ^ 128 - 4);
        ident 100 (2 ^ 128 - 3); ident 100 0] /\
  KSUID.compare (ident 100 (2 ^ 128 - 3)) (ident 100 0) = 1.
Proof.
  intros ids. split; [|vm_compute; reflexivity].
  unfold compress_then_toArray.
  assert (Ec : exists c, fst (compress stack 0 ({[0%nat := ids]} : Heap)) = Ok c
                         /\ toArray 5 c
                            = Ok [ident 100 (2 ^ 128 - 5); ident 100 (2 ^ 128 - 4);
                                  ident 100 (2 ^ 128 - 3); ident 100 0]).
  { eexists. split; [vm_compute; reflexivity|]. vm_compute. reflexivity. }
  destruct Ec as (c & Hc & Hdec). rewrite Hc. cbn [bindR].
  unfold toArray in *. rewrite toArray_loop_more_fuel; [exact Hdec|].
  rewrite Hdec. discriminate.
Qed.

(** ** The array of arguments *)

Lemma agree_off_refl (l0 : nat) (h : Heap) : agree_off l0 h h.
Proof. intros l _. reflexivity. Qed.

Lemma agree_off_insert (l0 : nat) (h h' : Heap) (a : list KSUID.t) :
  agree_off l0 h h' -> agree_off l0 h (<[l0 := a]> h').
Proof. intros H l Hl. rewrite lookup_insert_ne by congruence. apply H, Hl. Qed.

Lemma push_frame (l0 : nat) (x : KSUID.t) (h0 h : Heap) :
  agree_off l0 h0 h -> agree_off l0 h0 (snd (Arr.push l0 x h)).
Proof.
  intros H. unfold Arr.push. destruct (h !! l0); cbn [snd];
    [apply agree_off_insert|]; exact H.
Qed.

Lemma sort_frame (stack l0 : nat) (h0 h : Heap) :
  agree_off l0 h0 h -> agree_off l0 h0 (snd (Arr.sort stack l0 h)).
Proof.
  intros H. unfold Arr.sort. destruct (h !! l0) as [a|]; [|exact H].
  destruct (Sort.sort stack a); cbn [snd]; [apply agree_off_insert|]; exact H.
Qed.

Lemma dedupe_frame (ids : list KSUID.t) (seen : gset string) (l0 : nat)
    (h0 h : Heap) :
  agree_off l0 h0 h -> agree_off l0 h0 (snd (dedupe ids seen l0 h)).
Proof.
  revert seen h. induction ids as [|id ids IH]; intros seen h H; [exact H|].
  cbn [dedupe]. unfold bindS, liftS.
  destruct (KSUID.toString id) as [key|e]; [|exact H].
  destruct (decide (key ∈ seen)); [apply IH, H|].
  pose proof (push_frame l0 id h0 h H) as Hp.
  destruct (Arr.push l0 id h) as [[[]|e] h1]; cbn [snd] in Hp; [|exact Hp].
  apply IH, Hp.
Qed.

Lemma appendCompressed_frame (stack : nat) (buffer : Buffer) (ids : nat)
    (h : Heap) :
  agree_off (fresh (dom h)) h (snd (appendCompressed stack buffer ids h)).
Proof.
  unfold appendCompressed, bindS, Arr.read, Arr.alloc, retS, liftS.
  destruct (h !! ids) as [idsv|]; [|apply agree_off_refl].
  destruct (length idsv =? 0)%nat; [apply agree_off_refl|].
  set (l0 := fresh (dom h)).
  assert (H1 : agree_off l0 h (<[l0 := []]> h))
    by apply agree_off_insert, agree_off_refl.
  pose proof (dedupe_frame idsv ∅ l0 h _ H1) as H2.
  destruct (dedupe idsv ∅ l0 (<[l0 := []]> h)) as [[[]|e] h2];
    cbn [snd] in H2; [|exact H2].
  destruct (h2 !! l0) as [u|] eqn:Hu; [|exact H2].
  assert (H3 : agree_off l0 h
                 (snd ((if negb (Sort.isSorted u) then Arr.sort stack l0
                        else retS tt) h2))).
  { destruct (negb (Sort.isSorted u)); [apply sort_frame|]; exact H2. }
  unfold retS in *.
  destruct ((if negb (Sort.isSorted u) then Arr.sort stack l0
             else fun s => (Ok tt, s)) h2) as [[[]|e] h3];
    cbn [snd] in H3; [|exact H3].
  destruct (h3 !! l0) as [u'|]; [|exact H3].
  destruct (length u' =? 0)%nat; exact H3.
Qed.

(** C10. Whatever [compress] returns or throws, and whatever room the call
    stack has, the heap it leaves holds the array of arguments, and every
    other array that existed before the call, with the same identifiers in
    the same order: the only array written is the one [appendCompressed]
    allocates for its copy. *)
Theorem compress_leaves_its_argument (stack : nat) (h : Heap) (ids : nat) :
  snd (compress stack ids h) !! ids = h !! ids /\
  (forall l, is_Some (h !! l) -> snd (compress stack ids h) !! l = h !! l).
Proof.
  assert (Hall : forall l, is_Some (h !! l) ->
                           snd (compress stack ids h) !! l = h !! l).
  { intros l Hl. unfold compress, bindS, Arr.read, retS.
    destruct (h !! ids) as [idsv|]; [|reflexivity].
    pose proof (appendCompressed_frame stack
                  (Buf.alloc (Z.to_nat
                     (Z.max 100 (1 + 20 + Z.of_nat (length idsv) / 5) * 10)))
                  ids h) as Hf.
    destruct (appendCompressed stack _ ids h) as [[c|e] h']; cbn [snd] in *;
      apply Hf; intros ->; apply elem_of_dom in Hl;
      exact (is_fresh (dom h) Hl). }
  split; [|exact Hall].
  destruct (h !! ids) as [a|] eqn:Ha.
  - rewrite <- Ha. apply Hall. rewrite Ha. eauto.
  - unfold compress, bindS, Arr.read. rewrite Ha. exact Ha.
Qed.

(** C10 (instance). An unsorted array with a duplicate is compressed, and
    is afterwards what it was; so it is when the call stack has room for
    one call of [quickSort] only and [compress] throws. *)
Lemma compress_leaves_its_argument_witness :
  let ids := [ident 100 7; ident 100 5; ident 100 7] in
  let h : Heap := {[0%nat := ids]} in
  (exists c, fst (compress 100 0 h) = Ok c) /\
  fst (compress 1 0 h) = Err RangeError /\
  is_Some (h !! 0%nat) /\
  snd (compress 100 0 h) !! 0%nat = Some ids /\
  snd (compress 1 0 h) !! 0%nat = Some ids.
Proof.
  intros ids h. split; [eexists; vm_compute; reflexivity|].
  split; [vm_compute; reflexivity|].
  assert (H0 : is_Some (h !! 0%nat)) by (exists ids; reflexivity).
  split; [exact H0|].
  rewrite (proj2 (compress_leaves_its_argument 100 h 0%nat) 0%nat H0).
  rewrite (proj2 (compress_leaves_its_argument 1 h 0%nat) 0%nat H0).
  split; reflexivity.
Defined.

(** ** The iterator on arbitrary buffers *)

Import CompressedSetIter.

Section Failures.

Context (P : Exception -> Prop).

Lemma errsR_Ok {A} (a : A) : errsR P (Ok a).
Proof. intros e H. discriminate. Qed.

Lemma errsR_Err {A} (e : Exception) : P e -> errsR P (@Err A e).
Proof. intros H e' [= <-]. exact H. Qed.

Lemma errsR_bind {A B} (r : Result A) (k : A -> Result B) :
  errsR P r -> (forall a, errsR P (k a)) -> errsR P (bindR r k).
Proof.
  intros Hr Hk e. destruct r as [a|e']; cbn [bindR].
  - apply Hk.
  - intros [= <-]. apply Hr. reflexivity.
Qed.

Lemma errsS_bind {S A B} (m : SE S A) (k : A -> SE S B) :
  errsS P m -> (forall a, errsS P (k a)) -> errsS P (bindS m k).
Proof.
  intros Hm Hk s e s'. unfold bindS.
  destruct (m s) as [[a|e'] s1] eqn:E.
  - apply Hk.
  - intros [= <- <-]. exact (Hm _ _ _ E).
Qed.

Lemma errsS_lift {S A} (r : Result A) : errsR P r -> errsS P (@liftS S A r).
Proof. intros Hr s e s' [= -> <-]. apply Hr. reflexivity. Qed.

Lemma errsS_ret {S A} (a : A) : errsS P (@retS S A a).
Proof. intros s e s' H. discriminate. Qed.

Lemma errsS_get {S} : errsS P (@getS S).
Proof. intros s e s' H. discriminate. Qed.

End Failures.

Lemma errsR_mono (P Q : Exception -> Prop) {A} (r : Result A) :
  (forall e, P e -> Q e) -> errsR P r -> errsR Q r.
Proof. intros H Hr e He. apply H, Hr, He. Qed.

Lemma benign_genuine (e : Exception) : benign e -> genuine e.
Proof. intros [->| ->]; discriminate. Qed.

Lemma benignR_RangeError {A} : errsR benign (@Err A RangeError).
Proof. apply errsR_Err. right. reflexivity. Qed.

Lemma benignR_invalidBufferLength {A} :
  errsR benign (@Err A (Thrown invalidBufferLength)).
Proof. apply errsR_Err. left. reflexivity. Qed.

Create HintDb benign.
#[local] Hint Resolve errsR_Ok benignR_RangeError benignR_invalidBufferLength
  errsS_ret errsS_get : benign.

Lemma benignS_set_ksuid k : errsS benign (set_ksuid k).
Proof. intros s e s' H. discriminate. Qed.
Lemma benignS_set_offset o : errsS benign (set_offset o).
Proof. intros s e s' H. discriminate. Qed.
Lemma benignS_set_seqlength n : errsS benign (set_seqlength n).
Proof. intros s e s' H. discriminate. Qed.
Lemma benignS_set_timestamp ts : errsS benign (set_timestamp ts).
Proof. intros s e s' H. discriminate. Qed.
Lemma benignS_set_lastValue v : errsS benign (set_lastValue v).
Proof. intros s e s' H. discriminate. Qed.
#[local] Hint Resolve benignS_set_ksuid benignS_set_offset benignS_set_seqlength
  benignS_set_timestamp benignS_set_lastValue : benign.

(** Each step of a proof that a composed computation is benign. *)
Ltac benign_step :=
  first
    [ apply errsS_bind; [|intros ?]
    | apply errsR_bind; [|intros ?]
    | apply errsS_lift
    | solve [auto with benign] ].

Lemma benignR_readUInt32BE buf off : errsR benign (Buf.readUInt32BE buf off).
Proof. unfold Buf.readUInt32BE. destruct (_ <=? _)%nat; auto with benign. Qed.

Lemma benignR_readBigUInt64BE buf off : errsR benign (Buf.readBigUInt64BE buf off).
Proof. unfold Buf.readBigUInt64BE. destruct (_ <=? _)%nat; auto with benign. Qed.

Lemma benignR_writeUInt32BE buf v off : errsR benign (Buf.writeUInt32BE buf v off).
Proof. unfold Buf.writeUInt32BE. destruct (_ || _); auto with benign. Qed.

Lemma benignR_writeBigUInt64BE buf v off :
  errsR benign (Buf.writeBigUInt64BE buf v off).
Proof. unfold Buf.writeBigUInt64BE. destruct (_ || _); auto with benign. Qed.

Lemma benignR_copy src target start : errsR benign (Buf.copy src target start).
Proof. unfold Buf.copy. destruct (_ <? _); auto with benign. Qed.

#[local] Hint Resolve benignR_readUInt32BE benignR_readBigUInt64BE
  benignR_writeUInt32BE benignR_writeBigUInt64BE benignR_copy : benign.

Lemma benignR_makeUint128FromPayload b :
  errsR benign (Uint128.makeUint128FromPayload (Some b)).
Proof.
  unfold Uint128.makeUint128FromPayload.
  destruct (negb _); [auto with benign|]. repeat benign_step.
Qed.

Lemma benignR_uint128Payload b : errsR benign (Uint128.uint128Payload b).
Proof. unfold Uint128.uint128Payload. apply benignR_makeUint128FromPayload. Qed.

Lemma benignR_fromBytes b : errsR benign (KSUID.fromBytes (Some b)).
Proof.
  unfold KSUID.fromBytes, KSUID.new.
  destruct (negb _); auto with benign.
Qed.

Lemma benignR_timestamp k : errsR benign (KSUID.timestamp k).
Proof. unfold KSUID.timestamp. auto with benign. Qed.

Lemma benignR_ksuid x ts : errsR benign (Uint128.ksuid x ts).
Proof. unfold Uint128.ksuid. repeat benign_step. Qed.

#[local] Hint Resolve benignR_makeUint128FromPayload benignR_uint128Payload
  benignR_fromBytes benignR_timestamp benignR_ksuid : benign.

Lemma benignR_readVarint32 b : errsR benign (readVarint32 b).
Proof. unfold readVarint32. repeat benign_step. Qed.

Lemma benignR_readVarint64 b : errsR benign (readVarint64 b).
Proof. unfold readVarint64. repeat benign_step. Qed.

Lemma benignR_readVarint128 b : errsR benign (readVarint128 b).
Proof. unfold readVarint128. repeat benign_step. Qed.

#[local] Hint Resolve benignR_readVarint32 benignR_readVarint64
  benignR_readVarint128 : benign.

Lemma benignS_caseRaw : errsS benign caseRaw.
Proof. unfold caseRaw. repeat benign_step. Qed.

Lemma benignS_caseTimeDelta cnt : errsS benign (caseTimeDelta cnt).
Proof. unfold caseTimeDelta. repeat benign_step. Qed.

Lemma benignS_casePayloadDelta cnt : errsS benign (casePayloadDelta cnt).
Proof. unfold casePayloadDelta. repeat benign_step. Qed.

Lemma benignS_casePayloadRange cnt : errsS benign (casePayloadRange cnt).
Proof. unfold casePayloadRange. repeat benign_step. Qed.

(** The two kind bits of a byte always name one of the four records. *)
Lemma tag_of_cases (x : byte) :
  tag_of x = RAW_KSUID \/ tag_of x = TIME_DELTA
  \/ tag_of x = PAYLOAD_DELTA \/ tag_of x = PAYLOAD_RANGE.
Proof.
  destruct x; vm_compute; auto.
Qed.

Lemma next_mask :
  JS.bor (JS.bor (JS.bor RAW_KSUID TIME_DELTA) PAYLOAD_DELTA) PAYLOAD_RANGE = 192.
Proof. reflexivity. Qed.

Lemma benignS_next : errsS benign next.
Proof.
  unfold next. apply errsS_bind; [auto with benign|]. intros s.
  destruct (0 <? seqlength s); [repeat benign_step|].
  destruct (_ <=? _)%nat; [auto with benign|].
  apply errsS_bind; [auto with benign|]. intros _.
  apply errsS_bind; [|auto with benign].
  rewrite next_mask.
  destruct (content s !! offset s) as [x|].
  - fold (tag_of x).
    destruct (tag_of_cases x) as [E|[E|[E|E]]]; rewrite E;
      cbn [Z.eqb Pos.eqb RAW_KSUID];
      first [ apply benignS_caseRaw | apply benignS_caseTimeDelta
            | apply benignS_casePayloadDelta | apply benignS_casePayloadRange ].
  - apply benignS_caseRaw.
Qed.

(** A Raw record cut short fails in the identifier constructor. *)
Lemma next_truncated_raw (s : CompressedSetIter.t) (x : byte) :
  seqlength s <= 0 ->
  content s !! offset s = Some x ->
  tag_of x = RAW_KSUID ->
  (length (content s) < offset s + 21)%nat ->
  fst (next s) = Err (Thrown invalidBufferLength).
Proof.
  intros Hseq Hx Htag Hlen.
  pose proof (lookup_lt_Some _ _ _ Hx) as Hoff.
  unfold next, bindS, getS.
  destruct (Z.ltb_spec 0 (seqlength s)); [lia|].
  destruct (Nat.leb_spec (length (content s)) (offset s)); [lia|].
  rewrite Hx, next_mask. fold (tag_of x). rewrite Htag.
  unfold set_offset at 1. cbn [Z.eqb RAW_KSUID].
  unfold caseRaw, bindS, getS, liftS. cbn [content offset].
  unfold KSUID.fromBytes.
  destruct (Nat.eqb_spec
              (length (Buf.subarray (content s) (offset s + 1) (offset s + 1 + 20)))
              KSUID.KSUID_LENGTH) as [E|E]; [|reflexivity].
  exfalso. unfold Buf.subarray, KSUID.KSUID_LENGTH in E.
  rewrite length_take, length_drop in E.
  unfold KSUID.TIMESTAMP_LENGTH, KSUID.PAYLOAD_LENGTH in E. lia.
Qed.

Lemma fromBytes_20 (b : Buffer) :
  length b = 20%nat -> KSUID.fromBytes (Some b) = Ok (KSUID.mk b).
Proof.
  intros H. unfold KSUID.fromBytes, KSUID.new. rewrite H. reflexivity.
Qed.

Lemma writeUInt32BE_fits (buf : Buffer) (v : Z) (off : nat) :
  0 <= v <= 0xffffffff -> (off + 4 <= length buf)%nat ->
  Buf.writeUInt32BE buf v off = Ok (Buf.copy_at (Buf.be_bytes 4 v) buf off).
Proof.
  intros Hv Hoff. unfold Buf.writeUInt32BE.
  destruct (Z.ltb_spec v 0); [lia|].
  destruct (Z.ltb_spec 4294967295 v); [lia|].
  destruct (Nat.leb_spec (off + 4) (length buf)); [|lia].
  reflexivity.
Qed.

(** C4 (counterexample). A PayloadDelta tag that declares one byte with no
    byte after it, and the buffer [ff ff ff] (a PayloadRange tag that
    declares 63 bytes with two after it), are decoded without any error; a
    Raw tag followed by three bytes fails with the invalid buffer length
    error, whose code is not MALFORMED_DATA. *)
Lemma truncated_buffers_do_not_raise_MalformedData :
  fst (next (CompressedSetIter.new [x81]%byte)) = Ok true /\
  fst (next (CompressedSetIter.new [xff; xff; xff]%byte)) = Ok true /\
  fst (next (CompressedSetIter.new [x00; x01; x02; x03]%byte))
  = Err (Thrown invalidBufferLength) /\
  code invalidBufferLength <> MALFORMED_DATA.
Proof.
  split; [vm_compute; reflexivity|].
  split; [vm_compute; reflexivity|].
  split; [vm_compute; reflexivity|discriminate].
Qed.

(** ** Fuel

    The loops that the model runs on fuel are given enough of
    it: encoding never ends in [OutOfFuel]. *)

Create HintDb genuine.

Lemma genuineR_of_benign {A} (r : Result A) : errsR benign r -> errsR genuine r.
Proof. apply errsR_mono, benign_genuine. Qed.

Lemma genuineR_Thrown {A} (e : KSUIDError) : errsR genuine (@Err A (Thrown e)).
Proof. apply errsR_Err. discriminate. Qed.

Lemma genuineR_TypeError {A} : errsR genuine (@Err A TypeError).
Proof. apply errsR_Err. discriminate. Qed.

Lemma genuineR_RangeError {A} : errsR genuine (@Err A RangeError).
Proof. apply errsR_Err. discriminate. Qed.

#[local] Hint Resolve errsR_Ok errsS_ret errsS_get genuineR_Thrown
  genuineR_TypeError genuineR_RangeError : genuine.

Ltac genuine_step :=
  first
    [ solve [auto with genuine]
    | solve [apply genuineR_of_benign; auto with benign]
    | apply errsS_bind; [|intros ?]
    | apply errsR_bind; [|intros ?]
    | apply errsS_lift
    | match goal with
      | |- errsR _ (let (_, _) := ?x in _) => destruct x
      | |- errsR _ (if ?c then _ else _) => destruct c
      | |- errsS _ (if ?c then _ else _) => destruct c
      end ].

Lemma encode_loop_enough (fuel : nat) (num : Z) (acc : string) :
  num < 2 ^ Z.of_nat fuel -> exists s, Base62.encode_loop fuel num acc = Ok s.
Proof.
  revert num acc. induction fuel as [|fuel IH]; intros num acc Hnum.
  - cbn [Base62.encode_loop]. change (2 ^ Z.of_nat 0) with 1 in Hnum.
    destruct (Z.ltb_spec 0 num); [lia|]. eauto.
  - cbn [Base62.encode_loop]. destruct (Z.ltb_spec 0 num); [|eauto].
    apply IH. rewrite Nat2Z.inj_succ, Z.pow_succ_r in Hnum by lia.
    unfold Base62.BASE. apply Z.div_lt_upper_bound; lia.
Qed.

Lemma genuineR_encode (b : option Buffer) : errsR genuine (Base62.encode b).
Proof.
  unfold Base62.encode. destruct b as [b|]; [|auto with genuine].
  destruct (negb _); [auto with genuine|].
  destruct (_ =? 0); [auto with genuine|].
  destruct (encode_loop_enough (8 * length b) (Buf.be_value b) EmptyString)
    as [s Hs].
  { pose proof (be_value_range b) as H.
    rewrite Nat2Z.inj_mul, Z.pow_mul_r by lia. exact (proj2 H). }
  rewrite Hs. cbn [bindR]. auto with genuine.
Qed.

Lemma genuineR_toString (k : KSUID.t) : errsR genuine (KSUID.toString k).
Proof. apply genuineR_encode. Qed.

Lemma genuineR_Sort_get a i : errsR genuine (Sort.get a i).
Proof.
  unfold Sort.get. destruct (_ <? _); [auto with genuine|].
  destruct (_ !! _); auto with genuine.
Qed.

Lemma genuineR_Arr_get a i : errsR genuine (Arr.get a i).
Proof. unfold Arr.get. destruct (_ !! _); auto with genuine. Qed.

#[local] Hint Resolve genuineR_toString genuineR_Sort_get genuineR_Arr_get
  : genuine.

Lemma genuineR_swap a i j : errsR genuine (Sort.swap a i j).
Proof. unfold Sort.swap. repeat genuine_step. Qed.

#[local] Hint Resolve genuineR_swap : genuine.

Lemma genuineR_partition n a pivot i j :
  errsR genuine (Sort.partition n a pivot i j).
Proof.
  revert a i j. induction n as [|n IH]; intros a i j; cbn [Sort.partition];
    [auto with genuine|].
  genuine_step; [auto with genuine|].
  genuine_step; [|apply IH]. genuine_step; [auto with genuine|]. apply IH.
Qed.

#[local] Hint Resolve genuineR_partition : genuine.

Lemma genuineR_quickSort (stack : nat) (a : list KSUID.t) (lo hi : Z) :
  errsR genuine (Sort.quickSort stack a lo hi).
Proof.
  revert a lo hi. induction stack as [|stack IH]; intros a lo hi;
    cbn [Sort.quickSort]; [auto with genuine|].
  destruct (Z.ltb_spec lo hi); [|auto with genuine].
  genuine_step; [auto with genuine|].
  destruct (Sort.partition (Z.to_nat (hi - lo)) a a0 (lo - 1) lo)
    as [[a1 i1]|e] eqn:Hp; cbn [bindR];
    [|apply genuineR_partition in Hp; apply errsR_Err; exact Hp].
  repeat (genuine_step; [solve [repeat genuine_step]|]).
  genuine_step; apply IH.
Qed.

Lemma genuineR_sort (stack : nat) (ids : list KSUID.t) :
  errsR genuine (Sort.sort stack ids).
Proof.
  unfold Sort.sort. destruct (_ <=? 1)%nat eqn:E; [auto with genuine|].
  apply genuineR_quickSort.
Qed.

Lemma genuineR_rangeLength_loop ids ts k cur len count :
  errsR genuine (rangeLength_loop ids ts k cur len count).
Proof.
  revert k cur len count.
  induction ids as [|id ids IH]; intros k cur len count;
    cbn [rangeLength_loop]; [auto with genuine|].
  do 2 (genuine_step; [auto with genuine|]).
  destruct (String.eqb _ _); [apply IH|].
  genuine_step; [repeat genuine_step|].
  destruct (negb _); [auto with genuine|].
  genuine_step; [repeat genuine_step|].
  destruct (negb _); [auto with genuine|apply IH].
Qed.

Lemma genuineR_appendVarint32 buf off v len :
  errsR genuine (appendVarint32 buf off v len).
Proof. unfold appendVarint32. repeat genuine_step. Qed.

Lemma genuineR_appendVarint64 buf off v len :
  errsR genuine (appendVarint64 buf off v len).
Proof. unfold appendVarint64. repeat genuine_step. Qed.

Lemma genuineR_appendVarint128 buf off v len :
  errsR genuine (appendVarint128 buf off v len).
Proof.
  unfold appendVarint128, Uint128.bytes. repeat genuine_step.
Qed.

#[local] Hint Resolve genuineR_rangeLength_loop genuineR_appendVarint32
  genuineR_appendVarint64 genuineR_appendVarint128 : genuine.

(** The part of a turn before the closing assignment to [lastValue]: its
    failures are genuine and it never moves the index back. *)
Lemma genuineR_loopBody (uniqueIds : list KSUID.t) (s : LoopState) :
  errsR genuine (loopBody uniqueIds s).
Proof.
  unfold loopBody, rangeLength. destruct s as [i0 pos0 ts0 lv0 buf0].
  do 3 (genuine_step; [repeat genuine_step|]).
  genuine_step.
  - destruct (negb (_ =? _)); [repeat genuine_step|].
    destruct (negb (Uint128.equals _ _)); [repeat genuine_step|].
    genuine_step; [auto with genuine|]. destruct a2 as [len count].
    destruct (0 <? len)%nat; [|repeat genuine_step].
    genuine_step; [auto with genuine|].
    destruct (_ <? _)%nat; repeat genuine_step.
  - destruct a2 as [[] []]; auto with genuine.
Qed.

Lemma loopBody_index (uniqueIds : list KSUID.t) (s s' : LoopState) (f : Flow) :
  loopBody uniqueIds s = Ok (s', f) -> (i s <= i s')%nat.
Proof.
  unfold loopBody. destruct s as [i0 pos0 ts0 lv0 buf0]. cbn [i].
  destruct (Arr.get uniqueIds i0) as [id|]; cbn [bindR]; [|discriminate].
  destruct (KSUID.timestamp id) as [t|]; cbn [bindR]; [|discriminate].
  destruct (Uint128.uint128Payload _) as [v|]; cbn [bindR]; [|discriminate].
  assert (Hclose : forall (r : Result (LoopState * Flow)),
    (forall s1 f1, r = Ok (s1, f1) -> (i0 <= i s1)%nat) ->
    bindR r (fun branches =>
      match branches with
      | (s1, Break) => Ok (s1, Break)
      | (mkLoop i1 pos1 ts1 _ buf1, Next) => Ok (mkLoop i1 pos1 ts1 v buf1, Next)
      end) = Ok (s', f) -> (i0 <= i s')%nat).
  { intros r Hr. destruct r as [[[i1 p1 t1 l1 b1] []]|]; cbn [bindR];
      try discriminate; intros [= <- <-];
      exact (Hr _ _ eq_refl). }
  apply Hclose. clear Hclose. intros s1 f1.
  destruct (negb (_ =? _)).
  { destruct (appendVarint32 _ _ _ _); cbn [bindR]; [|discriminate].
    intros [= <- <-]. cbn [i]. lia. }
  destruct (negb (Uint128.equals _ _)).
  { destruct (appendVarint128 _ _ _ _); cbn [bindR]; [|discriminate].
    intros [= <- <-]. cbn [i]. lia. }
  destruct (rangeLength _ _ _ _) as [[len count]|]; cbn [bindR]; [|discriminate].
  destruct (0 <? len)%nat.
  - destruct (appendVarint64 _ _ _ _); cbn [bindR]; [|discriminate].
    destruct (_ <? _)%nat.
    + destruct (Arr.get _ _); cbn [bindR]; [|discriminate].
      destruct (Uint128.uint128Payload _); cbn [bindR]; [|discriminate].
      intros [= <- <-]. cbn [i]. lia.
    + intros [= <- <-]. cbn [i]. lia.
  - destruct (appendVarint128 _ _ _ _); cbn [bindR]; [|discriminate].
    intros [= <- <-]. cbn [i]. lia.
Qed.

Lemma genuineR_loop (fuel : nat) (uniqueIds : list KSUID.t) (s : LoopState) :
  (length uniqueIds - i s <= fuel)%nat ->
  errsR genuine (loop fuel uniqueIds s).
Proof.
  revert s. induction fuel as [|fuel IH]; intros s Hfuel; cbn [loop];
    destruct (Nat.ltb_spec (i s) (length uniqueIds));
    try solve [auto with genuine]; [lia|].
  destruct (loopBody uniqueIds s) as [[s' f]|e] eqn:Hb; cbn [bindR].
  - apply loopBody_index in Hb. destruct f; [|auto with genuine].
    apply IH. cbn [i]. lia.
  - apply errsR_Err. exact (genuineR_loopBody uniqueIds s e Hb).
Qed.

Lemma genuineR_emit (buffer : Buffer) (uniqueIds : list KSUID.t) :
  errsR genuine (emit buffer uniqueIds).
Proof.
  unfold emit. do 3 (genuine_step; [repeat genuine_step|]).
  genuine_step; [|auto with genuine].
  apply genuineR_loop. cbn [i]. lia.
Qed.

Lemma genuineS_read l : errsS genuine (Arr.read l).
Proof.
  intros h e h'. unfold Arr.read. destruct (h !! l); [discriminate|].
  intros [= <- <-]. discriminate.
Qed.

Lemma genuineS_alloc : errsS genuine Arr.alloc.
Proof. intros h e h'. unfold Arr.alloc. discriminate. Qed.

Lemma genuineS_push l x : errsS genuine (Arr.push l x).
Proof.
  intros h e h'. unfold Arr.push. destruct (h !! l); [discriminate|].
  intros [= <- <-]. discriminate.
Qed.

Lemma genuineS_sort stack l : errsS genuine (Arr.sort stack l).
Proof.
  intros h e h'. unfold Arr.sort. destruct (h !! l) as [a|].
  - destruct (Sort.sort stack a) as [a'|e'] eqn:E; [discriminate|].
    intros [= <- <-]. exact (genuineR_sort stack a e' E).
  - intros [= <- <-]. discriminate.
Qed.

#[local] Hint Resolve genuineR_emit genuineS_read genuineS_alloc genuineS_push
  genuineS_sort : genuine.

Lemma genuineS_dedupe ids seen l : errsS genuine (dedupe ids seen l).
Proof.
  revert seen. induction ids as [|id ids IH]; intros seen; cbn [dedupe];
    [auto with genuine|].
  genuine_step; [repeat genuine_step|].
  destruct (decide _); [apply IH|].
  genuine_step; [auto with genuine|apply IH].
Qed.

#[local] Hint Resolve genuineS_dedupe : genuine.

Lemma genuineS_appendCompressed stack buffer ids :
  errsS genuine (appendCompressed stack buffer ids).
Proof. unfold appendCompressed. repeat genuine_step. Qed.

#[local] Hint Resolve genuineS_appendCompressed : genuine.

(** The encoder's loops are given enough fuel: a call of [compress] returns
    a buffer or fails with an exception of the source. *)
Lemma compress_never_out_of_fuel (stack : nat) (h : Heap) (ids : nat) :
  fst (compress stack ids h) <> Err OutOfFuel.
Proof.
  intros H. destruct (compress stack ids h) as [r h'] eqn:E. cbn [fst] in H.
  subst r.
  assert (Hc : errsS genuine (compress stack ids)).
  { unfold compress. repeat genuine_step. }
  exact (Hc h _ h' E eq_refl).
Qed.

(** ** Two further ways the decoded sequence departs from the input *)

(** A run of 257 consecutive payloads has count 256, which the 64-bit
    length helper sizes at one byte: the record carries count 0 and the
    decoder returns two identifiers. *)
Lemma long_run_is_cut_to_its_low_byte (stack : nat) :
  compress_then_toArray stack 3
    (map (fun n => ident 100 (Z.of_nat n)) (seq 0 257))
  = Ok [ident 100 0; ident 100 1].
Proof. vm_compute. reflexivity. Qed.

(** Sixty identifiers with sixty timestamps need 1083 bytes; the buffer
    [compress] allocates for them has 1000, writes beyond it are dropped, and
    the decoder returns 56 identifiers. *)
Lemma output_is_cut_at_capacity (stack : nat) :
  let ids := map (fun n => ident (Z.of_nat n) 7) (seq 0 60) in
  exists c l,
    fst (compress stack 0 ({[0%nat := ids]} : Heap)) = Ok c /\
    length (CompressedSet.content c) = 1000%nat /\
    toArray 57 c = Ok l /\ length l = 56%nat.
Proof.
  intros ids. eexists. eexists.
  split; [vm_compute; reflexivity|].
  split; [vm_compute; reflexivity|].
  split; [vm_compute; reflexivity|].
  vm_compute. reflexivity.
Qed.

(** * Further properties of the code *)

(** ** Uint128: order, algebra and byte forms *)

Lemma toZ_inj (x y : Uint128.t) :
  Uint128.wf x -> Uint128.wf y -> Uint128.toZ x = Uint128.toZ y -> x = y.
Proof.
  destruct x as [lx hx], y as [ly hy]. unfold Uint128.wf, Uint128.toZ.
  cbn [Uint128.low Uint128.high]. intros [Hlx Hhx] [Hly Hhy] E.
  assert (hx = hy) by lia. subst hy. assert (lx = ly) by lia. subst ly.
  reflexivity.
Qed.

Lemma toZ_range (x : Uint128.t) : Uint128.wf x -> 0 <= Uint128.toZ x < 2 ^ 128.
Proof.
  destruct x as [l h]. unfold Uint128.wf, Uint128.toZ.
  cbn [Uint128.low Uint128.high]. intros [Hl Hh].
  change (2 ^ 128) with (2 ^ 64 * 2 ^ 64). nia.
Qed.

Lemma compare_toZ (a b : Uint128.t) :
  Uint128.wf a -> Uint128.wf b ->
  Uint128.compare a b
  = match Uint128.toZ a ?= Uint128.toZ b with Lt => -1 | Eq => 0 | Gt => 1 end.
Proof.
  destruct a as [la ha], b as [lb hb]. unfold Uint128.wf, Uint128.toZ, Uint128.compare.
  cbn [Uint128.low Uint128.high]. intros [Hla Hha] [Hlb Hhb].
  destruct (Z.compare_spec (ha * 2 ^ 64 + la) (hb * 2 ^ 64 + lb));
    destruct (Z.ltb_spec ha hb); destruct (Z.ltb_spec hb ha);
    destruct (Z.ltb_spec la lb); destruct (Z.ltb_spec lb la);
    try reflexivity; exfalso; lia.
Qed.

Lemma equals_iff (a b : Uint128.t) : Uint128.equals a b = true <-> a = b.
Proof.
  split; [apply equals_true|]. intros ->. unfold Uint128.equals.
  rewrite !Z.eqb_refl. reflexivity.
Qed.

(** X1. On well-formed values [compare] is the order of the numbers the
    values stand for, [equals] holds exactly for equal values and agrees
    with [compare] returning 0, and [isZero] holds exactly for zero. *)
Theorem uint128_compare_is_numeric_order (a b : Uint128.t) :
  Uint128.wf a -> Uint128.wf b ->
  Uint128.compare a b
  = match Uint128.toZ a ?= Uint128.toZ b with Lt => -1 | Eq => 0 | Gt => 1 end /\
  (Uint128.equals a b = true <-> Uint128.toZ a = Uint128.toZ b) /\
  Uint128.equals a b = (Uint128.compare a b =? 0) /\
  (Uint128.isZero a = true <-> Uint128.toZ a = 0).
Proof.
  intros Ha Hb. pose proof (compare_toZ a b Ha Hb) as Hc.
  split; [exact Hc|].
  assert (He : Uint128.equals a b = true <-> Uint128.toZ a = Uint128.toZ b).
  { rewrite equals_iff. split; [intros ->; reflexivity|apply toZ_inj; assumption]. }
  split; [exact He|]. split.
  - rewrite Hc. destruct (Z.compare_spec (Uint128.toZ a) (Uint128.toZ b)) as [E|E|E].
    + apply He, E.
    + apply not_true_is_false. intros Eq. apply He in Eq. lia.
    + apply not_true_is_false. intros Eq. apply He in Eq. lia.
  - destruct a as [l h]. destruct Ha as [Hl Hh]. unfold Uint128.isZero, Uint128.toZ.
    cbn [Uint128.low Uint128.high] in *. rewrite andb_true_iff, !Z.eqb_eq. lia.
Qed.

(** X1 (instance). *)
Lemma uint128_compare_is_numeric_order_witness :
  Uint128.compare Uint128.one Uint128.max = -1.
Proof.
  assert (H1 : Uint128.wf Uint128.one) by by_compute.
  assert (H2 : Uint128.wf Uint128.max) by by_compute.
  rewrite (proj1 (uint128_compare_is_numeric_order _ _ H1 H2)). reflexivity.
Defined.

Lemma add_comm (a b : Uint128.t) : Uint128.add a b = Uint128.add b a.
Proof.
  unfold Uint128.add. rewrite (Z.add_comm (Uint128.low b)).
  rewrite (Z.add_comm (Uint128.high b)). reflexivity.
Qed.

Lemma add_assoc (a b c : Uint128.t) :
  Uint128.wf a -> Uint128.wf b -> Uint128.wf c ->
  Uint128.add (Uint128.add a b) c = Uint128.add a (Uint128.add b c).
Proof.
  intros Ha Hb Hc. apply toZ_inj; try apply add_wf.
  rewrite !add_toZ by (assumption || apply add_wf).
  rewrite Z.add_mod_idemp_l, Z.add_mod_idemp_r by lia. f_equal. lia.
Qed.

Lemma add_zero_r (a : Uint128.t) : Uint128.wf a -> Uint128.add a Uint128.zero = a.
Proof.
  intros Ha. apply toZ_inj; [apply add_wf|exact Ha|].
  rewrite add_toZ by (exact Ha || by_compute).
  change (Uint128.toZ Uint128.zero) with 0. rewrite Z.add_0_r.
  apply Z.mod_small, toZ_range, Ha.
Qed.

(** X2. Addition of well-formed values is commutative and associative, and
    [zero] is neutral. *)
Theorem uint128_add_commutative_associative (a b c : Uint128.t) :
  Uint128.wf a -> Uint128.wf b -> Uint128.wf c ->
  Uint128.add a b = Uint128.add b a /\
  Uint128.add (Uint128.add a b) c = Uint128.add a (Uint128.add b c) /\
  Uint128.add a Uint128.zero = a.
Proof.
  intros Ha Hb Hc. split; [apply add_comm|].
  split; [apply add_assoc; assumption|apply add_zero_r, Ha].
Qed.

(** X2 (instance). *)
Lemma uint128_add_commutative_associative_witness :
  Uint128.add (Uint128.add Uint128.max Uint128.one) Uint128.max
  = Uint128.add Uint128.max (Uint128.add Uint128.one Uint128.max).
Proof.
  assert (H1 : Uint128.wf Uint128.one) by by_compute.
  assert (H2 : Uint128.wf Uint128.max) by by_compute.
  exact (proj1 (proj2 (uint128_add_commutative_associative _ _ _ H2 H1 H2))).
Defined.

Lemma sub_add_cancel (a b : Uint128.t) :
  Uint128.wf a -> Uint128.wf b -> Uint128.sub (Uint128.add a b) b = a.
Proof.
  intros Ha Hb. apply toZ_inj; [apply sub_wf|exact Ha|].
  rewrite sub_toZ, add_toZ by (assumption || apply add_wf).
  rewrite Zminus_mod_idemp_l. replace (Uint128.toZ a + Uint128.toZ b - Uint128.toZ b)
    with (Uint128.toZ a) by lia.
  apply Z.mod_small, toZ_range, Ha.
Qed.

Lemma add_sub_cancel (a b : Uint128.t) :
  Uint128.wf a -> Uint128.wf b -> Uint128.add (Uint128.sub a b) b = a.
Proof.
  intros Ha Hb. apply toZ_inj; [apply add_wf|exact Ha|].
  rewrite add_toZ, sub_toZ by (assumption || apply sub_wf).
  rewrite Z.add_mod_idemp_l by lia.
  replace (Uint128.toZ a - Uint128.toZ b + Uint128.toZ b)
    with (Uint128.toZ a) by lia.
  apply Z.mod_small, toZ_range, Ha.
Qed.

Lemma incr_add_one (x : Uint128.t) : Uint128.incr x = Uint128.add x Uint128.one.
Proof.
  unfold Uint128.incr, Uint128.add.
  change (Uint128.low Uint128.one) with 1.
  change (Uint128.high Uint128.one) with 0.
  rewrite Z.add_0_r. unfold Uint128.new. rewrite !land_U64_MAX, !Z.mod_mod by lia.
  reflexivity.
Qed.

Lemma decr_sub_one (x : Uint128.t) : Uint128.decr x = Uint128.sub x Uint128.one.
Proof.
  unfold Uint128.decr, Uint128.sub.
  change (Uint128.low Uint128.one) with 1.
  change (Uint128.high Uint128.one) with 0.
  rewrite Z.sub_0_r. reflexivity.
Qed.

Lemma one_wf : Uint128.wf Uint128.one.
Proof. by_compute. Qed.

(** X3. On well-formed values subtraction undoes addition and addition
    undoes subtraction, also across the wrap; so do [decr] and [incr]. *)
Theorem uint128_sub_undoes_add (a b : Uint128.t) :
  Uint128.wf a -> Uint128.wf b ->
  Uint128.sub (Uint128.add a b) b = a /\
  Uint128.add (Uint128.sub a b) b = a /\
  Uint128.decr (Uint128.incr a) = a /\
  Uint128.incr (Uint128.decr a) = a.
Proof.
  intros Ha Hb.
  split; [apply sub_add_cancel; assumption|].
  split; [apply add_sub_cancel; assumption|].
  rewrite !incr_add_one, !decr_sub_one.
  split; [apply sub_add_cancel|apply add_sub_cancel]; (exact Ha || exact one_wf).
Qed.

(** X3 (instance). *)
Lemma uint128_sub_undoes_add_witness :
  Uint128.decr (Uint128.incr Uint128.max) = Uint128.max.
Proof.
  assert (H2 : Uint128.wf Uint128.max) by by_compute.
  exact (proj1 (proj2 (proj2 (uint128_sub_undoes_add _ _ H2 H2)))).
Defined.

Lemma byte_val_to_uint8 (z : Z) : byte_val (to_uint8 z) = z mod 256.
Proof.
  unfold to_uint8, byte_val.
  pose proof (Z.mod_pos_bound z 256 ltac:(lia)) as Hm.
  destruct (Byte.of_N (Z.to_N (z mod 256))) as [b|] eqn:E.
  - apply Byte.to_of_N in E. rewrite E, Z2N.id by lia. reflexivity.
  - apply Byte.of_N_None_iff in E. lia.
Qed.

(** The value of the [n] low-order bytes of [v]. *)
Lemma be_value_be_bytes (n : nat) (v : Z) :
  Buf.be_value (Buf.be_bytes n v) = v mod 256 ^ Z.of_nat n.
Proof.
  revert v. induction n as [|n IH]; intros v.
  - cbn. rewrite Z.mod_1_r. reflexivity.
  - cbn [Buf.be_bytes]. rewrite be_value_snoc, IH, byte_val_to_uint8.
    rewrite Nat2Z.inj_succ, Z.pow_succ_r by lia.
    rewrite (Z.rem_mul_r v 256 (256 ^ Z.of_nat n)) by lia. lia.
Qed.

Lemma be_value_be_bytes_small (n : nat) (v : Z) :
  0 <= v < 256 ^ Z.of_nat n -> Buf.be_value (Buf.be_bytes n v) = v.
Proof. intros H. rewrite be_value_be_bytes. apply Z.mod_small, H. Qed.

Lemma bytes_eq (x : Uint128.t) :
  Uint128.wf x ->
  Uint128.bytes x
  = Ok (Buf.be_bytes 8 (Uint128.high x) ++ Buf.be_bytes 8 (Uint128.low x)).
Proof.
  intros [Hl Hh]. unfold Uint128.bytes.
  rewrite writeBigUInt64BE_fits by (rewrite ?alloc_length; lia). cbn [bindR].
  rewrite writeBigUInt64BE_fits
    by (rewrite ?length_app, ?be_bytes_length, ?length_drop, ?alloc_length;
        cbn; lia).
  cbn [bindR]. reflexivity.
Qed.

Lemma makeUint128FromPayload_be_bytes (x : Uint128.t) :
  Uint128.wf x ->
  Uint128.makeUint128FromPayload
    (Some (Buf.be_bytes 8 (Uint128.high x) ++ Buf.be_bytes 8 (Uint128.low x)))
  = Ok x.
Proof.
  intros [Hl Hh].
  rewrite makeUint128FromPayload_16
    by (rewrite length_app, !be_bytes_length; reflexivity).
  rewrite take_app_length' by (rewrite be_bytes_length; reflexivity).
  rewrite drop_app_length' by (rewrite be_bytes_length; reflexivity).
  rewrite !be_value_be_bytes_small by (change (256 ^ Z.of_nat 8) with (2 ^ 64); lia).
  destruct x. reflexivity.
Qed.

(** X4. [bytes] of a well-formed value is its sixteen big-endian bytes, and
    building a Uint128 from them gives the value back. *)
Theorem uint128_from_bytes_of_value (x : Uint128.t) :
  Uint128.wf x ->
  exists b, Uint128.bytes x = Ok b /\ length b = 16%nat /\
            Buf.be_value b = Uint128.toZ x /\
            Uint128.fromBuffer (Some b) = Ok x.
Proof.
  intros Hx. eexists. split; [apply bytes_eq, Hx|].
  split; [rewrite length_app, !be_bytes_length; reflexivity|].
  split; [|apply makeUint128FromPayload_be_bytes, Hx].
  destruct Hx as [Hl Hh]. unfold Buf.be_value. rewrite fold_left_app.
  fold (Buf.be_value (Buf.be_bytes 8 (Uint128.high x))).
  rewrite be_value_be_bytes_small by (change (256 ^ Z.of_nat 8) with (2 ^ 64); lia).
  pose proof (be_value_be_bytes_small 8 (Uint128.low x)
                ltac:(change (256 ^ Z.of_nat 8) with (2 ^ 64); lia)) as El.
  unfold Uint128.toZ.
  assert (G : forall bs acc,
             fold_left (fun a b => a * 256 + byte_val b) bs acc
             = acc * 256 ^ Z.of_nat (length bs) + Buf.be_value bs).
  { induction bs as [|b0 bs IH] using rev_ind; intros acc.
    - cbn. unfold Buf.be_value. cbn. lia.
    - rewrite fold_left_app, be_value_snoc, length_app, Nat2Z.inj_add. cbn [fold_left length].
      rewrite IH, Z.pow_add_r by lia. change (256 ^ Z.of_nat 1) with 256. lia. }
  rewrite G, be_bytes_length, El. change (256 ^ Z.of_nat 8) with (2 ^ 64). reflexivity.
Qed.

(** X4 (instance). *)
Lemma uint128_from_bytes_of_value_witness :
  exists b, Uint128.bytes Uint128.max = Ok b /\ length b = 16%nat /\
            Buf.be_value b = Uint128.toZ Uint128.max /\
            Uint128.fromBuffer (Some b) = Ok Uint128.max.
Proof.
  assert (H2 : Uint128.wf Uint128.max) by by_compute.
  exact (uint128_from_bytes_of_value Uint128.max H2).
Defined.

Lemma ksuid_eq (x : Uint128.t) (ts : Z) :
  Uint128.wf x -> 0 <= ts <= 0xffffffff ->
  Uint128.ksuid x ts
  = Ok (Buf.be_bytes 4 ts ++ Buf.be_bytes 8 (Uint128.high x)
        ++ Buf.be_bytes 8 (Uint128.low x)).
Proof.
  intros [Hl Hh] Hts. unfold Uint128.ksuid.
  rewrite writeUInt32BE_fits by (rewrite ?alloc_length; lia). cbn [bindR].
  rewrite copy_at_fits by (rewrite be_bytes_length, alloc_length; lia).
  rewrite take_0, app_nil_l, be_bytes_length.
  rewrite writeBigUInt64BE_fits
    by (rewrite ?length_app, ?be_bytes_length, ?length_drop, ?alloc_length;
        cbn; lia).
  cbn [bindR].
  rewrite writeBigUInt64BE_fits
    by (rewrite ?length_app, ?length_take, ?length_drop, ?be_bytes_length,
          ?alloc_length; cbn; lia).
  cbn [bindR]. reflexivity.
Qed.

Lemma be_value_app (a b : Buffer) :
  Buf.be_value (a ++ b)
  = Buf.be_value a * 256 ^ Z.of_nat (length b) + Buf.be_value b.
Proof.
  induction b as [|x b IH] using rev_ind.
  - rewrite app_nil_r. change (Buf.be_value []) with 0.
    change (256 ^ Z.of_nat (length (@nil byte))) with 1. lia.
  - rewrite app_assoc, !be_value_snoc, IH, length_app, Nat2Z.inj_add.
    cbn [length]. rewrite Z.pow_add_r by lia. change (256 ^ Z.of_nat 1) with 256.
    lia.
Qed.

Lemma be_value_inj (a b : Buffer) :
  length a = length b -> Buf.be_value a = Buf.be_value b -> a = b.
Proof.
  intros Hl Hv. rewrite <- (be_bytes_be_value a), <- (be_bytes_be_value b).
  rewrite Hl, Hv. reflexivity.
Qed.

Lemma layout_value (ts : Z) (x : Uint128.t) :
  Uint128.wf x -> 0 <= ts <= 0xffffffff ->
  Buf.be_value (Buf.be_bytes 4 ts ++ Buf.be_bytes 8 (Uint128.high x)
                ++ Buf.be_bytes 8 (Uint128.low x))
  = ts * 2 ^ 128 + Uint128.toZ x.
Proof.
  intros [Hl Hh] Hts. rewrite !be_value_app, !length_app, !be_bytes_length.
  rewrite !be_value_be_bytes_small
    by (change (256 ^ Z.of_nat 8) with (2 ^ 64);
        change (256 ^ Z.of_nat 4) with (2 ^ 32); lia).
  unfold Uint128.toZ. change (256 ^ Z.of_nat (8 + 8)) with (2 ^ 128).
  change (256 ^ Z.of_nat 8) with (2 ^ 64). lia.
Qed.

(** X5. For a well-formed value, [ksuid] succeeds exactly for a timestamp
    within 32 bits; its twenty bytes read back as that timestamp and that
    payload, and stand for [timestamp * 2^128 + value].  Any other timestamp
    raises the RangeError of the buffer write. *)
Theorem uint128_ksuid_layout (x : Uint128.t) (ts : Z) :
  Uint128.wf x ->
  (0 <= ts <= 0xffffffff ->
   exists b, Uint128.ksuid x ts = Ok b /\ length b = 20%nat /\
             Buf.readUInt32BE b 0 = Ok ts /\
             Uint128.uint128Payload b = Ok x /\
             Buf.be_value b = ts * 2 ^ 128 + Uint128.toZ x) /\
  (ts < 0 \/ 0xffffffff < ts -> Uint128.ksuid x ts = Err RangeError).
Proof.
  intros Hx. split.
  - intros Hts. eexists. split; [apply ksuid_eq; assumption|].
    split; [rewrite !length_app, !be_bytes_length; reflexivity|].
    split; [|split; [|apply layout_value; assumption]].
    + unfold Buf.readUInt32BE. rewrite !length_app, !be_bytes_length.
      cbn [Nat.add Nat.leb]. f_equal. rewrite drop_0.
      rewrite take_app_length' by (rewrite be_bytes_length; reflexivity).
      apply be_value_be_bytes_small. change (256 ^ Z.of_nat 4) with (2 ^ 32). lia.
    + unfold Uint128.uint128Payload, Buf.subarray.
      rewrite drop_app_length' by (rewrite be_bytes_length; reflexivity).
      rewrite take_ge by (rewrite length_app, !be_bytes_length; cbn; lia).
      apply makeUint128FromPayload_be_bytes, Hx.
  - intros Hts. unfold Uint128.ksuid, Buf.writeUInt32BE.
    destruct Hts as [Hts|Hts].
    + destruct (Z.ltb_spec ts 0); [reflexivity|lia].
    + destruct (Z.ltb_spec 4294967295 ts); [|lia].
      rewrite orb_true_r. reflexivity.
Qed.

(** X5 (instance). *)
Lemma uint128_ksuid_layout_witness :
  Uint128.ksuid Uint128.max 4294967296 = Err RangeError.
Proof.
  assert (H2 : Uint128.wf Uint128.max) by by_compute.
  apply (proj2 (uint128_ksuid_layout Uint128.max 4294967296 H2)). right. lia.
Defined.

(** ** Identifiers *)

(** A well-formed identifier is a 32-bit timestamp followed by a well-formed
    payload. *)
Lemma ksuid_decompose (k : KSUID.t) :
  KSUID.wf k ->
  exists ts x,
    0 <= ts <= 0xffffffff /\ Uint128.wf x /\
    KSUID.timestamp k = Ok ts /\
    Uint128.uint128Payload (KSUID.buffer k) = Ok x /\
    KSUID.buffer k = Buf.be_bytes 4 ts ++ Buf.be_bytes 8 (Uint128.high x)
                     ++ Buf.be_bytes 8 (Uint128.low x) /\
    value k = ts * 2 ^ 128 + Uint128.toZ x.
Proof.
  destruct k as [b]. unfold KSUID.wf, KSUID.timestamp, value. cbn [KSUID.buffer].
  intros Hlen. change KSUID.KSUID_LENGTH with 20%nat in Hlen.
  set (t4 := take 4 b). set (h8 := take 8 (drop 4 b)). set (l8 := drop 12 b).
  assert (Hb : b = t4 ++ h8 ++ l8).
  { subst t4 h8 l8. rewrite <- (take_drop 4 b) at 1. f_equal.
    rewrite <- (take_drop 8 (drop 4 b)) at 1. f_equal.
    rewrite drop_drop. reflexivity. }
  assert (L4 : length t4 = 4%nat) by (subst t4; rewrite length_take; lia).
  assert (L8 : length h8 = 8%nat)
    by (subst h8; rewrite length_take, length_drop; lia).
  assert (L8' : length l8 = 8%nat) by (subst l8; rewrite length_drop; lia).
  pose proof (be_value_range t4) as R4. rewrite L4 in R4.
  pose proof (be_value_range h8) as Rh. rewrite L8 in Rh.
  pose proof (be_value_range l8) as Rl. rewrite L8' in Rl.
  change (256 ^ Z.of_nat 4) with (2 ^ 32) in R4.
  change (256 ^ Z.of_nat 8) with (2 ^ 64) in Rh, Rl.
  exists (Buf.be_value t4), (Uint128.mk (Buf.be_value l8) (Buf.be_value h8)).
  assert (Hwf : Uint128.wf (Uint128.mk (Buf.be_value l8) (Buf.be_value h8)))
    by (split; assumption).
  split; [lia|]. split; [exact Hwf|].
  assert (E4 : Buf.be_bytes 4 (Buf.be_value t4) = t4)
    by (rewrite <- L4 at 1; apply be_bytes_be_value).
  assert (Eh : Buf.be_bytes 8 (Buf.be_value h8) = h8)
    by (rewrite <- L8 at 1; apply be_bytes_be_value).
  assert (El : Buf.be_bytes 8 (Buf.be_value l8) = l8)
    by (rewrite <- L8' at 1; apply be_bytes_be_value).
  assert (Hlay : b = Buf.be_bytes 4 (Buf.be_value t4)
                     ++ Buf.be_bytes 8 (Buf.be_value h8)
                     ++ Buf.be_bytes 8 (Buf.be_value l8))
    by (rewrite E4, Eh, El; exact Hb).
  split; [|split; [|split; [exact Hlay|]]].
  - unfold Buf.readUInt32BE. rewrite Hlen. reflexivity.
  - unfold Uint128.uint128Payload, Buf.subarray.
    rewrite makeUint128FromPayload_16 by (rewrite length_take, length_drop; lia).
    rewrite (take_ge (drop 4 b)) by (rewrite length_drop; lia).
    rewrite drop_drop. reflexivity.
  - rewrite Hlay at 1.
    exact (layout_value (Buf.be_value t4)
             (Uint128.mk (Buf.be_value l8) (Buf.be_value h8)) Hwf ltac:(lia)).
Qed.

(** X6. [fromParts] rejects a timestamp outside 32 bits with the invalid
    timestamp error, then a payload that is not 16 bytes long with the
    invalid buffer length error; otherwise it returns the identifier whose
    bytes are the timestamp followed by the payload, and [timestamp] and
    [payload] give the two parts back. *)
Theorem ksuid_fromParts_roundtrip (ts : Z) (p : Buffer) :
  (ts < 0 \/ 0xffffffff < ts ->
   KSUID.fromParts ts (Some p) = Err (Thrown invalidTimestamp)) /\
  (0 <= ts <= 0xffffffff -> length p <> 16%nat ->
   KSUID.fromParts ts (Some p) = Err (Thrown invalidBufferLength)) /\
  (0 <= ts <= 0xffffffff -> length p = 16%nat ->
   exists k, KSUID.fromParts ts (Some p) = Ok k /\ KSUID.wf k /\
             KSUID.toBuffer k = Buf.be_bytes 4 ts ++ p /\
             KSUID.timestamp k = Ok ts /\ KSUID.payload k = p).
Proof.
  unfold KSUID.fromParts. split; [|split].
  - intros [H|H].
    + destruct (Z.ltb_spec ts 0); [reflexivity|lia].
    + destruct (Z.ltb_spec 4294967295 ts); [|lia]. rewrite orb_true_r. reflexivity.
  - intros Hts Hp. destruct (Z.ltb_spec ts 0); [lia|].
    destruct (Z.ltb_spec 4294967295 ts); [lia|]. cbn [orb].
    destruct (Nat.eqb_spec (length p) KSUID.PAYLOAD_LENGTH); [contradiction|].
    reflexivity.
  - intros Hts Hp. destruct (Z.ltb_spec ts 0); [lia|].
    destruct (Z.ltb_spec 4294967295 ts); [lia|]. cbn [orb].
    rewrite Hp. cbn [Nat.eqb KSUID.PAYLOAD_LENGTH negb].
    rewrite writeUInt32BE_fits by (rewrite ?alloc_length; cbn; lia). cbn [bindR].
    assert (E : Buf.copy_at p (Buf.copy_at (Buf.be_bytes 4 ts)
                  (Buf.alloc KSUID.KSUID_LENGTH) 0) KSUID.TIMESTAMP_LENGTH
                = Buf.be_bytes 4 ts ++ p).
    { rewrite (copy_at_fits (Buf.be_bytes 4 ts))
        by (rewrite be_bytes_length, alloc_length; cbn; lia).
      rewrite take_0, app_nil_l, be_bytes_length.
      rewrite copy_at_fits
        by (rewrite length_app, be_bytes_length, length_drop, alloc_length, Hp;
            cbn; lia).
      rewrite take_app_length' by (rewrite be_bytes_length; reflexivity).
      rewrite drop_ge
        by (rewrite length_app, be_bytes_length, length_drop, alloc_length, Hp;
            cbn; lia).
      rewrite app_nil_r. reflexivity. }
    rewrite E. unfold KSUID.new.
    assert (L : length (Buf.be_bytes 4 ts ++ p) = 20%nat)
      by (rewrite length_app, be_bytes_length, Hp; reflexivity).
    rewrite L. cbn [Nat.eqb KSUID.KSUID_LENGTH KSUID.TIMESTAMP_LENGTH
                      KSUID.PAYLOAD_LENGTH Nat.add negb].
    eexists. split; [reflexivity|]. split; [exact L|]. split; [reflexivity|].
    split.
    + unfold KSUID.timestamp, Buf.readUInt32BE. cbn [KSUID.buffer]. rewrite L.
      cbn [Nat.add Nat.leb]. f_equal. rewrite drop_0.
      rewrite take_app_length' by (rewrite be_bytes_length; reflexivity).
      apply be_value_be_bytes_small. change (256 ^ Z.of_nat 4) with (2 ^ 32). lia.
    + unfold KSUID.payload, Buf.subarray. cbn [KSUID.buffer]. rewrite L.
      rewrite drop_app_length' by (rewrite be_bytes_length; reflexivity).
      apply take_ge. rewrite Hp. cbn. lia.
Qed.

Lemma be_value_cons (x : byte) (a : Buffer) :
  Buf.be_value (x :: a)
  = byte_val x * 256 ^ Z.of_nat (length a) + Buf.be_value a.
Proof.
  change (x :: a) with ([x] ++ a). rewrite be_value_app.
  f_equal; unfold Buf.be_value; cbn; lia.
Qed.

(** On buffers of one length the byte order is the order of the values. *)
Lemma compare_be_value (a b : Buffer) :
  length a = length b ->
  Buf.compare a b
  = match Buf.be_value a ?= Buf.be_value b with Lt => -1 | Eq => 0 | Gt => 1 end.
Proof.
  revert b. induction a as [|x a IH]; intros [|y b] Hlen; try discriminate.
  - reflexivity.
  - cbn [Buf.compare]. injection Hlen as Hlen. rewrite !be_value_cons, <- Hlen.
    pose proof (be_value_range a) as Ra. pose proof (be_value_range b) as Rb.
    rewrite <- Hlen in Rb.
    pose proof (byte_val_range x) as Rx. pose proof (byte_val_range y) as Ry.
    set (P := 256 ^ Z.of_nat (length a)) in *.
    destruct (Z.ltb_spec (byte_val x) (byte_val y)) as [Hxy|Hxy].
    { assert (H : byte_val x * P + Buf.be_value a < byte_val y * P + Buf.be_value b)
        by nia.
      apply Z.compare_lt_iff in H. rewrite H. reflexivity. }
    destruct (Z.ltb_spec (byte_val y) (byte_val x)) as [Hyx|Hyx].
    { assert (H : byte_val y * P + Buf.be_value b < byte_val x * P + Buf.be_value a)
        by nia.
      apply Z.compare_gt_iff in H. rewrite H. reflexivity. }
    assert (E : byte_val x = byte_val y) by lia. rewrite E, IH by exact Hlen.
    rewrite Z.add_compare_mono_l. reflexivity.
Qed.

Lemma buf_equals_iff (a b : Buffer) : Buf.equals a b = true <-> a = b.
Proof.
  revert b. induction a as [|x a IH]; intros [|y b]; cbn [Buf.equals];
    try (split; [discriminate|intros H; discriminate H]).
  - split; reflexivity.
  - rewrite andb_true_iff, IH. split.
    + intros [Hxy ->]. apply Byte.byte_dec_bl in Hxy. subst. reflexivity.
    + intros [= -> ->]. split; [apply Byte.byte_dec_lb|]; reflexivity.
Qed.

Lemma value_inj (a b : KSUID.t) :
  KSUID.wf a -> KSUID.wf b -> value a = value b -> a = b.
Proof.
  destruct a as [a], b as [b]. unfold KSUID.wf, value. cbn [KSUID.buffer].
  intros Ha Hb E. f_equal. apply be_value_inj; [congruence|exact E].
Qed.

(** X7. On well-formed identifiers [compare] is the order of the 160-bit
    numbers, so it returns 0 exactly for equal identifiers, is antisymmetric,
    and orders by timestamp first; [isNil] holds exactly for [nil]. *)
Theorem ksuid_compare_is_value_order (a b : KSUID.t) :
  KSUID.wf a -> KSUID.wf b ->
  KSUID.compare a b
  = match value a ?= value b with Lt => -1 | Eq => 0 | Gt => 1 end /\
  (KSUID.compare a b = 0 <-> a = b) /\
  KSUID.compare b a = - KSUID.compare a b /\
  (forall ta tb, KSUID.timestamp a = Ok ta -> KSUID.timestamp b = Ok tb ->
                 ta < tb -> KSUID.compare a b = -1) /\
  (KSUID.isNil a = true <-> a = KSUID.nil).
Proof.
  intros Ha Hb.
  assert (Hc : forall x y, KSUID.wf x -> KSUID.wf y ->
             KSUID.compare x y
             = match value x ?= value y with Lt => -1 | Eq => 0 | Gt => 1 end).
  { intros x y Hx Hy. unfold KSUID.compare, value. apply compare_be_value.
    unfold KSUID.wf in *. congruence. }
  split; [apply Hc; assumption|]. split; [|split; [|split]].
  - rewrite Hc by assumption. split.
    + destruct (Z.compare_spec (value a) (value b)) as [E|E|E]; try discriminate.
      intros _. apply value_inj; assumption.
    + intros ->. rewrite Z.compare_refl. reflexivity.
  - rewrite !Hc by assumption. rewrite (Z.compare_antisym (value a) (value b)).
    destruct (value a ?= value b); reflexivity.
  - intros ta tb Hta Htb Hlt. rewrite Hc by assumption.
    destruct (ksuid_decompose a Ha) as (ta' & xa & Rta & Wa & Ta & _ & _ & Va).
    destruct (ksuid_decompose b Hb) as (tb' & xb & Rtb & Wb & Tb & _ & _ & Vb).
    assert (ta' = ta) by congruence. assert (tb' = tb) by congruence. subst.
    pose proof (toZ_range xa Wa). pose proof (toZ_range xb Wb).
    assert (Hv : value a < value b) by (rewrite Va, Vb; nia).
    apply Z.compare_lt_iff in Hv. rewrite Hv. reflexivity.
  - unfold KSUID.isNil, KSUID.nil. destruct a as [ba]. cbn [KSUID.buffer].
    rewrite buf_equals_iff. split; [intros ->|intros [= ->]]; reflexivity.
Qed.

(** X7 (instance). *)
Lemma ksuid_compare_is_value_order_witness :
  KSUID.compare (ident 100 7) (ident 100 5) = 1.
Proof.
  assert (H1 : KSUID.wf (ident 100 7)) by reflexivity.
  assert (H2 : KSUID.wf (ident 100 5)) by reflexivity.
  rewrite (proj1 (ksuid_compare_is_value_order _ _ H1 H2)). reflexivity.
Defined.

Lemma round53_small (z : Z) : - 2 ^ 53 < z < 2 ^ 53 -> JS.round53 z = z.
Proof.
  intros Hz. unfold JS.round53.
  destruct (Z.leb_spec (Z.log2 (Z.abs z) + 1) 53) as [H|H]; [reflexivity|].
  exfalso. destruct (Z.eq_dec (Z.abs z) 0) as [E|E].
  - rewrite E in H. cbn in H. lia.
  - assert (Z.log2 (Z.abs z) < 53) by (apply Z.log2_lt_pow2; lia). lia.
Qed.

Lemma assemble_wf (ts : Z) (x : Uint128.t) : KSUID.wf (assemble ts x).
Proof.
  unfold KSUID.wf, assemble. cbn [KSUID.buffer].
  rewrite !length_app, !be_bytes_length. reflexivity.
Qed.

Lemma assemble_value (ts : Z) (x : Uint128.t) :
  Uint128.wf x -> 0 <= ts <= 0xffffffff ->
  value (assemble ts x) = ts * 2 ^ 128 + Uint128.toZ x.
Proof. intros Hx Hts. apply layout_value; assumption. Qed.

Lemma materialise (ts : Z) (x : Uint128.t) :
  Uint128.wf x -> 0 <= ts <= 0xffffffff ->
  (let? b := Uint128.ksuid x ts in KSUID.fromBytes (Some b))
  = Ok (assemble ts x).
Proof.
  intros Hx Hts. rewrite ksuid_eq by assumption. cbn [bindR].
  apply fromBytes_20. rewrite !length_app, !be_bytes_length. reflexivity.
Qed.

Lemma decompose_assemble (k : KSUID.t) :
  KSUID.wf k ->
  exists ts x,
    0 <= ts <= 0xffffffff /\ Uint128.wf x /\
    KSUID.timestamp k = Ok ts /\
    Uint128.uint128Payload (KSUID.buffer k) = Ok x /\
    k = assemble ts x.
Proof.
  intros Hk. destruct (ksuid_decompose k Hk) as (ts & x & Hts & Hx & T & P & B & _).
  exists ts, x. repeat (split; [assumption|]).
  destruct k as [b]. cbn [KSUID.buffer] in B. unfold assemble. congruence.
Qed.

Lemma next_assemble (ts : Z) (x : Uint128.t) :
  Uint128.wf x -> 0 <= ts <= 0xffffffff ->
  KSUID.next (assemble ts x)
  = if Uint128.toZ x =? 2 ^ 128 - 1 then
      if ts =? 0xffffffff then Err RangeError
      else Ok (assemble (ts + 1) Uint128.zero)
    else Ok (assemble ts (Uint128.add x Uint128.one)).
Proof.
  intros Hx Hts.
  destruct (ksuid_decompose (assemble ts x) (assemble_wf ts x))
    as (ts' & x' & Hts' & Hx' & T & P & _ & V).
  rewrite assemble_value in V by assumption.
  pose proof (toZ_range x Hx) as Rx. pose proof (toZ_range x' Hx') as Rx'.
  assert (ts' = ts) by nia. subst ts'.
  assert (x' = x) by (apply toZ_inj; [assumption..|lia]). subst x'.
  unfold KSUID.next. rewrite T. cbn [bindR]. rewrite P. cbn [bindR].
  pose proof (add_wf x Uint128.one) as Hw.
  pose proof (add_toZ x Uint128.one Hx one_wf) as Hs.
  change (Uint128.toZ Uint128.one) with 1 in Hs.
  destruct (Z.eqb_spec (Uint128.toZ x) (2 ^ 128 - 1)) as [E|E].
  - assert (Hz : Uint128.add x Uint128.one = Uint128.zero).
    { apply toZ_inj; [exact Hw|by_compute|]. rewrite Hs, E.
      vm_compute. reflexivity. }
    rewrite Hz. change (Uint128.isZero Uint128.zero) with true. cbv iota.
    unfold JS.add. rewrite round53_small by lia.
    destruct (Z.eqb_spec ts 4294967295) as [Et|Et].
    + subst ts. reflexivity.
    + apply materialise; [by_compute|lia].
  - assert (Hnz : Uint128.isZero (Uint128.add x Uint128.one) = false).
    { apply not_true_is_false. intros Hz.
      destruct (Uint128.add x Uint128.one) as [l h] eqn:Ea.
      unfold Uint128.isZero in Hz. cbn [Uint128.low Uint128.high] in Hz.
      apply andb_true_iff in Hz as [Hl Hh]. apply Z.eqb_eq in Hl, Hh. subst.
      unfold Uint128.toZ in Hs at 1. cbn [Uint128.low Uint128.high] in Hs.
      assert (Hmod : (Uint128.toZ x + 1) mod 2 ^ 128 = Uint128.toZ x + 1)
        by (apply Z.mod_small; lia).
      lia. }
    rewrite Hnz. apply materialise; assumption.
Qed.

Lemma prev_assemble (ts : Z) (x : Uint128.t) :
  Uint128.wf x -> 0 <= ts <= 0xffffffff ->
  KSUID.prev (assemble ts x)
  = if Uint128.toZ x =? 0 then
      Ok (assemble (if ts =? 0 then 0xffffffff else ts - 1) Uint128.max)
    else Ok (assemble ts (Uint128.sub x Uint128.one)).
Proof.
  intros Hx Hts.
  destruct (ksuid_decompose (assemble ts x) (assemble_wf ts x))
    as (ts' & x' & Hts' & Hx' & T & P & _ & V).
  rewrite assemble_value in V by assumption.
  pose proof (toZ_range x Hx) as Rx. pose proof (toZ_range x' Hx') as Rx'.
  assert (ts' = ts) by nia. subst ts'.
  assert (x' = x) by (apply toZ_inj; [assumption..|lia]). subst x'.
  unfold KSUID.prev. rewrite T. cbn [bindR]. rewrite P. cbn [bindR].
  pose proof (sub_wf x Uint128.one) as Hw.
  pose proof (sub_toZ x Uint128.one Hx one_wf) as Hs.
  change (Uint128.toZ Uint128.one) with 1 in Hs.
  assert (Hmax : Uint128.wf Uint128.max) by by_compute.
  destruct (Z.eqb_spec (Uint128.toZ x) 0) as [E|E].
  - assert (Hz : Uint128.sub x Uint128.one = Uint128.max).
    { apply toZ_inj; [exact Hw|exact Hmax|]. rewrite Hs, E.
      vm_compute. reflexivity. }
    rewrite Hz. change (Uint128.equals Uint128.max Uint128.max) with true.
    cbv iota. unfold JS.sub. rewrite round53_small by lia.
    destruct (Z.eqb_spec ts 0) as [Et|Et].
    + subst ts. cbn [Z.sub Z.add Z.opp Z.ltb Z.compare Z.pos_sub].
      apply materialise; [exact Hmax|lia].
    + destruct (Z.ltb_spec (ts - 1) 0); [lia|].
      apply materialise; [exact Hmax|lia].
  - assert (Hnz : Uint128.equals (Uint128.sub x Uint128.one) Uint128.max = false).
    { apply not_true_is_false. intros Hz. apply equals_true in Hz.
      rewrite Hz in Hs. change (Uint128.toZ Uint128.max) with (2 ^ 128 - 1) in Hs.
      assert (Hmod : (Uint128.toZ x - 1) mod 2 ^ 128 = Uint128.toZ x - 1)
        by (apply Z.mod_small; lia).
      lia. }
    rewrite Hnz. apply materialise; assumption.
Qed.

(** X8. For a well-formed identifier below the largest one, [next] returns
    the identifier whose 160-bit number is one more, and [prev] of that is
    the identifier itself; on the largest identifier [next] raises the
    RangeError of the timestamp write.  [prev] never fails and returns the
    identifier whose number is one less modulo 2^160. *)
Theorem ksuid_next_prev (k : KSUID.t) :
  KSUID.wf k ->
  (value k < 2 ^ 160 - 1 ->
   exists k', KSUID.next k = Ok k' /\ KSUID.wf k' /\
              value k' = value k + 1 /\ KSUID.prev k' = Ok k) /\
  (value k = 2 ^ 160 - 1 -> KSUID.next k = Err RangeError) /\
  (exists k', KSUID.prev k = Ok k' /\ KSUID.wf k' /\
              value k' = (value k - 1) mod 2 ^ 160).
Proof.
  intros Hk.
  destruct (decompose_assemble k Hk) as (ts & x & Hts & Hx & _ & _ & ->).
  pose proof (toZ_range x Hx) as Rx.
  assert (Hmax : Uint128.wf Uint128.max) by by_compute.
  assert (Hzero : Uint128.wf Uint128.zero) by by_compute.
  rewrite (assemble_value ts x Hx Hts).
  rewrite next_assemble, prev_assemble by assumption.
  change (2 ^ 160) with (2 ^ 32 * 2 ^ 128).
  split; [|split].
  - intros Hlt. destruct (Z.eqb_spec (Uint128.toZ x) (2 ^ 128 - 1)) as [E|E].
    + destruct (Z.eqb_spec ts 4294967295) as [Et|Et]; [lia|].
      eexists. split; [reflexivity|]. split; [apply assemble_wf|].
      split.
      * rewrite assemble_value by (assumption || lia).
        change (Uint128.toZ Uint128.zero) with 0. lia.
      * rewrite prev_assemble by (assumption || lia).
        change (Uint128.toZ Uint128.zero =? 0) with true. cbv iota.
        destruct (Z.eqb_spec (ts + 1) 0); [lia|].
        replace (ts + 1 - 1) with ts by lia.
        replace Uint128.max with x; [reflexivity|].
        apply toZ_inj; [assumption..|]. rewrite E. reflexivity.
    + pose proof (add_toZ x Uint128.one Hx one_wf) as Hs.
      change (Uint128.toZ Uint128.one) with 1 in Hs.
      rewrite Z.mod_small in Hs by lia.
      eexists. split; [reflexivity|]. split; [apply assemble_wf|].
      split.
      * rewrite assemble_value by (apply add_wf || assumption). lia.
      * rewrite prev_assemble by (apply add_wf || assumption).
        destruct (Z.eqb_spec (Uint128.toZ (Uint128.add x Uint128.one)) 0); [lia|].
        rewrite sub_add_cancel by (assumption || exact one_wf). reflexivity.
  - intros Heq.
    destruct (Z.eqb_spec (Uint128.toZ x) (2 ^ 128 - 1)) as [E|E]; [|lia].
    destruct (Z.eqb_spec ts 4294967295) as [Et|Et]; [reflexivity|lia].
  - destruct (Z.eqb_spec (Uint128.toZ x) 0) as [E|E].
    + eexists. split; [reflexivity|]. split; [apply assemble_wf|].
      change (Uint128.toZ Uint128.max) with (2 ^ 128 - 1) in *.
      destruct (Z.eqb_spec ts 0) as [Et|Et].
      * rewrite assemble_value by (assumption || lia). subst ts. rewrite E.
        vm_compute. reflexivity.
      * rewrite assemble_value by (assumption || lia).
        change (Uint128.toZ Uint128.max) with (2 ^ 128 - 1).
        rewrite Z.mod_small by lia. lia.
    + pose proof (sub_toZ x Uint128.one Hx one_wf) as Hs.
      change (Uint128.toZ Uint128.one) with 1 in Hs.
      rewrite Z.mod_small in Hs by lia.
      eexists. split; [reflexivity|]. split; [apply assemble_wf|].
      rewrite assemble_value by (apply sub_wf || assumption).
      rewrite Z.mod_small by nia. lia.
Qed.

(** X8 (instance). *)
Lemma ksuid_next_prev_witness :
  KSUID.next (ident 4294967295 (2 ^ 128 - 1)) = Err RangeError.
Proof.
  assert (H1 : KSUID.wf (ident 4294967295 (2 ^ 128 - 1))) by reflexivity.
  apply (proj1 (proj2 (ksuid_next_prev _ H1))). vm_compute. reflexivity.
Defined.

(** ** Base62 *)

Lemma append_cons (x : Ascii.ascii) (a b : string) :
  String.append (String x a) b = String x (String.append a b).
Proof. reflexivity. Qed.

Lemma append_nil_l (a : string) : String.append EmptyString a = a.
Proof. reflexivity. Qed.

Lemma append_assoc (a b c : string) :
  String.append (String.append a b) c = String.append a (String.append b c).
Proof.
  induction a as [|x a IH]; [reflexivity|].
  rewrite !append_cons, IH. reflexivity.
Qed.

Lemma append_nil_r (a : string) : String.append a EmptyString = a.
Proof.
  induction a as [|x a IH]; [reflexivity|].
  rewrite append_cons, IH. reflexivity.
Qed.

Lemma length_append (a b : string) :
  String.length (String.append a b) = (String.length a + String.length b)%nat.
Proof.
  induction a as [|x a IH]; [reflexivity|].
  rewrite append_cons. cbn [String.length]. rewrite IH. reflexivity.
Qed.

Lemma zeros_S (n : nat) : zeros (S n) = String (Ascii.ascii_of_nat 48) (zeros n).
Proof. destruct n; reflexivity. Qed.

Lemma zeros_length (n : nat) : String.length (zeros n) = n.
Proof.
  induction n as [|n IH]; [reflexivity|]. rewrite zeros_S.
  cbn [String.length]. rewrite IH. reflexivity.
Qed.

Lemma padStart0_eq (s : string) (n : nat) :
  Base62.padStart0 s n = String.append (zeros (n - String.length s)) s.
Proof. reflexivity. Qed.

(** Every digit has its character, and [CHAR_MAP] maps it back. *)
Lemma char_of_digit (n : nat) :
  (n < 62)%nat ->
  exists c, String.get n Base62.BASE62_ALPHABET = Some c
            /\ Base62.CHAR_MAP !! c = Some (Z.of_nat n).
Proof.
  intros Hn.
  do 62 (destruct n as [|n];
         [eexists; split; [reflexivity|vm_compute; reflexivity]|]).
  lia.
Qed.

Lemma encode_loop_decode (fuel : nat) (num : Z) (acc r : string) :
  0 <= num ->
  Base62.encode_loop fuel num acc = Ok r ->
  Base62.decode_loop r 0 = Base62.decode_loop acc num.
Proof.
  revert num acc. induction fuel as [|fuel IH]; intros num acc Hnum;
    cbn [Base62.encode_loop]; destruct (Z.ltb_spec 0 num) as [Hpos|Hz];
    try discriminate.
  - intros [= <-]. replace num with 0 by lia. reflexivity.
  - unfold Base62.BASE.
    pose proof (Z.mod_pos_bound num 62 ltac:(lia)) as Hm.
    destruct (char_of_digit (Z.to_nat (num mod 62)) ltac:(lia)) as (c & Hg & Hc).
    rewrite Hg, append_cons, append_nil_l. intros H.
    apply IH in H; [|apply Z.div_pos; lia]. rewrite H.
    cbn [Base62.decode_loop]. rewrite Hc. f_equal. unfold Base62.BASE.
    rewrite Z2Nat.id by lia. pose proof (Z.div_mod num 62 ltac:(lia)). lia.
  - intros [= <-]. replace num with 0 by lia. reflexivity.
Qed.

Lemma encode_loop_length (fuel : nat) (num : Z) (acc r : string) (k : nat) :
  0 <= num < 62 ^ Z.of_nat k ->
  Base62.encode_loop fuel num acc = Ok r ->
  (String.length acc <= String.length r <= String.length acc + k)%nat.
Proof.
  revert num acc k. induction fuel as [|fuel IH]; intros num acc k Hnum;
    cbn [Base62.encode_loop]; destruct (Z.ltb_spec 0 num) as [Hpos|Hz];
    try discriminate; try (intros [= <-]; lia).
  unfold Base62.BASE.
  pose proof (Z.mod_pos_bound num 62 ltac:(lia)) as Hm.
  destruct (char_of_digit (Z.to_nat (num mod 62)) ltac:(lia)) as (c & Hg & Hc).
  rewrite Hg, append_cons, append_nil_l. intros H.
  destruct k as [|k]; [cbn in Hnum; lia|].
  apply (IH _ _ k) in H.
  - cbn [String.length] in H. lia.
  - rewrite Nat2Z.inj_succ, Z.pow_succ_r in Hnum by lia.
    split; [apply Z.div_pos; lia|apply Z.div_lt_upper_bound; lia].
Qed.

Lemma decode_loop_zeros (n : nat) (s : string) :
  Base62.decode_loop (String.append (zeros n) s) 0 = Base62.decode_loop s 0.
Proof.
  induction n as [|n IH]; [reflexivity|]. rewrite zeros_S, append_cons.
  cbn [Base62.decode_loop].
  change (Base62.CHAR_MAP !! Ascii.ascii_of_nat 48) with (Some 0). exact IH.
Qed.

(** What [encode] returns for twenty bytes: 27 characters that [decode]'s
    loop reads back as the value of the bytes. *)
Lemma encode_20 (b : Buffer) :
  length b = 20%nat ->
  exists s, Base62.encode (Some b) = Ok s /\ String.length s = 27%nat
            /\ Base62.decode_loop s 0 = Ok (Buf.be_value b).
Proof.
  intros Hlen. unfold Base62.encode. rewrite Hlen.
  cbn [Nat.eqb Base62.KSUID_BYTE_LENGTH negb].
  pose proof (be_value_range b) as Hr. rewrite Hlen in Hr.
  destruct (Z.eqb_spec (Buf.be_value b) 0) as [E|E].
  - rewrite E. eexists. split; [reflexivity|]. split; reflexivity.
  - destruct (encode_loop_enough (8 * 20) (Buf.be_value b) EmptyString)
      as [r Hrr].
    { change (2 ^ Z.of_nat (8 * 20)) with (256 ^ Z.of_nat 20). lia. }
    rewrite Hrr. cbn [bindR]. eexists. split; [reflexivity|].
    assert (H27 : 0 <= Buf.be_value b < 62 ^ Z.of_nat 27).
    { split; [lia|]. eapply Z.lt_le_trans; [exact (proj2 Hr)|].
      vm_compute. discriminate. }
    pose proof (encode_loop_length _ _ _ _ 27%nat H27 Hrr) as Hl.
    cbn [String.length] in Hl.
    rewrite padStart0_eq. split.
    + rewrite length_append, zeros_length. unfold Base62.ENCODED_STRING_LENGTH. lia.
    + rewrite decode_loop_zeros.
      rewrite (encode_loop_decode _ _ _ _ (proj1 H27) Hrr). reflexivity.
Qed.

Lemma hexdigit_hexval (d : Z) :
  0 <= d < 16 ->
  exists c, hexdigit d = String c EmptyString /\ Base62.hexval c = Some d.
Proof.
  intros Hd. assert (E : d = Z.of_nat (Z.to_nat d)) by lia.
  assert (Hn : (Z.to_nat d < 16)%nat) by lia. rewrite E.
  generalize dependent (Z.to_nat d). intros n _ Hn.
  do 16 (destruct n as [|n]; [eexists; split; reflexivity|]). lia.
Qed.

Lemma zeros_snoc (n : nat) :
  String.append (zeros n) (String (Ascii.ascii_of_nat 48) EmptyString)
  = zeros (S n).
Proof.
  induction n as [|n IH]; [reflexivity|].
  rewrite (zeros_S (S n)). rewrite (zeros_S n) at 1.
  rewrite append_cons, IH. reflexivity.
Qed.

Lemma hexfix_zero (k : nat) : hexfix k 0 = zeros k.
Proof.
  induction k as [|k IH]; [reflexivity|]. cbn [hexfix].
  change (0 / 16) with 0. change (0 mod 16) with 0. rewrite IH.
  exact (zeros_snoc k).
Qed.

(** [toString(16)] padded to [k] digits is the fixed-width form. *)
Lemma toString16_loop_hexfix (fuel k : nat) (num : Z) (acc : string) :
  0 <= num < 16 ^ Z.of_nat k -> num < 2 ^ Z.of_nat fuel ->
  let r := Base62.toString16_loop fuel num acc in
  (String.length acc <= String.length r <= String.length acc + k)%nat /\
  String.append (zeros (k + String.length acc - String.length r)) r
  = String.append (hexfix k num) acc.
Proof.
  revert k num acc. induction fuel as [|fuel IH]; intros k num acc Hk Hf;
    cbn [Base62.toString16_loop].
  - change (2 ^ Z.of_nat 0) with 1 in Hf. replace num with 0 by lia.
    cbv zeta. split; [lia|]. rewrite hexfix_zero. f_equal. f_equal. lia.
  - destruct (Z.ltb_spec 0 num) as [Hpos|Hz].
    + pose proof (Z.mod_pos_bound num 16 ltac:(lia)) as Hm.
      destruct (hexdigit_hexval (num mod 16) Hm) as (c0 & Hc & _).
      unfold hexdigit in Hc.
      destruct (String.get (Z.to_nat (num mod 16)) Base62.HEX_DIGITS) as [c|] eqn:G;
        [|discriminate].
      clear Hc c0.
      destruct k as [|k]; [cbn in Hk; lia|].
      rewrite Nat2Z.inj_succ, Z.pow_succ_r in Hk, Hf by lia.
      destruct (IH k (num / 16) (String c acc)) as [Hl He].
      { split; [apply Z.div_pos; lia|apply Z.div_lt_upper_bound; lia]. }
      { apply Z.div_lt_upper_bound; lia. }
      cbv zeta in *. cbn [String.length] in Hl, He. split; [lia|].
      replace (S k + String.length acc
               - String.length (Base62.toString16_loop fuel (num / 16) (String c acc)))%nat
        with (k + S (String.length acc)
              - String.length (Base62.toString16_loop fuel (num / 16) (String c acc)))%nat
        by lia.
      rewrite He. cbn [hexfix]. rewrite append_assoc. f_equal.
      unfold hexdigit. rewrite G. reflexivity.
    + replace num with 0 by lia. cbv zeta. split; [lia|].
      rewrite hexfix_zero. f_equal. f_equal. lia.
Qed.

Lemma from_hex_hexfix (n : nat) (num : Z) (t : string) :
  Base62.from_hex (String.append (hexfix (n + n) num) t)
  = Buf.be_bytes n num ++ Base62.from_hex t.
Proof.
  revert num t. induction n as [|n IH]; intros num t; [reflexivity|].
  replace (S n + S n)%nat with (S (S (n + n))) by lia.
  cbn [hexfix Buf.be_bytes]. rewrite !append_assoc, Z.div_div by lia.
  change (16 * 16) with 256. rewrite IH, <- app_assoc. f_equal.
  pose proof (Z.mod_pos_bound (num / 16) 16 ltac:(lia)) as H1.
  pose proof (Z.mod_pos_bound num 16 ltac:(lia)) as H0.
  destruct (hexdigit_hexval _ H1) as (c1 & E1 & V1).
  destruct (hexdigit_hexval _ H0) as (c0 & E0 & V0).
  rewrite E1, E0, !append_cons, !append_nil_l.
  cbn [Base62.from_hex]. rewrite V1, V0. cbn [app]. f_equal.
  rewrite <- (to_uint8_mod num). f_equal.
  change 256 with (16 * 16). rewrite (Z.rem_mul_r num 16 16) by lia. lia.
Qed.

Lemma toString16_padded (num : Z) (k : nat) :
  0 <= num < 16 ^ Z.of_nat k -> (0 < k)%nat ->
  Base62.padStart0 (Base62.toString16 num) k = hexfix k num.
Proof.
  intros Hk Hpos. rewrite padStart0_eq. unfold Base62.toString16.
  destruct (Z.eqb_spec num 0) as [E|E].
  - subst num. rewrite hexfix_zero. cbn [String.length].
    destruct k as [|k]; [lia|]. replace (S k - 1)%nat with k by lia.
    apply zeros_snoc.
  - destruct (toString16_loop_hexfix (Z.to_nat (Z.log2 num) + 1) k num
                EmptyString Hk) as [Hl He].
    { rewrite Nat2Z.inj_add, Z2Nat.id by apply Z.log2_nonneg.
      change (Z.of_nat 1) with 1. apply Z.log2_spec. lia. }
    cbv zeta in *. cbn [String.length] in Hl, He.
    rewrite Nat.add_0_r in He. rewrite He. apply append_nil_r.
Qed.

(** What [decode] returns for 27 characters whose value fits 160 bits. *)
Lemma decode_27 (s : string) (num : Z) :
  String.length s = 27%nat ->
  Base62.decode_loop s 0 = Ok num -> 0 <= num < 2 ^ 160 ->
  Base62.decode (Some s) = Ok (Buf.be_bytes 20 num).
Proof.
  intros Hlen Hnum Hr. unfold Base62.decode. rewrite Hlen.
  cbn [Nat.eqb Base62.ENCODED_STRING_LENGTH negb]. rewrite Hnum. cbn [bindR].
  change (Base62.KSUID_BYTE_LENGTH * 2)%nat with 40%nat.
  rewrite toString16_padded by (change (16 ^ Z.of_nat 40) with (2 ^ 160); lia).
  pose proof (from_hex_hexfix 20 num EmptyString) as Hh.
  change (20 + 20)%nat with 40%nat in Hh. rewrite append_nil_r in Hh.
  rewrite Hh. cbn [Base62.from_hex]. rewrite app_nil_r, be_bytes_length.
  reflexivity.
Qed.

Lemma base62_roundtrip (b : Buffer) :
  length b = 20%nat ->
  exists s, Base62.encode (Some b) = Ok s /\ String.length s = 27%nat
            /\ Base62.decode (Some s) = Ok b.
Proof.
  intros Hlen. destruct (encode_20 b Hlen) as (s & He & Hl & Hd).
  exists s. split; [exact He|]. split; [exact Hl|].
  pose proof (be_value_range b) as Hr. rewrite Hlen in Hr.
  rewrite (decode_27 s _ Hl Hd) by exact Hr.
  rewrite <- Hlen, be_bytes_be_value. reflexivity.
Qed.

(** X9. [encode] fails with the invalid buffer length error exactly on a
    buffer that is not 20 bytes long; for 20 bytes it returns 27 characters,
    and [decode] gives the bytes back. *)
Theorem base62_decode_encode (b : Buffer) :
  (length b <> 20%nat ->
   Base62.encode (Some b) = Err (Thrown invalidBufferLength)) /\
  (length b = 20%nat ->
   exists s, Base62.encode (Some b) = Ok s /\ String.length s = 27%nat
             /\ Base62.decode (Some s) = Ok b).
Proof.
  split; [|apply base62_roundtrip].
  intros Hne. unfold Base62.encode.
  destruct (Nat.eqb_spec (length b) Base62.KSUID_BYTE_LENGTH); [contradiction|].
  reflexivity.
Qed.

Lemma toString_inj (a b : KSUID.t) :
  KSUID.wf a -> KSUID.wf b -> KSUID.toString a = KSUID.toString b -> a = b.
Proof.
  intros Ha Hb E. unfold KSUID.toString in E.
  destruct (base62_roundtrip _ Ha) as (sa & Ea & _ & Da).
  destruct (base62_roundtrip _ Hb) as (sb & Eb & _ & Db).
  rewrite Ea, Eb in E. injection E as ->. rewrite Da in Db.
  destruct a, b. cbn [KSUID.buffer] in Db. congruence.
Qed.

(** X10. For a well-formed identifier [toString] returns 27 characters,
    [parse] of them is the identifier, and two well-formed identifiers with
    the same text are equal. *)
Theorem ksuid_parse_toString (k : KSUID.t) :
  KSUID.wf k ->
  (exists s, KSUID.toString k = Ok s /\ String.length s = 27%nat
             /\ KSUID.parse (Some s) = Ok k /\ KSUID.parseOrNil (Some s) = k) /\
  (forall k', KSUID.wf k' -> KSUID.toString k' = KSUID.toString k -> k' = k).
Proof.
  intros Hk. split.
  - destruct (base62_roundtrip _ Hk) as (s & He & Hl & Hd).
    exists s. split; [exact He|]. split; [exact Hl|].
    assert (Hp : KSUID.parse (Some s) = Ok k).
    { unfold KSUID.parse. rewrite Hl. cbn [Nat.eqb negb]. rewrite Hd.
      cbn [bindR]. unfold KSUID.new. rewrite Hk.
      cbn [Nat.eqb KSUID.KSUID_LENGTH KSUID.TIMESTAMP_LENGTH KSUID.PAYLOAD_LENGTH
             Nat.add negb].
      destruct k. reflexivity. }
    split; [exact Hp|]. unfold KSUID.parseOrNil. rewrite Hp. reflexivity.
  - intros k' Hk' E. apply toString_inj; assumption.
Qed.

(** X10 (instance). *)
Lemma ksuid_parse_toString_witness :
  exists s, KSUID.toString (ident 100 5) = Ok s /\ String.length s = 27%nat
            /\ KSUID.parse (Some s) = Ok (ident 100 5)
            /\ KSUID.parseOrNil (Some s) = ident 100 5.
Proof.
  assert (H1 : KSUID.wf (ident 100 5)) by reflexivity.
  exact (proj1 (ksuid_parse_toString _ H1)).
Defined.

(** [CHAR_MAP] knows exactly the characters of the alphabet, with values
    below 62. *)
Lemma CHAR_MAP_spec (c : Ascii.ascii) :
  match Base62.CHAR_MAP !! c with
  | Some v => 0 <= v < 62 /\
              String.get (Z.to_nat v) Base62.BASE62_ALPHABET = Some c
  | None => existsb (Ascii.eqb c)
              (String.list_ascii_of_string Base62.BASE62_ALPHABET) = false
  end.
Proof.
  destruct c as [[] [] [] [] [] [] [] []]; vm_compute;
    first [reflexivity | split; [split; [discriminate|reflexivity]|reflexivity]].
Qed.

Lemma toString16_loop_length_ge (fuel : nat) (num : Z) (acc : string) (j : nat) :
  16 ^ Z.of_nat j <= num -> num < 2 ^ Z.of_nat fuel ->
  (String.length acc + j + 1
   <= String.length (Base62.toString16_loop fuel num acc))%nat.
Proof.
  revert num acc j. induction fuel as [|fuel IH]; intros num acc j Hj Hf.
  - change (2 ^ Z.of_nat 0) with 1 in Hf.
    assert (0 < 16 ^ Z.of_nat j) by (apply Z.pow_pos_nonneg; lia). lia.
  - cbn [Base62.toString16_loop].
    assert (Hp : 0 < 16 ^ Z.of_nat j) by (apply Z.pow_pos_nonneg; lia).
    destruct (Z.ltb_spec 0 num) as [Hpos|Hz]; [|lia].
    pose proof (Z.mod_pos_bound num 16 ltac:(lia)) as Hm.
    destruct (hexdigit_hexval (num mod 16) Hm) as (c0 & Hc & _).
    unfold hexdigit in Hc.
    destruct (String.get (Z.to_nat (num mod 16)) Base62.HEX_DIGITS) as [c|] eqn:G;
      [|discriminate].
    rewrite Nat2Z.inj_succ, Z.pow_succ_r in Hf by lia.
    destruct j as [|j].
    + destruct (toString16_loop_hexfix fuel (Z.to_nat (Z.log2 num) + 1)
                  (num / 16) (String c acc)) as [Hl _].
      * split; [apply Z.div_pos; lia|].
        apply Z.div_lt_upper_bound; [lia|].
        rewrite Nat2Z.inj_add, Z2Nat.id by apply Z.log2_nonneg.
        change (Z.of_nat 1) with 1.
        pose proof (Z.log2_spec num Hpos) as Hlog.
        assert (2 ^ Z.succ (Z.log2 num) <= 16 ^ (Z.log2 num + 1)).
        { unfold Z.succ. change 16 with (2 ^ 4). rewrite <- Z.pow_mul_r by
            (pose proof (Z.log2_nonneg num); lia).
          apply Z.pow_le_mono_r; pose proof (Z.log2_nonneg num); lia. }
        lia.
      * apply Z.div_lt_upper_bound; lia.
      * cbv zeta in Hl. cbn [String.length] in Hl. lia.
    + rewrite Nat2Z.inj_succ, Z.pow_succ_r in Hj by lia.
      pose proof (IH (num / 16) (String c acc) j) as H.
      cbn [String.length] in H.
      assert (16 ^ Z.of_nat j <= num / 16) by (apply Z.div_le_lower_bound; lia).
      assert (num / 16 < 2 ^ Z.of_nat fuel) by (apply Z.div_lt_upper_bound; lia).
      specialize (H ltac:(assumption) ltac:(assumption)). lia.
Qed.

(** What [decode] returns for 27 characters whose value needs 41
    hexadecimal digits: the first forty of them. *)
Lemma decode_27_over (s : string) (num : Z) :
  String.length s = 27%nat ->
  Base62.decode_loop s 0 = Ok num -> 2 ^ 160 <= num < 62 ^ 27 ->
  Base62.decode (Some s) = Ok (Buf.be_bytes 20 (num / 16)).
Proof.
  intros Hlen Hnum Hr. unfold Base62.decode. rewrite Hlen.
  cbn [Nat.eqb Base62.ENCODED_STRING_LENGTH negb]. rewrite Hnum. cbn [bindR].
  change (Base62.KSUID_BYTE_LENGTH * 2)%nat with 40%nat.
  assert (H41 : 0 <= num < 16 ^ Z.of_nat 41).
  { split; [lia|]. eapply Z.lt_le_trans; [exact (proj2 Hr)|].
    vm_compute. discriminate. }
  assert (Hfuel : num < 2 ^ Z.of_nat (Z.to_nat (Z.log2 num) + 1)).
  { rewrite Nat2Z.inj_add, Z2Nat.id by apply Z.log2_nonneg.
    change (Z.of_nat 1) with 1. apply Z.log2_spec. lia. }
  assert (Hne : (num =? 0) = false) by (apply Z.eqb_neq; lia).
  rewrite padStart0_eq. unfold Base62.toString16. rewrite Hne.
  destruct (toString16_loop_hexfix _ 41 num EmptyString H41 Hfuel) as [Hl He].
  pose proof (toString16_loop_length_ge _ num EmptyString 40
                ltac:(change (16 ^ Z.of_nat 40) with (2 ^ 160); lia) Hfuel) as Hge.
  cbv zeta in *. cbn [String.length] in Hl, He, Hge.
  set (r := Base62.toString16_loop (Z.to_nat (Z.log2 num) + 1) num EmptyString) in *.
  assert (Hlr : String.length r = 41%nat) by lia.
  rewrite Hlr in He |- *. cbn [Nat.sub Nat.add] in He |- *.
  change (zeros 0) with EmptyString in He |- *.
  rewrite append_nil_l in He |- *. rewrite append_nil_r in He. rewrite He.
  change 41%nat with (S (20 + 20)). cbn [hexfix].
  rewrite from_hex_hexfix.
  pose proof (Z.mod_pos_bound num 16 ltac:(lia)) as Hm.
  destruct (hexdigit_hexval (num mod 16) Hm) as (c0 & Hc & _). rewrite Hc.
  cbn [Base62.from_hex]. rewrite app_nil_r, be_bytes_length. reflexivity.
Qed.

(** [CHAR_MAP] gives every character its place in the alphabet. *)
Lemma place_CHAR_MAP (c : Ascii.ascii) :
  Base62.CHAR_MAP !! c = place c Base62.BASE62_ALPHABET 0.
Proof.
  destruct c as [[] [] [] [] [] [] [] []]; vm_compute; reflexivity.
Qed.

Lemma place_spec (c : Ascii.ascii) :
  match place c Base62.BASE62_ALPHABET 0 with
  | Some d => 0 <= d < 62 /\
              existsb (Ascii.eqb c)
                (String.list_ascii_of_string Base62.BASE62_ALPHABET) = true
  | None => existsb (Ascii.eqb c)
              (String.list_ascii_of_string Base62.BASE62_ALPHABET) = false
  end.
Proof.
  destruct c as [[] [] [] [] [] [] [] []]; vm_compute;
    first [reflexivity | split; [split; [discriminate|reflexivity]|reflexivity]].
Qed.

(** The loop of [decode] computes the number the string stands for. *)
Lemma decode_loop_number (s : string) :
  forall n : Z,
    Base62.decode_loop s n
    = match number62 s with
      | Some v => Ok (n * 62 ^ Z.of_nat (String.length s) + v)
      | None => Err (Thrown invalidCharacter)
      end.
Proof.
  induction s as [|c rest IH]; intros n.
  - cbn [Base62.decode_loop number62 String.length]. f_equal.
    change (62 ^ Z.of_nat 0) with 1. lia.
  - cbn [Base62.decode_loop number62]. rewrite place_CHAR_MAP.
    destruct (place c Base62.BASE62_ALPHABET 0) as [d|]; [|reflexivity].
    rewrite IH. destruct (number62 rest) as [v|]; [|reflexivity].
    f_equal. cbn [String.length]. rewrite Nat2Z.inj_succ, Z.pow_succ_r by lia.
    unfold Base62.BASE. lia.
Qed.

Lemma number62_range (s : string) (v : Z) :
  number62 s = Some v -> 0 <= v < 62 ^ Z.of_nat (String.length s).
Proof.
  revert v. induction s as [|c rest IH]; intros v; cbn [number62 String.length].
  - intros [= <-]. change (62 ^ Z.of_nat 0) with 1. lia.
  - pose proof (place_spec c) as Hc.
    destruct (place c Base62.BASE62_ALPHABET 0) as [d|]; [|discriminate].
    destruct (number62 rest) as [w|]; [|discriminate].
    intros [= <-]. specialize (IH w eq_refl). destruct Hc as [Hd _].
    rewrite Nat2Z.inj_succ, Z.pow_succ_r by lia. nia.
Qed.

Lemma number62_None (s : string) :
  number62 s = None <->
  exists c, In c (String.list_ascii_of_string s)
            /\ existsb (Ascii.eqb c)
                 (String.list_ascii_of_string Base62.BASE62_ALPHABET) = false.
Proof.
  induction s as [|c rest IH]; cbn [number62 String.list_ascii_of_string In].
  - split; [discriminate|]. intros (c & [] & _).
  - pose proof (place_spec c) as Hc.
    destruct (place c Base62.BASE62_ALPHABET 0) as [d|].
    + destruct Hc as [_ Hc]. destruct (number62 rest) as [w|].
      * split; [discriminate|]. intros (c' & [<-|Hin] & Hout); [congruence|].
        assert (H : Some w = None) by (apply IH; exists c'; auto).
        discriminate H.
      * split; [|reflexivity]. intros _.
        destruct (proj1 IH eq_refl) as (c' & Hin & Hout).
        exists c'. auto.
    + split; [|reflexivity]. intros _. exists c. auto.
Qed.

(** X11. [decode] on strings of 8-bit characters.  A string that is not 27
    characters long is rejected with the invalid string length error.  A
    string of 27 characters of which one is outside the alphabet is rejected
    with the invalid character error.  A string of 27 characters of the
    alphabet is accepted and gives exactly 20 bytes: the number the string
    stands for in base 62 when that is below 2^160, and that number divided
    by 16 when it is not (it then has 41 hexadecimal digits, of which the
    last is dropped). *)
Theorem base62_decode_outcomes (s : string) :
  (String.length s <> 27%nat ->
   Base62.decode (Some s) = Err (Thrown invalidStringLength)) /\
  (String.length s = 27%nat ->
   ((exists c, In c (String.list_ascii_of_string s)
               /\ existsb (Ascii.eqb c)
                    (String.list_ascii_of_string Base62.BASE62_ALPHABET)
                  = false) ->
    Base62.decode (Some s) = Err (Thrown invalidCharacter)) /\
   ((forall c, In c (String.list_ascii_of_string s) ->
               existsb (Ascii.eqb c)
                 (String.list_ascii_of_string Base62.BASE62_ALPHABET)
               = true) ->
    exists v,
      number62 s = Some v /\ 0 <= v < 62 ^ 27 /\
      Base62.decode (Some s)
      = Ok (Buf.be_bytes 20 (if v <? 2 ^ 160 then v else v / 16)))).
Proof.
  split.
  - intros Hne. unfold Base62.decode.
    destruct (Nat.eqb_spec (String.length s) Base62.ENCODED_STRING_LENGTH);
      [contradiction|reflexivity].
  - intros Hlen. pose proof (decode_loop_number s 0) as Hloop. split.
    + intros Hbad. apply number62_None in Hbad. rewrite Hbad in Hloop.
      unfold Base62.decode. rewrite Hlen.
      cbn [Nat.eqb Base62.ENCODED_STRING_LENGTH negb]. rewrite Hloop.
      reflexivity.
    + intros Hall. destruct (number62 s) as [v|] eqn:Ev.
      * pose proof (number62_range s v Ev) as Hv.
        rewrite Hlen in Hv. change (Z.of_nat 27) with 27 in Hv.
        rewrite Z.mul_0_l, Z.add_0_l in Hloop.
        exists v. split; [reflexivity|]. split; [exact Hv|].
        destruct (Z.ltb_spec v (2 ^ 160)).
        -- apply decode_27; [assumption..|lia].
        -- apply decode_27_over; [assumption..|lia].
      * exfalso. apply number62_None in Ev as (c & Hin & Hout).
        rewrite (Hall c Hin) in Hout. discriminate Hout.
Qed.

(** X11 (instance). Twenty-six characters; an exclamation mark; the string
    that stands for 123; and the greatest string, whose number 62^27 - 1 is
    above 2^160. *)
Lemma base62_decode_outcomes_witness :
  Base62.decode (Some "0123456789ABCDEFGHIJKLMNOP"%string)
  = Err (Thrown invalidStringLength) /\
  Base62.decode (Some "!00000000000000000000000000"%string)
  = Err (Thrown invalidCharacter) /\
  Base62.decode (Some "00000000000000000000000001z"%string)
  = Ok (Buf.be_bytes 20 123) /\
  Base62.decode (Some "zzzzzzzzzzzzzzzzzzzzzzzzzzz"%string)
  = Ok (Buf.be_bytes 20 ((62 ^ 27 - 1) / 16)).
Proof.
  split; [|split; [|split]].
  - apply (proj1 (base62_decode_outcomes "0123456789ABCDEFGHIJKLMNOP")).
    vm_compute. discriminate.
  - apply (proj1 (proj2 (base62_decode_outcomes
                           "!00000000000000000000000000") eq_refl)).
    exists (Ascii.ascii_of_nat 33). split; [left; reflexivity|reflexivity].
  - destruct (proj2 (proj2 (base62_decode_outcomes
                              "00000000000000000000000001z") eq_refl))
      as (v & Hv & _ & E).
    + intros c Hc. vm_compute in Hc.
      repeat (destruct Hc as [<-|Hc]; [reflexivity|]). contradiction.
    + vm_compute in Hv. injection Hv as <-. exact E.
  - destruct (proj2 (proj2 (base62_decode_outcomes
                              "zzzzzzzzzzzzzzzzzzzzzzzzzzz") eq_refl))
      as (v & Hv & _ & E).
    + intros c Hc. vm_compute in Hc.
      repeat (destruct Hc as [<-|Hc]; [reflexivity|]). contradiction.
    + vm_compute in Hv. injection Hv as <-. exact E.
Defined.

(** ** Sorting *)

Lemma ksuid_compare_value (a b : KSUID.t) :
  KSUID.wf a -> KSUID.wf b ->
  KSUID.compare a b
  = match value a ?= value b with Lt => -1 | Eq => 0 | Gt => 1 end.
Proof.
  intros Ha Hb. unfold KSUID.compare, value. apply compare_be_value.
  unfold KSUID.wf in *. congruence.
Qed.

Lemma compare_neg_iff (a b : KSUID.t) :
  KSUID.wf a -> KSUID.wf b ->
  (KSUID.compare a b <? 0) = (value a <? value b).
Proof.
  intros Ha Hb. rewrite ksuid_compare_value by assumption.
  destruct (Z.compare_spec (value a) (value b)) as [E|E|E];
    symmetry; [apply Z.ltb_ge|apply Z.ltb_lt|apply Z.ltb_ge]; lia.
Qed.

Lemma compare_pos_iff (a b : KSUID.t) :
  KSUID.wf a -> KSUID.wf b ->
  (0 <? KSUID.compare a b) = (value b <? value a).
Proof.
  intros Ha Hb. rewrite ksuid_compare_value by assumption.
  destruct (Z.compare_spec (value a) (value b)) as [E|E|E];
    symmetry; [apply Z.ltb_ge|apply Z.ltb_ge|apply Z.ltb_lt]; lia.
Qed.

Lemma Sort_get_app (pre : list KSUID.t) (x : KSUID.t) (post : list KSUID.t) :
  Sort.get (pre ++ x :: post) (Z.of_nat (length pre)) = Ok x.
Proof.
  unfold Sort.get. destruct (Z.ltb_spec (Z.of_nat (length pre)) 0); [lia|].
  rewrite Nat2Z.id, list_lookup_middle by reflexivity. reflexivity.
Qed.

Lemma Sort_swap_same (a : list KSUID.t) (i : Z) (x : KSUID.t) :
  Sort.get a i = Ok x -> Sort.swap a i i = Ok a.
Proof.
  intros H. unfold Sort.swap. rewrite H. cbn [bindR].
  unfold Sort.get in H. destruct (i <? 0); [discriminate|].
  destruct (a !! Z.to_nat i) as [k|] eqn:E; [|discriminate].
  injection H as ->. rewrite !list_insert_id; [reflexivity|exact E|].
  rewrite list_insert_id; exact E.
Qed.

Lemma Sort_swap_app (pre : list KSUID.t) (x : KSUID.t) (mid : list KSUID.t)
    (y : KSUID.t) (post : list KSUID.t) :
  Sort.swap (pre ++ x :: mid ++ y :: post) (Z.of_nat (length pre))
    (Z.of_nat (length pre + 1 + length mid))
  = Ok (pre ++ y :: mid ++ x :: post).
Proof.
  unfold Sort.swap.
  assert (Hj : Sort.get (pre ++ x :: mid ++ y :: post)
                 (Z.of_nat (length pre + 1 + length mid)) = Ok y).
  { replace (pre ++ x :: mid ++ y :: post)
      with ((pre ++ x :: mid) ++ y :: post)
      by (rewrite <- app_assoc; reflexivity).
    replace (length pre + 1 + length mid)%nat with (length (pre ++ x :: mid))
      by (rewrite length_app; cbn [length]; lia).
    apply Sort_get_app. }
  rewrite Hj, Sort_get_app. cbn [bindR]. f_equal.
  rewrite !Nat2Z.id.
  rewrite (insert_app_r_alt pre _ (length pre)) by lia.
  rewrite Nat.sub_diag. cbn [insert list_insert].
  rewrite (insert_app_r_alt pre) by lia.
  replace (length pre + 1 + length mid - length pre)%nat
    with (S (length mid)) by lia.
  cbn [insert list_insert]. f_equal. f_equal.
  rewrite (insert_app_r_alt mid _ (length mid)) by lia.
  rewrite Nat.sub_diag. reflexivity.
Qed.

(** The loop of [quickSort] moves the members of [rest] that are below the
    pivot behind [L] and the others behind [G]. *)
Lemma partition_spec (pivot : KSUID.t) (n : nat) :
  forall (rest L G pre post : list KSUID.t),
    length rest = n ->
    Forall (fun x => (KSUID.compare x pivot <? 0) = true) L ->
    Forall (fun x => (KSUID.compare x pivot <? 0) = false) G ->
    exists L' G',
      Sort.partition n (pre ++ L ++ G ++ rest ++ post) pivot
        (Z.of_nat (length pre + length L) - 1)
        (Z.of_nat (length pre + length L + length G))
      = Ok (pre ++ L' ++ G' ++ post, Z.of_nat (length pre + length L') - 1)
      /\ L' ++ G' ≡ₚ L ++ G ++ rest
      /\ Forall (fun x => (KSUID.compare x pivot <? 0) = true) L'
      /\ Forall (fun x => (KSUID.compare x pivot <? 0) = false) G'.
Proof.
  induction n as [|n IH]; intros rest L G pre post Hlen HL HG.
  - destruct rest; [|discriminate]. exists L, G. cbn [Sort.partition app].
    rewrite app_nil_r. auto.
  - destruct rest as [|x rest]; [discriminate|]. injection Hlen as Hlen.
    cbn [Sort.partition].
    assert (Hget : Sort.get (pre ++ L ++ G ++ (x :: rest) ++ post)
                     (Z.of_nat (length pre + length L + length G)) = Ok x).
    { replace (pre ++ L ++ G ++ (x :: rest) ++ post)
        with ((pre ++ L ++ G) ++ x :: rest ++ post)
        by (rewrite <- !app_assoc; reflexivity).
      replace (length pre + length L + length G)%nat
        with (length (pre ++ L ++ G)) by (rewrite !length_app; lia).
      apply Sort_get_app. }
    rewrite Hget. cbn [bindR].
    destruct (KSUID.compare x pivot <? 0) eqn:Ex.
    + destruct G as [|g G].
      * (* the two indices coincide *)
        replace (Z.of_nat (length pre + length L) - 1 + 1)
          with (Z.of_nat (length pre + length L + length (@nil KSUID.t)))
          by (cbn [length]; lia).
        rewrite (Sort_swap_same _ _ x Hget). cbn [bindR].
        destruct (IH rest (L ++ [x]) [] pre post Hlen) as (L' & G' & E & Hp & HL' & HG').
        { apply Forall_app. split; [exact HL|]. constructor; [exact Ex|constructor]. }
        { constructor. }
        exists L', G'. split; [|split; [|split; assumption]].
        -- rewrite <- E. cbn [length app]. rewrite <- !app_assoc. cbn [app].
           rewrite length_app. cbn [length]. f_equal; lia.
        -- rewrite Hp. cbn [app]. rewrite <- app_assoc. reflexivity.
      * replace (pre ++ L ++ (g :: G) ++ (x :: rest) ++ post)
          with ((pre ++ L) ++ g :: G ++ x :: rest ++ post)
          by (rewrite <- !app_assoc; reflexivity).
        replace (Z.of_nat (length pre + length L) - 1 + 1)
          with (Z.of_nat (length (pre ++ L))) by (rewrite length_app; lia).
        replace (Z.of_nat (length pre + length L + length (g :: G)))
          with (Z.of_nat (length (pre ++ L) + 1 + length G))
          by (rewrite length_app; cbn [length]; lia).
        rewrite Sort_swap_app. cbn [bindR].
        destruct (IH rest (L ++ [x]) (G ++ [g]) pre post Hlen) as (L' & G' & E & Hp & HL' & HG').
        { apply Forall_app. split; [exact HL|]. constructor; [exact Ex|constructor]. }
        { inversion HG; subst. apply Forall_app. split; [assumption|].
          constructor; [assumption|constructor]. }
        exists L', G'. split; [|split; [|split; assumption]].
        -- rewrite <- E. rewrite !length_app. cbn [length].
           rewrite <- !app_assoc. cbn [app]. f_equal; lia.
        -- rewrite Hp. rewrite <- !app_assoc. cbn [app].
           apply Permutation_app_head.
           change (x :: G ++ g :: rest) with ([x] ++ G ++ [g] ++ rest).
           change (g :: G ++ x :: rest) with ([g] ++ G ++ [x] ++ rest).
           solve_Permutation.
    + destruct (IH rest L (G ++ [x]) pre post Hlen) as (L' & G' & E & Hp & HL' & HG');
        [exact HL| |].
      { apply Forall_app. split; [exact HG|]. constructor; [exact Ex|constructor]. }
      exists L', G'. split; [|split; [|split; assumption]].
      * rewrite <- E. rewrite !length_app. cbn [length].
        rewrite <- !app_assoc. cbn [app]. f_equal; lia.
      * rewrite Hp. rewrite <- !app_assoc. reflexivity.
Qed.

(** After the loop the pivot, or an identifier equal to it, is put between
    the two parts. *)
Lemma pivot_placed (pre L G post : list KSUID.t) (pivot : KSUID.t) :
  Forall KSUID.wf (L ++ G ++ [pivot]) ->
  Forall (fun x => (KSUID.compare x pivot <? 0) = true) L ->
  Forall (fun x => (KSUID.compare x pivot <? 0) = false) G ->
  let a := pre ++ L ++ G ++ pivot :: post in
  let i := Z.of_nat (length pre + length L) in
  let hi := Z.of_nat (length pre + length L + length G) in
  exists m R,
    (let? ahi := Sort.get a hi in
     let? ai := Sort.get a i in
     if KSUID.compare ahi ai <? 0 then Sort.swap a i hi else Ok a)
    = Ok (pre ++ L ++ m :: R ++ post)
    /\ m :: R ≡ₚ G ++ [pivot]
    /\ Forall (fun x => vlt x m) L
    /\ Forall (fun x => vle m x) R.
Proof.
  intros Hwf HL HG a i hi.
  apply Forall_app in Hwf as [HwL Hwf]. apply Forall_app in Hwf as [HwG Hwp].
  inversion Hwp as [|? ? Hp _]; subst.
  assert (Hhi : Sort.get a hi = Ok pivot).
  { subst a hi.
    replace (pre ++ L ++ G ++ pivot :: post)
      with ((pre ++ L ++ G) ++ pivot :: post)
      by (rewrite <- !app_assoc; reflexivity).
    replace (length pre + length L + length G)%nat
      with (length (pre ++ L ++ G)) by (rewrite !length_app; lia).
    apply Sort_get_app. }
  assert (HL' : Forall (fun x => vlt x pivot) L).
  { rewrite Forall_forall in HL, HwL |- *. intros x Hx.
    specialize (HL x Hx). rewrite compare_neg_iff in HL by auto.
    apply Z.ltb_lt in HL. exact HL. }
  assert (HG' : Forall (fun x => vle pivot x) G).
  { rewrite Forall_forall in HG, HwG |- *. intros x Hx.
    specialize (HG x Hx). rewrite compare_neg_iff in HG by auto.
    apply Z.ltb_ge in HG. exact HG. }
  rewrite Hhi. cbn [bindR].
  destruct G as [|g G].
  - exists pivot, []. subst a i hi. cbn [app length] in *.
    rewrite Nat.add_0_r in Hhi. rewrite Hhi. cbn [bindR].
    rewrite compare_neg_iff by assumption.
    rewrite Z.ltb_irrefl. auto.
  - assert (Hi : Sort.get a i = Ok g).
    { subst a i.
      replace (pre ++ L ++ (g :: G) ++ pivot :: post)
        with ((pre ++ L) ++ g :: G ++ pivot :: post)
        by (rewrite <- !app_assoc; reflexivity).
      replace (length pre + length L)%nat with (length (pre ++ L))
        by (rewrite length_app; lia).
      apply Sort_get_app. }
    rewrite Hi. cbn [bindR].
    inversion HwG as [|? ? Hg HwG']; subst.
    inversion HG' as [|? ? Hpg HG'']; subst.
    rewrite compare_neg_iff by assumption.
    destruct (Z.ltb_spec (value pivot) (value g)) as [Hlt|Hge].
    + exists pivot, (G ++ [g]). split; [|split; [|split]].
      * subst a i hi.
        replace (pre ++ L ++ (g :: G) ++ pivot :: post)
          with ((pre ++ L) ++ g :: G ++ pivot :: post)
          by (rewrite <- !app_assoc; reflexivity).
        replace (Z.of_nat (length pre + length L))
          with (Z.of_nat (length (pre ++ L))) by (rewrite length_app; lia).
        replace (Z.of_nat (length pre + length L + length (g :: G)))
          with (Z.of_nat (length (pre ++ L) + 1 + length G))
          by (rewrite length_app; cbn [length]; lia).
        rewrite Sort_swap_app. rewrite <- !app_assoc. reflexivity.
      * change (g :: G) with ([g] ++ G).
        change (pivot :: G ++ [g]) with ([pivot] ++ G ++ [g]).
        solve_Permutation.
      * exact HL'.
      * apply Forall_app. split; [exact HG''|].
        constructor; [unfold vle; lia|constructor].
    + exists g, (G ++ [pivot]). split; [|split; [|split]].
      * subst a. rewrite <- !app_assoc. reflexivity.
      * reflexivity.
      * unfold vle, vlt in *. eapply Forall_impl; [exact HL'|].
        cbn beta. intros x Hx. lia.
      * unfold vle in *. apply Forall_app. split.
        -- eapply Forall_impl; [exact HG''|]. cbn beta. intros x Hx. lia.
        -- constructor; [lia|constructor].
Qed.

(** While every identifier the loop of [quickSort] meets is below the
    pivot, each is swapped with itself: the array stays as it is. *)
Lemma partition_below (pivot : KSUID.t) (n : nat) :
  forall (rest L pre post : list KSUID.t),
    length rest = n ->
    Forall (fun x => (KSUID.compare x pivot <? 0) = true) rest ->
    Sort.partition n (pre ++ L ++ rest ++ post) pivot
      (Z.of_nat (length pre + length L) - 1)
      (Z.of_nat (length pre + length L))
    = Ok (pre ++ L ++ rest ++ post,
          Z.of_nat (length pre + length L + length rest) - 1).
Proof.
  induction n as [|n IH]; intros rest L pre post Hlen Hb.
  - destruct rest; [|discriminate]. cbn [Sort.partition length].
    rewrite Nat.add_0_r. reflexivity.
  - destruct rest as [|x rest]; [discriminate|]. injection Hlen as Hlen.
    apply Forall_cons in Hb as [Hx Hb].
    cbn [Sort.partition].
    assert (Hget : Sort.get (pre ++ L ++ (x :: rest) ++ post)
                     (Z.of_nat (length pre + length L)) = Ok x).
    { replace (pre ++ L ++ (x :: rest) ++ post)
        with ((pre ++ L) ++ x :: rest ++ post)
        by (rewrite <- !app_assoc; reflexivity).
      replace (length pre + length L)%nat with (length (pre ++ L))
        by (rewrite length_app; lia).
      apply Sort_get_app. }
    rewrite Hget. cbn [bindR]. rewrite Hx.
    replace (Z.of_nat (length pre + length L) - 1 + 1)
      with (Z.of_nat (length pre + length L)) by lia.
    rewrite (Sort_swap_same _ _ x Hget). cbn [bindR].
    specialize (IH rest (L ++ [x]) pre post Hlen Hb).
    rewrite length_app in IH. cbn [length] in IH.
    rewrite <- !app_assoc in IH. cbn [app] in IH |- *.
    assert (E2 : Z.of_nat (length pre + length L) + 1
                 = Z.of_nat (length pre + (length L + 1))) by lia.
    assert (E1 : Z.of_nat (length pre + length L)
                 = Z.of_nat (length pre + (length L + 1)) - 1) by lia.
    rewrite E2, E1, IH. do 2 f_equal. cbn [length]. lia.
Qed.

(** [quickSort] on a segment of the array, with room for [stack] nested
    calls.  Either the other members stay and the segment is rearranged into
    ascending order, or the call stack is exhausted; it is not when it has
    room for one call and for as many calls as the segment has members. *)
Lemma quickSort_spec (stack : nat) :
  forall (mid pre post : list KSUID.t),
    Forall KSUID.wf mid ->
    (exists mid',
       Sort.quickSort stack (pre ++ mid ++ post) (Z.of_nat (length pre))
         (Z.of_nat (length pre + length mid) - 1)
       = Ok (pre ++ mid' ++ post)
       /\ mid' ≡ₚ mid /\ StronglySorted vle mid')
    \/ (Sort.quickSort stack (pre ++ mid ++ post) (Z.of_nat (length pre))
          (Z.of_nat (length pre + length mid) - 1) = Err RangeError
        /\ (stack < Nat.max 1 (length mid))%nat).
Proof.
  induction stack as [|stack IH]; intros mid pre post Hwf.
  - right. split; [reflexivity|lia].
  - cbn [Sort.quickSort].
    destruct (Z.ltb_spec (Z.of_nat (length pre))
                (Z.of_nat (length pre + length mid) - 1)) as [Hlt|Hge].
    2:{ left. exists mid. split; [reflexivity|split; [reflexivity|]].
        destruct mid as [|x [|y mid]]; [constructor|repeat constructor|].
        cbn [length] in Hge. lia. }
    destruct (exists_last (l := mid)) as (mid0 & pivot & ->).
    { intros ->. cbn [length] in Hlt. lia. }
    rewrite length_app in Hlt |- *. cbn [length] in Hlt |- *.
    assert (Hhi : Sort.get (pre ++ (mid0 ++ [pivot]) ++ post)
                    (Z.of_nat (length pre + (length mid0 + 1)) - 1) = Ok pivot).
    { replace (pre ++ (mid0 ++ [pivot]) ++ post)
        with ((pre ++ mid0) ++ pivot :: post)
        by (rewrite <- !app_assoc; reflexivity).
      replace (Z.of_nat (length pre + (length mid0 + 1)) - 1)
        with (Z.of_nat (length (pre ++ mid0))) by (rewrite length_app; lia).
      apply Sort_get_app. }
    rewrite Hhi. cbn [bindR].
    destruct (partition_spec pivot (length mid0) mid0 [] [] pre (pivot :: post)
                eq_refl ltac:(constructor) ltac:(constructor))
      as (L & G & Ep & Hperm & HL & HG).
    cbn [app length] in Ep, Hperm. rewrite !Nat.add_0_r in Ep.
    replace (Z.to_nat (Z.of_nat (length pre + (length mid0 + 1)) - 1
                       - Z.of_nat (length pre))) with (length mid0) by lia.
    replace (pre ++ (mid0 ++ [pivot]) ++ post)
      with (pre ++ mid0 ++ pivot :: post)
      by (rewrite <- !app_assoc; reflexivity).
    rewrite Ep. cbn [bindR].
    assert (Hlen : (length L + length G = length mid0)%nat).
    { rewrite <- length_app. apply Permutation_length. exact Hperm. }
    assert (Hwf' : Forall KSUID.wf (L ++ G ++ [pivot])).
    { rewrite app_assoc. rewrite Hperm. exact Hwf. }
    destruct (pivot_placed pre L G post pivot Hwf' HL HG)
      as (m & R & Es & HpR & HLm & HRm).
    cbv zeta in Es.
    replace (Z.of_nat (length pre + length L) - 1 + 1)
      with (Z.of_nat (length pre + length L)) by lia.
    replace (Z.of_nat (length pre + (length mid0 + 1)) - 1)
      with (Z.of_nat (length pre + length L + length G)) by lia.
    destruct (Sort.get (pre ++ L ++ G ++ pivot :: post)
                (Z.of_nat (length pre + length L + length G))) as [ahi|];
      cbn [bindR] in Es |- *; [|discriminate].
    destruct (Sort.get (pre ++ L ++ G ++ pivot :: post)
                (Z.of_nat (length pre + length L))) as [ai|];
      cbn [bindR] in Es |- *; [|discriminate].
    rewrite Es. cbn [bindR].
    assert (HlenR : (S (length R) = length G + 1)%nat).
    { change (S (length R)) with (length (m :: R)).
      rewrite (Permutation_length HpR), length_app. reflexivity. }
    assert (HwL : Forall KSUID.wf L).
    { apply Forall_app in Hwf' as [H _]. exact H. }
    assert (HwmR : Forall KSUID.wf (m :: R)).
    { rewrite HpR. apply Forall_app in Hwf' as [_ H]. exact H. }
    inversion HwmR as [|? ? Hwm HwR]; subst.
    destruct (IH L pre (m :: R ++ post) HwL)
      as [(L' & E1 & HpL & HsL)|[E1 Hs1]].
    2:{ rewrite E1. cbn [bindR]. right. split; [reflexivity|lia]. }
    rewrite E1. cbn [bindR].
    assert (HlenL : length L' = length L) by (apply Permutation_length; exact HpL).
    replace (Z.of_nat (length pre + length L) + 1)
      with (Z.of_nat (length pre + (length L + 1))) by lia.
    replace (Z.of_nat (length pre + length L + length G))
      with (Z.of_nat (length pre + (length L + 1) + length R) - 1) by lia.
    destruct (IH R (pre ++ L' ++ [m]) post HwR)
      as [(R' & E2 & HpR' & HsR)|[E2 Hs2]];
      rewrite <- !app_assoc in E2; cbn [app] in E2;
      rewrite !length_app in E2; cbn [length] in E2; rewrite HlenL in E2;
      rewrite E2.
    2:{ right. split; [reflexivity|lia]. }
    left. exists (L' ++ m :: R'). split; [|split].
    + rewrite <- !app_assoc. reflexivity.
    + rewrite HpL, HpR'.
      transitivity (L ++ G ++ [pivot]); [rewrite HpR; reflexivity|].
      rewrite app_assoc, Hperm. reflexivity.
    + apply StronglySorted_app_2; [|exact HsL|].
      * intros x1 x2 H1 H2. rewrite HpL in H1.
        rewrite Forall_forall in HLm. specialize (HLm x1 H1).
        apply elem_of_cons in H2 as [->|H2]; [unfold vle, vlt in *; lia|].
        rewrite HpR' in H2. rewrite Forall_forall in HRm.
        specialize (HRm x2 H2). unfold vle, vlt in *. lia.
      * constructor; [exact HsR|]. rewrite HpR'. exact HRm.
Qed.

(** An array in strictly ascending order is the deep case: the pivot is the
    greatest member, the loop moves nothing, and the first of the two inner
    calls gets all the members but the last.  The nesting is as deep as the
    segment is long, and a call stack with less room is exhausted. *)
Lemma quickSort_ascending (stack : nat) :
  forall (mid pre post : list KSUID.t),
    Forall KSUID.wf mid -> StronglySorted vlt mid ->
    (stack < Nat.max 1 (length mid))%nat ->
    Sort.quickSort stack (pre ++ mid ++ post) (Z.of_nat (length pre))
      (Z.of_nat (length pre + length mid) - 1) = Err RangeError.
Proof.
  induction stack as [|stack IH]; intros mid pre post Hwf Hs Hst;
    [reflexivity|].
  cbn [Sort.quickSort].
  destruct (Z.ltb_spec (Z.of_nat (length pre))
              (Z.of_nat (length pre + length mid) - 1)) as [Hlt|Hge]; [|lia].
  destruct (exists_last (l := mid)) as (mid0 & pivot & ->).
  { intros ->. cbn [length] in Hlt. lia. }
  rewrite length_app in Hlt, Hst |- *. cbn [length] in Hlt, Hst |- *.
  apply Forall_app in Hwf as [Hw0 Hwp]. apply Forall_cons in Hwp as [Hwp _].
  assert (Hbelow : Forall (fun x => (KSUID.compare x pivot <? 0) = true) mid0).
  { rewrite Forall_forall in Hw0 |- *. intros x Hx.
    rewrite compare_neg_iff by auto. apply Z.ltb_lt.
    apply (StronglySorted_app_1_elem_of vlt mid0 [pivot] x pivot Hs Hx).
    left. }
  assert (Hhi : Sort.get (pre ++ mid0 ++ pivot :: post)
                  (Z.of_nat (length pre + length mid0)) = Ok pivot).
  { replace (pre ++ mid0 ++ pivot :: post)
      with ((pre ++ mid0) ++ pivot :: post)
      by (rewrite <- !app_assoc; reflexivity).
    replace (length pre + length mid0)%nat with (length (pre ++ mid0))
      by (rewrite length_app; lia).
    apply Sort_get_app. }
  replace (pre ++ (mid0 ++ [pivot]) ++ post)
    with (pre ++ mid0 ++ pivot :: post)
    by (rewrite <- !app_assoc; reflexivity).
  replace (Z.of_nat (length pre + (length mid0 + 1)) - 1)
    with (Z.of_nat (length pre + length mid0)) by lia.
  rewrite Hhi. cbn [bindR].
  pose proof (partition_below pivot (length mid0) mid0 [] pre (pivot :: post)
                eq_refl Hbelow) as Ep.
  cbn [app length] in Ep. rewrite !Nat.add_0_r in Ep.
  replace (Z.to_nat (Z.of_nat (length pre + length mid0)
                     - Z.of_nat (length pre))) with (length mid0) by lia.
  rewrite Ep. cbn [bindR].
  replace (Z.of_nat (length pre + length mid0) - 1 + 1)
    with (Z.of_nat (length pre + length mid0)) by lia.
  rewrite Hhi. cbn [bindR].
  rewrite compare_neg_iff by assumption. rewrite Z.ltb_irrefl.
  cbn [bindR].
  rewrite (IH mid0 pre (pivot :: post) Hw0); [reflexivity| |lia].
  apply StronglySorted_app_1_l in Hs. exact Hs.
Qed.

(** [isSorted] is the chain of adjacent comparisons. *)
Lemma isSorted_from_Sorted (min : KSUID.t) (rest : list KSUID.t) :
  Forall KSUID.wf (min :: rest) ->
  Sort.isSorted_from min rest = true <-> StronglySorted vle (min :: rest).
Proof.
  revert min. induction rest as [|x rest IH]; intros min Hwf.
  - cbn. split; [intros _; repeat constructor|reflexivity].
  - cbn [Sort.isSorted_from].
    inversion Hwf as [|? ? Hm Hwf']; subst.
    inversion Hwf' as [|? ? Hx _]; subst.
    rewrite compare_pos_iff by assumption.
    destruct (Z.ltb_spec (value x) (value min)) as [Hlt|Hge].
    + split; [discriminate|]. intros H.
      apply StronglySorted_inv in H as [_ H].
      inversion H as [|? ? Hmx _]; subst. unfold vle in Hmx. lia.
    + rewrite (IH x Hwf'). split.
      * intros H. constructor; [exact H|].
        constructor; [exact Hge|].
        apply StronglySorted_inv in H as [_ H].
        eapply Forall_impl; [exact H|]. cbn beta. unfold vle. intros y Hy. lia.
      * intros H. apply StronglySorted_inv in H as [H _]. exact H.
Qed.

(** [sort] returns the array in ascending order, or finds the call stack
    exhausted; the latter only on two or more identifiers, and with room for
    fewer calls than there are identifiers. *)
Lemma sort_spec (stack : nat) (ids : list KSUID.t) :
  Forall KSUID.wf ids ->
  (exists out,
     Sort.sort stack ids = Ok out /\ out ≡ₚ ids /\ StronglySorted vle out)
  \/ (Sort.sort stack ids = Err RangeError
      /\ (stack < length ids)%nat /\ (2 <= length ids)%nat).
Proof.
  intros Hwf. unfold Sort.sort.
  destruct (Nat.leb_spec (length ids) 1) as [Hle|Hgt].
  - left. exists ids. split; [reflexivity|split; [reflexivity|]].
    destruct ids as [|x [|y ids]]; [constructor|repeat constructor|].
    cbn [length] in Hle. lia.
  - destruct (quickSort_spec stack ids [] [] Hwf)
      as [(out & E & Hp & Hs)|[E Hs]];
      cbn [app length Nat.add] in E; rewrite !app_nil_r in E;
      change (Z.of_nat 0) with 0 in E; rewrite E.
    + left. exists out. auto.
    + right. split; [reflexivity|lia].
Qed.

(** X12. [sort] on an array of 20-byte identifiers, with room on the call
    stack for [stack] nested calls of [quickSort].  With room for as many
    calls as the array has identifiers, [sort] returns a rearrangement of
    the array that is in ascending order of the 160-bit numbers, and that
    [isSorted] accepts.  With any room, what [sort] returns is such a
    rearrangement, and what it throws is the RangeError of the exhausted
    call stack, with room for fewer calls than the array has identifiers.
    An array of two or more identifiers in strictly ascending order exhausts
    every call stack with room for fewer calls than it has identifiers. *)
Theorem sort_sorts (stack : nat) (ids : list KSUID.t) :
  Forall KSUID.wf ids ->
  ((length ids <= stack)%nat ->
   exists out,
     Sort.sort stack ids = Ok out /\ out ≡ₚ ids /\ StronglySorted vle out
     /\ Sort.isSorted out = true) /\
  (forall out,
     Sort.sort stack ids = Ok out ->
     out ≡ₚ ids /\ StronglySorted vle out /\ Sort.isSorted out = true) /\
  (forall e,
     Sort.sort stack ids = Err e ->
     e = RangeError /\ (stack < length ids)%nat) /\
  (StronglySorted vlt ids -> (2 <= length ids)%nat ->
   (stack < length ids)%nat ->
   Sort.sort stack ids = Err RangeError).
Proof.
  intros Hwf.
  assert (Hacc : forall out,
            out ≡ₚ ids -> StronglySorted vle out -> Sort.isSorted out = true).
  { intros out Hp Hs. destruct out as [|x out]; [reflexivity|].
    cbn [Sort.isSorted]. apply isSorted_from_Sorted; [|exact Hs].
    rewrite Hp. exact Hwf. }
  pose proof (sort_spec stack ids Hwf) as Hsp.
  split; [|split; [|split]].
  - intros Hroom. destruct Hsp as [(out & E & Hp & Hs)|(E & Hlt & _)]; [|lia].
    exists out. auto.
  - intros out Eo. destruct Hsp as [(out' & E & Hp & Hs)|(E & _)];
      [|congruence].
    assert (out' = out) by congruence. subst out'. auto.
  - intros e Ee. destruct Hsp as [(out' & E & _)|(E & Hlt & _)];
      [congruence|].
    split; [congruence|exact Hlt].
  - intros Hs H2 Hlt. unfold Sort.sort.
    destruct (Nat.leb_spec (length ids) 1) as [Hle|_]; [lia|].
    pose proof (quickSort_ascending stack ids [] [] Hwf Hs ltac:(lia)) as E.
    cbn [app length Nat.add] in E. rewrite !app_nil_r in E. exact E.
Qed.

(** X12 (instance). Three identifiers out of order and room for three
    calls; three identifiers in order and room for two. *)
Lemma sort_sorts_witness :
  (exists out,
     Sort.sort 3 [ident 2 7; ident 1 9; ident 2 3] = Ok out
     /\ out ≡ₚ [ident 2 7; ident 1 9; ident 2 3]
     /\ StronglySorted vle out /\ Sort.isSorted out = true) /\
  Sort.sort 2 [ident 1 9; ident 2 3; ident 2 7] = Err RangeError.
Proof.
  split.
  - apply (sort_sorts 3 [ident 2 7; ident 1 9; ident 2 3]).
    + repeat constructor.
    + cbn [length]. lia.
  - apply (sort_sorts 2 [ident 1 9; ident 2 3; ident 2 7]).
    + repeat constructor.
    + repeat (constructor; [|repeat (constructor; [vm_compute; reflexivity|])];
              try constructor).
    + cbn [length]. lia.
    + cbn [length]. lia.
Defined.

(** X13. On an array of 20-byte identifiers [isSorted] returns true exactly
    when every identifier is at most every later one, in the order of the
    160-bit numbers; in particular on the empty array and on arrays that
    hold an identifier twice in a row. *)
Theorem isSorted_iff (ids : list KSUID.t) :
  Forall KSUID.wf ids ->
  Sort.isSorted ids = true
  <-> (forall (i j : nat) (a b : KSUID.t),
         (i < j)%nat -> ids !! i = Some a -> ids !! j = Some b ->
         value a <= value b).
Proof.
  intros Hwf.
  assert (H : Sort.isSorted ids = true <-> StronglySorted vle ids).
  { destruct ids as [|x ids]; [split; [constructor|reflexivity]|].
    apply isSorted_from_Sorted. exact Hwf. }
  rewrite H. clear H Hwf. induction ids as [|x ids IH].
  - split; [|constructor]. intros _ i j a b _ Hi. rewrite lookup_nil in Hi.
    discriminate.
  - split.
    + intros Hs i j a b Hij Hi Hj.
      apply StronglySorted_inv in Hs as [Hs Hx].
      destruct j as [|j]; [lia|]. cbn in Hj.
      destruct i as [|i].
      * cbn in Hi. injection Hi as <-.
        rewrite Forall_forall in Hx. apply Hx.
        eapply list_elem_of_lookup_2. exact Hj.
      * cbn in Hi. apply (proj1 IH Hs i j); [lia|assumption..].
    + intros Hall. constructor.
      * apply IH. intros i j a b Hij Hi Hj.
        apply (Hall (S i) (S j)); [lia|exact Hi|exact Hj].
      * rewrite Forall_forall. intros y Hy.
        apply list_elem_of_lookup_1 in Hy as [j Hj].
        apply (Hall 0%nat (S j)); [lia|reflexivity|exact Hj].
Qed.

(** X13 (instance). *)
Lemma isSorted_iff_witness :
  Sort.isSorted [ident 1 9; ident 2 3; ident 2 3] = true
  <-> (forall (i j : nat) (a b : KSUID.t),
         (i < j)%nat -> [ident 1 9; ident 2 3; ident 2 3] !! i = Some a ->
         [ident 1 9; ident 2 3; ident 2 3] !! j = Some b ->
         value a <= value b).
Proof.
  apply (isSorted_iff [ident 1 9; ident 2 3; ident 2 3]).
  repeat constructor.
Defined.

(** ** Records of the compressed format *)

Lemma parts_of (k : KSUID.t) :
  KSUID.wf k ->
  KSUID.timestamp k = Ok (tsOf k) /\
  Uint128.uint128Payload (KSUID.toBuffer k) = Ok (plOf k) /\
  0 <= tsOf k <= 0xffffffff /\ Uint128.wf (plOf k) /\
  k = assemble (tsOf k) (plOf k) /\
  value k = tsOf k * 2 ^ 128 + Uint128.toZ (plOf k).
Proof.
  intros Hwf. destruct (decompose_assemble k Hwf) as (ts & x & Hts & Hx & Et & Ep & Ek).
  unfold tsOf, plOf, KSUID.toBuffer. rewrite Et, Ep.
  split; [reflexivity|]. split; [reflexivity|]. split; [exact Hts|].
  split; [exact Hx|]. split; [exact Ek|].
  rewrite Ek. apply assemble_value; assumption.
Qed.

Lemma assemble_parts (ts : Z) (x : Uint128.t) :
  Uint128.wf x -> 0 <= ts <= 0xffffffff ->
  tsOf (assemble ts x) = ts /\ plOf (assemble ts x) = x.
Proof.
  intros Hx Hts.
  destruct (parts_of (assemble ts x) (assemble_wf ts x)) as (_ & _ & Ht & Hp & _ & Hv).
  rewrite assemble_value in Hv by assumption.
  pose proof (toZ_range x Hx). pose proof (toZ_range _ Hp).
  assert (tsOf (assemble ts x) = ts) by nia.
  split; [assumption|]. apply toZ_inj; [assumption..|nia].
Qed.

Lemma payload_of (k : KSUID.t) :
  KSUID.wf k ->
  KSUID.payload k
  = Buf.be_bytes 8 (Uint128.high (plOf k)) ++ Buf.be_bytes 8 (Uint128.low (plOf k))
  /\ KSUID.buffer k = Buf.be_bytes 4 (tsOf k) ++ KSUID.payload k.
Proof.
  intros Hwf. destruct (parts_of k Hwf) as (_ & _ & _ & _ & Ek & _).
  assert (E : KSUID.buffer k
              = Buf.be_bytes 4 (tsOf k)
                ++ Buf.be_bytes 8 (Uint128.high (plOf k))
                ++ Buf.be_bytes 8 (Uint128.low (plOf k))).
  { rewrite Ek at 1. reflexivity. }
  unfold KSUID.payload, Buf.subarray. rewrite E.
  rewrite drop_app_length' by (rewrite be_bytes_length; reflexivity).
  rewrite take_ge; [auto|].
  rewrite !length_app, !be_bytes_length. unfold KSUID.TIMESTAMP_LENGTH. lia.
Qed.

(** The low-order bytes of a number. *)
Lemma be_bytes_low (n : nat) (a v : Z) :
  Buf.be_bytes n (a * 256 ^ Z.of_nat n + v) = Buf.be_bytes n v.
Proof.
  revert a v. induction n as [|n IH]; intros a v; [reflexivity|].
  cbn [Buf.be_bytes]. rewrite Nat2Z.inj_succ, Z.pow_succ_r by lia.
  replace ((a * (256 * 256 ^ Z.of_nat n) + v) / 256)
    with (a * 256 ^ Z.of_nat n + v / 256).
  2:{ replace (a * (256 * 256 ^ Z.of_nat n) + v)
        with (v + (a * 256 ^ Z.of_nat n) * 256) by lia.
      rewrite Z.div_add by lia. lia. }
  rewrite IH. f_equal. f_equal.
  rewrite <- (to_uint8_mod (a * _ + v)), <- (to_uint8_mod v). f_equal.
  replace (a * (256 * 256 ^ Z.of_nat n) + v)
    with (v + (a * 256 ^ Z.of_nat n) * 256) by lia.
  apply Z.mod_add. lia.
Qed.

Lemma drop_be_value (b : Buffer) (n : nat) :
  (n <= length b)%nat ->
  drop (length b - n) b = Buf.be_bytes n (Buf.be_value b).
Proof.
  intros Hn. rewrite <- (take_drop (length b - n) b) at 3.
  rewrite be_value_app.
  assert (Hl : length (drop (length b - n) b) = n) by (rewrite length_drop; lia).
  rewrite Hl, be_bytes_low. rewrite <- Hl at 2.
  symmetry. apply be_bytes_be_value.
Qed.

Lemma be_value_zeros (k : nat) (b : Buffer) :
  Buf.be_value (replicate k x00 ++ b) = Buf.be_value b.
Proof.
  induction k as [|k IH]; [reflexivity|].
  cbn [replicate app]. rewrite be_value_cons, IH.
  change (byte_val x00) with 0. lia.
Qed.

(** A field of [n] bytes copied to the end of a zeroed buffer of [w]. *)
Lemma copy_padded (w n : nat) (f : Buffer) :
  length f = n -> (n <= w)%nat ->
  Buf.copy f (Buf.alloc w) (Z.of_nat w - Z.of_nat (length f))
  = Ok (replicate (w - n) x00 ++ f).
Proof.
  intros Hf Hn. unfold Buf.copy.
  destruct (Z.ltb_spec (Z.of_nat w - Z.of_nat (length f)) 0); [lia|].
  f_equal. rewrite copy_at_fits by (rewrite alloc_length; lia).
  unfold Buf.alloc. rewrite Hf.
  replace (Z.to_nat (Z.of_nat w - Z.of_nat n)) with (w - n)%nat by lia.
  rewrite take_replicate, drop_replicate.
  replace (w - (w - n + n))%nat with 0%nat by lia.
  replace (Nat.min (w - n) w) with (w - n)%nat by lia.
  cbn [replicate]. rewrite app_nil_r. reflexivity.
Qed.

Lemma readVarint32_be_bytes (n : nat) (v : Z) :
  (n <= 4)%nat -> 0 <= v < 256 ^ Z.of_nat n ->
  readVarint32 (Buf.be_bytes n v) = Ok v.
Proof.
  intros Hn Hv. unfold readVarint32.
  rewrite (copy_padded 4 n) by (try apply be_bytes_length; lia).
  cbn [bindR]. unfold Buf.readUInt32BE.
  rewrite length_app, length_replicate, be_bytes_length.
  destruct (Nat.leb_spec (0 + 4) (4 - n + n)); [|lia].
  rewrite drop_0, take_ge
    by (rewrite length_app, length_replicate, be_bytes_length; lia).
  rewrite be_value_zeros, be_value_be_bytes_small by assumption. reflexivity.
Qed.

Lemma readVarint64_be_bytes (n : nat) (v : Z) :
  (n <= 8)%nat -> 0 <= v < 256 ^ Z.of_nat n -> v < 2 ^ 53 ->
  readVarint64 (Buf.be_bytes n v) = Ok v.
Proof.
  intros Hn Hv Hs. unfold readVarint64.
  rewrite (copy_padded 8 n) by (try apply be_bytes_length; lia).
  cbn [bindR]. unfold Buf.readBigUInt64BE.
  rewrite length_app, length_replicate, be_bytes_length.
  destruct (Nat.leb_spec (0 + 8) (8 - n + n)); [|lia].
  rewrite drop_0, take_ge
    by (rewrite length_app, length_replicate, be_bytes_length; lia).
  rewrite be_value_zeros, be_value_be_bytes_small by assumption.
  cbn [bindR]. unfold JS.Number. rewrite round53_small by lia. reflexivity.
Qed.

Lemma readVarint128_be_bytes (n : nat) (d : Uint128.t) :
  (n <= 16)%nat -> Uint128.wf d -> Uint128.toZ d < 256 ^ Z.of_nat n ->
  readVarint128 (Buf.be_bytes n (Uint128.toZ d)) = Ok d.
Proof.
  intros Hn Hd Hv. pose proof (toZ_range d Hd) as Hr. unfold readVarint128.
  rewrite (copy_padded 16 n) by (try apply be_bytes_length; lia).
  cbn [bindR].
  set (b := replicate (16 - n) x00 ++ Buf.be_bytes n (Uint128.toZ d)).
  assert (Hl : length b = 16%nat).
  { subst b. rewrite length_app, length_replicate, be_bytes_length. lia. }
  assert (Hb : Buf.be_value b = Uint128.toZ d).
  { subst b. rewrite be_value_zeros. apply be_value_be_bytes_small. lia. }
  rewrite makeUint128FromPayload_16 by exact Hl. f_equal.
  assert (Hsplit : Buf.be_value b
                   = Buf.be_value (take 8 b) * 2 ^ 64 + Buf.be_value (drop 8 b)).
  { rewrite <- (take_drop 8 b) at 1. rewrite be_value_app, length_drop, Hl.
    reflexivity. }
  pose proof (be_value_range (take 8 b)) as Ht.
  pose proof (be_value_range (drop 8 b)) as Hdr.
  rewrite length_take, Hl in Ht. rewrite length_drop, Hl in Hdr.
  change (256 ^ Z.of_nat (8 `min` 16)) with (2 ^ 64) in Ht.
  change (256 ^ Z.of_nat (16 - 8)) with (2 ^ 64) in Hdr.
  apply toZ_inj; [split; cbn [Uint128.low Uint128.high]; lia|exact Hd|].
  unfold Uint128.toZ at 1. cbn [Uint128.low Uint128.high]. lia.
Qed.

(** The tag byte gives back the kind and the length. *)
Lemma tagByte_split (tag len : Z) :
  tag = RAW_KSUID \/ tag = TIME_DELTA \/ tag = PAYLOAD_DELTA
  \/ tag = PAYLOAD_RANGE ->
  0 <= len <= 16 ->
  tag_of (tagByte tag len) = tag /\ cnt_of (tagByte tag len) = len.
Proof.
  intros Ht Hl.
  assert (Hc : len = 0 \/ len = 1 \/ len = 2 \/ len = 3 \/ len = 4 \/ len = 5
               \/ len = 6 \/ len = 7 \/ len = 8 \/ len = 9 \/ len = 10
               \/ len = 11 \/ len = 12 \/ len = 13 \/ len = 14 \/ len = 15
               \/ len = 16) by lia.
  destruct Ht as [->|[->|[->| ->]]];
    destruct Hc as [->|[->|[->|[->|[->|[->|[->|[->|[->|[->|[->|[->|[->|[->|[->|[->| ->]]]]]]]]]]]]]]]];
    vm_compute; split; reflexivity.
Qed.

(** [next] outside a run and before the end of the buffer: the tag byte is
    read, and the record behind it is decoded. *)
Lemma next_record (s : CompressedSetIter.t) (x : byte) :
  seqlength s <= 0 ->
  content s !! offset s = Some x ->
  next s
  = ((if tag_of x =? RAW_KSUID then caseRaw
      else if tag_of x =? TIME_DELTA then caseTimeDelta (cnt_of x)
      else if tag_of x =? PAYLOAD_DELTA then casePayloadDelta (cnt_of x)
      else if tag_of x =? PAYLOAD_RANGE then casePayloadRange (cnt_of x)
      else throwS (Thrown malformedData)) ;; retS true)
      (mkIter (ksuid s) (content s) (offset s + 1) (seqlength s)
         (timestamp s) (lastValue s)).
Proof.
  intros Hseq Hx.
  pose proof (lookup_lt_Some _ _ _ Hx) as Hoff.
  unfold next at 1. unfold bindS at 1. unfold getS at 1.
  destruct (Z.ltb_spec 0 (seqlength s)); [lia|].
  destruct (Nat.leb_spec (length (content s)) (offset s)); [lia|].
  rewrite Hx, next_mask. fold (tag_of x) (cnt_of x).
  unfold bindS at 1. unfold set_offset at 1. reflexivity.
Qed.

Lemma subarray_mid (pre mid post : Buffer) :
  Buf.subarray (pre ++ mid ++ post) (length pre) (length pre + length mid) = mid.
Proof.
  unfold Buf.subarray. rewrite drop_app_length.
  replace (length pre + length mid - length pre)%nat with (length mid) by lia.
  apply take_app_length.
Qed.

(** A Raw record. *)
Lemma next_raw (pre rest : Buffer) (id k : KSUID.t) (sq ts : Z)
    (last : Uint128.t) :
  KSUID.wf id -> sq <= 0 ->
  next (mkIter k (pre ++ tagByte RAW_KSUID 0 :: KSUID.buffer id ++ rest)
          (length pre) sq ts last)
  = (Ok true,
     mkIter id (pre ++ tagByte RAW_KSUID 0 :: KSUID.buffer id ++ rest)
       (length pre + 21) sq (tsOf id) (plOf id)).
Proof.
  intros Hwf Hsq.
  destruct (parts_of id Hwf) as (Et & Ep & _).
  rewrite (next_record _ (tagByte RAW_KSUID 0))
    by (cbn [seqlength content offset];
        first [lia|apply list_lookup_middle; reflexivity]).
  destruct (tagByte_split RAW_KSUID 0) as [-> _]; [auto|lia|].
  cbn [content offset seqlength timestamp lastValue ksuid].
  change (RAW_KSUID =? RAW_KSUID) with true. cbv iota.
  unfold caseRaw, bindS, getS, liftS. cbn [content offset].
  replace (pre ++ tagByte RAW_KSUID 0 :: KSUID.buffer id ++ rest)
    with ((pre ++ [tagByte RAW_KSUID 0]) ++ KSUID.buffer id ++ rest)
    by (rewrite <- app_assoc; reflexivity).
  replace (length pre + 1)%nat with (length (pre ++ [tagByte RAW_KSUID 0]))
    by (rewrite length_app; reflexivity).
  replace 20%nat with (length (KSUID.buffer id)) at 1 by exact Hwf.
  rewrite subarray_mid, (fromBytes_20 _ Hwf).
  replace (KSUID.mk (KSUID.buffer id)) with id by (destruct id; reflexivity).
  unfold set_ksuid, set_offset, set_timestamp, set_lastValue.
  cbn [content offset seqlength timestamp lastValue ksuid].
  rewrite Et, Ep. unfold retS. f_equal. f_equal.
  rewrite length_app. cbn [length]. lia.
Qed.

(** The 4 bytes of a timestamp and 16 bytes of payload written into a new
    20-byte buffer. *)
Lemma header_then_payload (t : Z) (p : Buffer) :
  length p = 16%nat ->
  Buf.copy_at p (Buf.copy_at (Buf.be_bytes 4 t) (Buf.alloc 20) 0) 4
  = Buf.be_bytes 4 t ++ p.
Proof.
  intros Hp.
  rewrite (copy_at_fits (Buf.be_bytes 4 t))
    by (rewrite alloc_length, be_bytes_length; lia).
  rewrite be_bytes_length. unfold Buf.alloc. cbn [replicate take drop app Nat.add].
  rewrite copy_at_fits
    by (rewrite length_app, be_bytes_length, Hp; cbn [length]; lia).
  rewrite take_app_length' by (rewrite be_bytes_length; reflexivity).
  rewrite drop_ge by (rewrite length_app, be_bytes_length, Hp; cbn [length]; lia).
  rewrite app_nil_r. reflexivity.
Qed.

(** A TimeDelta record. *)
Lemma next_time (pre rest : Buffer) (id k : KSUID.t) (sq ts : Z)
    (last : Uint128.t) (n : nat) :
  KSUID.wf id -> sq <= 0 -> 0 <= ts -> ts <= tsOf id ->
  (1 <= n <= 4)%nat -> tsOf id - ts < 256 ^ Z.of_nat n ->
  let c := pre ++ tagByte TIME_DELTA (Z.of_nat n)
               :: Buf.be_bytes n (tsOf id - ts) ++ KSUID.payload id ++ rest in
  next (mkIter k c (length pre) sq ts last)
  = (Ok true, mkIter id c (length pre + 1 + n + 16) sq (tsOf id) (plOf id)).
Proof.
  intros Hwf Hsq Hts Hle Hn Hd c.
  destruct (parts_of id Hwf) as (Et & Ep & Hr & Hp & Ek & _).
  destruct (payload_of id Hwf) as [Epl Ebuf].
  assert (Hlp : length (KSUID.payload id) = 16%nat).
  { rewrite Epl, length_app, !be_bytes_length. reflexivity. }
  rewrite (next_record _ (tagByte TIME_DELTA (Z.of_nat n)))
    by (cbn [seqlength content offset];
        first [lia|apply list_lookup_middle; reflexivity]).
  destruct (tagByte_split TIME_DELTA (Z.of_nat n)) as [-> ->]; [auto|lia|].
  cbn [content offset seqlength timestamp lastValue ksuid].
  change (TIME_DELTA =? RAW_KSUID) with false.
  change (TIME_DELTA =? TIME_DELTA) with true. cbv iota.
  unfold caseTimeDelta, bindS, getS, liftS. cbn [content offset timestamp].
  rewrite Nat2Z.id.
  set (tg := tagByte TIME_DELTA (Z.of_nat n)) in *.
  set (f := Buf.be_bytes n (tsOf id - ts)) in *.
  assert (Hf : length f = n) by apply be_bytes_length.
  assert (E1 : Buf.subarray c (length pre + 1) (length pre + 1 + n) = f).
  { subst c. replace (pre ++ tg :: f ++ KSUID.payload id ++ rest)
      with ((pre ++ [tg]) ++ f ++ KSUID.payload id ++ rest)
      by (rewrite <- app_assoc; reflexivity).
    replace (length pre + 1)%nat with (length (pre ++ [tg]))
      by (rewrite length_app; reflexivity).
    replace (length (pre ++ [tg]) + n)%nat
      with (length (pre ++ [tg]) + length f)%nat by (rewrite Hf; reflexivity).
    apply subarray_mid. }
  assert (E2 : Buf.subarray c (length pre + 1 + n) (length pre + 1 + n + 16)
               = KSUID.payload id).
  { subst c. replace (pre ++ tg :: f ++ KSUID.payload id ++ rest)
      with ((pre ++ [tg] ++ f) ++ KSUID.payload id ++ rest)
      by (rewrite <- !app_assoc; reflexivity).
    replace (length pre + 1 + n)%nat with (length (pre ++ [tg] ++ f))
      by (rewrite !length_app, Hf; cbn [length]; lia).
    replace (length (pre ++ [tg] ++ f) + 16)%nat
      with (length (pre ++ [tg] ++ f) + length (KSUID.payload id))%nat
      by (rewrite Hlp; reflexivity).
    apply subarray_mid. }
  rewrite E1. subst f. rewrite readVarint32_be_bytes by lia.
  unfold set_offset, set_timestamp, set_ksuid, set_lastValue.
  cbn [content offset seqlength timestamp lastValue ksuid].
  rewrite E2. unfold JS.add.
  replace (ts + (tsOf id - ts)) with (tsOf id) by lia.
  rewrite round53_small by lia.
  rewrite writeUInt32BE_fits by (try rewrite alloc_length; lia).
  rewrite (header_then_payload (tsOf id) (KSUID.payload id) Hlp).
  rewrite <- Ebuf, (fromBytes_20 _ Hwf).
  replace (KSUID.mk (KSUID.buffer id)) with id by (destruct id; reflexivity).
  rewrite Ep. reflexivity.
Qed.

(** A PayloadDelta record. *)
Lemma next_delta (pre rest : Buffer) (d : Uint128.t) (k : KSUID.t) (sq ts : Z)
    (last : Uint128.t) (n : nat) :
  Uint128.wf d -> sq <= 0 -> 0 <= ts <= 0xffffffff ->
  (1 <= n <= 16)%nat -> Uint128.toZ d < 256 ^ Z.of_nat n ->
  let c := pre ++ tagByte PAYLOAD_DELTA (Z.of_nat n)
               :: Buf.be_bytes n (Uint128.toZ d) ++ rest in
  next (mkIter k c (length pre) sq ts last)
  = (Ok true,
     mkIter (assemble ts (Uint128.add last d)) c (length pre + 1 + n) sq ts
       (Uint128.add last d)).
Proof.
  intros Hd Hsq Hts Hn Hv c.
  rewrite (next_record _ (tagByte PAYLOAD_DELTA (Z.of_nat n)))
    by (cbn [seqlength content offset];
        first [lia|apply list_lookup_middle; reflexivity]).
  destruct (tagByte_split PAYLOAD_DELTA (Z.of_nat n)) as [-> ->]; [auto|lia|].
  cbn [content offset seqlength timestamp lastValue ksuid].
  change (PAYLOAD_DELTA =? RAW_KSUID) with false.
  change (PAYLOAD_DELTA =? TIME_DELTA) with false.
  change (PAYLOAD_DELTA =? PAYLOAD_DELTA) with true. cbv iota.
  unfold casePayloadDelta, bindS, getS, liftS.
  cbn [content offset timestamp lastValue].
  rewrite Nat2Z.id.
  set (tg := tagByte PAYLOAD_DELTA (Z.of_nat n)) in *.
  set (f := Buf.be_bytes n (Uint128.toZ d)) in *.
  assert (Hf : length f = n) by apply be_bytes_length.
  assert (E1 : Buf.subarray c (length pre + 1) (length pre + 1 + n) = f).
  { subst c. replace (pre ++ tg :: f ++ rest)
      with ((pre ++ [tg]) ++ f ++ rest)
      by (rewrite <- app_assoc; reflexivity).
    replace (length pre + 1)%nat with (length (pre ++ [tg]))
      by (rewrite length_app; reflexivity).
    replace (length (pre ++ [tg]) + n)%nat
      with (length (pre ++ [tg]) + length f)%nat by (rewrite Hf; reflexivity).
    apply subarray_mid. }
  rewrite E1. subst f. rewrite readVarint128_be_bytes by (assumption || lia).
  unfold set_offset, set_ksuid, set_lastValue.
  cbn [content offset seqlength timestamp lastValue ksuid].
  pose proof (materialise ts (Uint128.add last d) (add_wf _ _) Hts) as Hm.
  destruct (Uint128.ksuid (Uint128.add last d) ts) as [b|e];
    cbn [bindR] in Hm; [|discriminate].
  rewrite Hm. reflexivity.
Qed.

(** ** The failures of [next] *)

(** A varint field of at most 16 bytes, complete or cut short, is read as
    the number its bytes stand for. *)
Lemma readVarint128_short (b : Buffer) :
  (length b <= 16)%nat ->
  exists d, readVarint128 b = Ok d /\ Uint128.wf d
            /\ Uint128.toZ d = Buf.be_value b.
Proof.
  intros Hb. unfold readVarint128.
  rewrite (copy_padded 16 (length b)) by (reflexivity || lia).
  cbn [bindR].
  set (bb := replicate (16 - length b) x00 ++ b).
  assert (Hl : length bb = 16%nat).
  { subst bb. rewrite length_app, length_replicate. lia. }
  rewrite makeUint128FromPayload_16 by exact Hl.
  eexists. split; [reflexivity|].
  pose proof (be_value_range (take 8 bb)) as Ht.
  pose proof (be_value_range (drop 8 bb)) as Hdr.
  rewrite length_take, Hl in Ht. rewrite length_drop, Hl in Hdr.
  change (256 ^ Z.of_nat (8 `min` 16)) with (2 ^ 64) in Ht.
  change (256 ^ Z.of_nat (16 - 8)) with (2 ^ 64) in Hdr.
  split; [split; cbn [Uint128.low Uint128.high]; lia|].
  unfold Uint128.toZ. cbn [Uint128.low Uint128.high].
  rewrite <- (be_value_zeros (16 - length b) b). fold bb.
  rewrite <- (take_drop 8 bb) at 3. rewrite be_value_app, length_drop, Hl.
  reflexivity.
Qed.

(** A PayloadDelta record whose field is cut short by the end of the
    buffer: the bytes that are there are the delta, and the identifier is
    made of the running timestamp, which must fit 32 bits. *)
Lemma next_short_delta (s : CompressedSetIter.t) (x : byte) :
  seqlength s <= 0 ->
  content s !! offset s = Some x ->
  tag_of x = PAYLOAD_DELTA ->
  cnt_of x <= 16 ->
  exists d,
    Uint128.wf d
    /\ Uint128.toZ d
       = Buf.be_value (take (Z.to_nat (cnt_of x))
                         (drop (offset s + 1) (content s)))
    /\ (0 <= timestamp s <= 0xffffffff ->
        next s
        = (Ok true,
           mkIter (assemble (timestamp s) (Uint128.add (lastValue s) d))
             (content s) (offset s + 1 + Z.to_nat (cnt_of x)) (seqlength s)
             (timestamp s) (Uint128.add (lastValue s) d)))
    /\ (timestamp s < 0 \/ 0xffffffff < timestamp s ->
        fst (next s) = Err RangeError).
Proof.
  intros Hseq Hx Htag Hcnt.
  destruct (readVarint128_short
              (take (Z.to_nat (cnt_of x)) (drop (offset s + 1) (content s))))
    as (d & Hd & Hwd & Hv).
  { rewrite length_take. lia. }
  exists d. split; [exact Hwd|]. split; [exact Hv|].
  rewrite (next_record s x Hseq Hx). rewrite Htag.
  change (PAYLOAD_DELTA =? RAW_KSUID) with false.
  change (PAYLOAD_DELTA =? TIME_DELTA) with false.
  change (PAYLOAD_DELTA =? PAYLOAD_DELTA) with true. cbv iota.
  unfold casePayloadDelta, bindS, getS, liftS.
  cbn [content offset timestamp lastValue].
  unfold Buf.subarray.
  replace (offset s + 1 + Z.to_nat (cnt_of x) - (offset s + 1))%nat
    with (Z.to_nat (cnt_of x)) by lia.
  rewrite Hd.
  unfold set_offset, set_ksuid, set_lastValue.
  cbn [content offset seqlength timestamp lastValue ksuid].
  split.
  - intros Hts.
    pose proof (materialise (timestamp s) (Uint128.add (lastValue s) d)
                  (add_wf _ _) Hts) as Hm.
    destruct (Uint128.ksuid (Uint128.add (lastValue s) d) (timestamp s))
      as [b|e]; cbn [bindR] in Hm; [|discriminate].
    rewrite Hm. reflexivity.
  - intros Hts. unfold Uint128.ksuid, Buf.writeUInt32BE.
    destruct Hts as [Hts|Hts].
    + destruct (Z.ltb_spec (timestamp s) 0); [reflexivity|lia].
    + destruct (Z.ltb_spec 4294967295 (timestamp s)); [|lia].
      rewrite orb_true_r. reflexivity.
Qed.

(** C4 (amended). For every state of the iterator, [next] fails only with
    the invalid buffer length error of the identifier constructor or with a
    RangeError of the host, never with the malformed data error: the two
    kind bits of a tag byte always select one of the four records.  A Raw
    record with fewer than twenty bytes after the tag fails with the invalid
    buffer length error.  A PayloadDelta record that declares at most 16
    bytes is read whether or not those bytes are all present: the delta is
    the number the bytes that are present stand for, the missing ones
    reading as leading zeros.  The call then returns true, with the
    identifier made of the running timestamp and of the last payload plus
    that delta and with the offset behind the declared field, when the
    running timestamp is within 0 .. 2^32 - 1; when it is not, the call
    fails with the RangeError. *)
Theorem next_failure_kinds (s : CompressedSetIter.t) :
  (forall e, fst (next s) = Err e ->
             e = Thrown invalidBufferLength \/ e = RangeError) /\
  fst (next s) <> Err (Thrown malformedData) /\
  (forall x, seqlength s <= 0 ->
             content s !! offset s = Some x ->
             tag_of x = RAW_KSUID ->
             (length (content s) < offset s + 21)%nat ->
             fst (next s) = Err (Thrown invalidBufferLength)) /\
  (forall x, seqlength s <= 0 ->
             content s !! offset s = Some x ->
             tag_of x = PAYLOAD_DELTA ->
             cnt_of x <= 16 ->
             exists d,
               Uint128.wf d
               /\ Uint128.toZ d
                  = Buf.be_value (take (Z.to_nat (cnt_of x))
                                    (drop (offset s + 1) (content s)))
               /\ (0 <= timestamp s <= 0xffffffff ->
                   next s
                   = (Ok true,
                      mkIter
                        (assemble (timestamp s)
                           (Uint128.add (lastValue s) d))
                        (content s) (offset s + 1 + Z.to_nat (cnt_of x))
                        (seqlength s) (timestamp s)
                        (Uint128.add (lastValue s) d)))
               /\ (timestamp s < 0 \/ 0xffffffff < timestamp s ->
                   fst (next s) = Err RangeError)).
Proof.
  assert (Hb : forall e, fst (next s) = Err e -> benign e).
  { intros e He. destruct (next s) as [r s'] eqn:E. cbn [fst] in He. subst r.
    exact (benignS_next s e s' E). }
  split; [exact Hb|]. split.
  - intros He. destruct (Hb _ He) as [H|H]; discriminate H.
  - split; intros x.
    + apply next_truncated_raw.
    + apply next_short_delta.
Qed.

(** C4 (instance). A Raw tag followed by three bytes fails with the invalid
    buffer length error.  A PayloadDelta tag that declares two bytes with
    one byte, 5, after it is read as delta 5.  After a Raw record with
    timestamp 2^32 - 1 and a TimeDelta record with delta 1 the running
    timestamp is 2^32, and a PayloadDelta record fails with the
    RangeError. *)
Lemma next_failure_kinds_witness :
  fst (next (CompressedSetIter.new [x00; x01; x02; x03]%byte))
  = Err (Thrown invalidBufferLength) /\
  (exists d,
     Uint128.toZ d = 5 /\
     next (CompressedSetIter.new [x82; x05]%byte)
     = (Ok true,
        mkIter (assemble 0 (Uint128.add Uint128.zero d)) [x82; x05]%byte 3 0 0
          (Uint128.add Uint128.zero d))) /\
  (let buf := ([x00; xff; xff; xff; xff] ++ replicate 16 x07
               ++ [x41; x01] ++ replicate 16 x07 ++ [x81; x05])%byte in
   let s := snd (next (snd (next (CompressedSetIter.new buf)))) in
   offset s = 39%nat /\ timestamp s = 4294967296 /\
   fst (next s) = Err RangeError).
Proof.
  split; [|split].
  - apply (proj1 (proj2 (proj2 (next_failure_kinds
             (CompressedSetIter.new [x00; x01; x02; x03]%byte)))) x00%byte).
    + vm_compute. discriminate.
    + reflexivity.
    + reflexivity.
    + cbn [length content offset CompressedSetIter.new]. lia.
  - destruct (proj2 (proj2 (proj2 (next_failure_kinds
                (CompressedSetIter.new [x82; x05]%byte)))) x82%byte)
      as (d & _ & Hd & Hok & _).
    + vm_compute. discriminate.
    + reflexivity.
    + reflexivity.
    + vm_compute. discriminate.
    + exists d. split; [exact Hd|]. apply Hok. vm_compute.
      split; discriminate.
  - intros buf s. split; [vm_compute; reflexivity|].
    split; [vm_compute; reflexivity|].
    destruct (proj2 (proj2 (proj2 (next_failure_kinds s))) x81%byte)
      as (d & _ & _ & _ & Herr).
    + vm_compute. discriminate.
    + vm_compute. reflexivity.
    + reflexivity.
    + vm_compute. discriminate.
    + apply Herr. right. vm_compute. reflexivity.
Defined.

(** A PayloadRange record with a length field of one byte. *)
Lemma next_range (pre rest : Buffer) (m : Z) (k : KSUID.t) (sq ts : Z)
    (last : Uint128.t) :
  sq <= 0 -> 0 <= ts <= 0xffffffff -> 0 <= m <= 255 ->
  let c := pre ++ tagByte PAYLOAD_RANGE 1 :: to_uint8 m :: rest in
  next (mkIter k c (length pre) sq ts last)
  = (Ok true,
     mkIter (assemble ts (Uint128.incr last)) c (length pre + 2) (m - 1) ts
       (Uint128.incr last)).
Proof.
  intros Hsq Hts Hm c.
  rewrite (next_record _ (tagByte PAYLOAD_RANGE 1))
    by (cbn [seqlength content offset];
        first [lia|apply list_lookup_middle; reflexivity]).
  destruct (tagByte_split PAYLOAD_RANGE 1) as [-> ->]; [auto|lia|].
  cbn [content offset seqlength timestamp lastValue ksuid].
  change (PAYLOAD_RANGE =? RAW_KSUID) with false.
  change (PAYLOAD_RANGE =? TIME_DELTA) with false.
  change (PAYLOAD_RANGE =? PAYLOAD_DELTA) with false.
  change (PAYLOAD_RANGE =? PAYLOAD_RANGE) with true. cbv iota.
  unfold casePayloadRange, bindS, getS, liftS.
  cbn [content offset timestamp lastValue].
  change (Z.to_nat 1) with 1%nat.
  set (tg := tagByte PAYLOAD_RANGE 1) in *.
  assert (E1 : Buf.subarray c (length pre + 1) (length pre + 1 + 1)
               = Buf.be_bytes 1 m).
  { subst c. replace (pre ++ tg :: to_uint8 m :: rest)
      with ((pre ++ [tg]) ++ [to_uint8 m] ++ rest)
      by (rewrite <- app_assoc; reflexivity).
    replace (length pre + 1)%nat with (length (pre ++ [tg]))
      by (rewrite length_app; reflexivity).
    apply (subarray_mid (pre ++ [tg]) [to_uint8 m] rest). }
  rewrite E1, readVarint64_be_bytes
    by (try lia; change (256 ^ Z.of_nat 1) with 256; lia).
  unfold set_offset, set_ksuid, set_lastValue, set_seqlength.
  cbn [content offset seqlength timestamp lastValue ksuid].
  pose proof (materialise ts (Uint128.incr last)) as Hmat.
  rewrite incr_add_one in Hmat |- *. specialize (Hmat (add_wf _ _) Hts).
  destruct (Uint128.ksuid (Uint128.add last Uint128.one) ts) as [b|e];
    cbn [bindR] in Hmat; [|discriminate].
  rewrite Hmat. unfold JS.sub. rewrite round53_small by lia.
  unfold retS. f_equal. f_equal. lia.
Qed.

(** Inside a run [next] gives the successor and reads nothing. *)
Lemma next_play (c : Buffer) (o : nat) (k : KSUID.t) (sq ts : Z)
    (last : Uint128.t) :
  0 < sq < 2 ^ 53 -> 0 <= ts <= 0xffffffff ->
  next (mkIter k c o sq ts last)
  = (Ok true,
     mkIter (assemble ts (Uint128.incr last)) c o (sq - 1) ts
       (Uint128.incr last)).
Proof.
  intros Hsq Hts. unfold next, bindS, getS, liftS.
  cbn [content offset seqlength timestamp lastValue ksuid].
  destruct (Z.ltb_spec 0 sq); [|lia].
  pose proof (materialise ts (Uint128.incr last)) as Hmat.
  rewrite incr_add_one in Hmat |- *. specialize (Hmat (add_wf _ _) Hts).
  destruct (Uint128.ksuid (Uint128.add last Uint128.one) ts) as [b|e];
    cbn [bindR] in Hmat; [|discriminate].
  rewrite Hmat. unfold set_ksuid, set_seqlength, set_lastValue, retS.
  cbn [content offset seqlength timestamp lastValue ksuid].
  unfold JS.sub. rewrite round53_small by lia. reflexivity.
Qed.

(** At the end of the buffer [next] returns false and changes nothing. *)
Lemma next_end (s : CompressedSetIter.t) :
  seqlength s <= 0 -> (length (content s) <= offset s)%nat ->
  next s = (Ok false, s).
Proof.
  intros Hsq Ho. unfold next, bindS, getS.
  destruct (Z.ltb_spec 0 (seqlength s)); [lia|].
  destruct (Nat.leb_spec (length (content s)) (offset s)); [|lia].
  reflexivity.
Qed.

(** ** The turns of the encoder *)

Lemma set_app (out tail : Buffer) (v : Z) :
  (1 <= length tail)%nat ->
  Buf.set (out ++ tail) (length out) v = (out ++ [to_uint8 v]) ++ drop 1 tail.
Proof.
  intros H. destruct tail as [|t0 tail]; [cbn [length] in H; lia|].
  unfold Buf.set. rewrite insert_app_r_alt by lia. rewrite Nat.sub_diag.
  cbn [insert list_insert drop]. rewrite <- app_assoc. reflexivity.
Qed.

Lemma copy_at_app (src out tail : Buffer) :
  (length src <= length tail)%nat ->
  Buf.copy_at src (out ++ tail) (length out)
  = (out ++ src) ++ drop (length src) tail.
Proof.
  intros H. rewrite copy_at_fits by (rewrite length_app; lia).
  rewrite take_app_length, drop_app_ge by lia.
  replace (length out + length src - length out)%nat with (length src) by lia.
  rewrite <- app_assoc. reflexivity.
Qed.

Lemma appendVarint32_field (buf : Buffer) (p : nat) (v : Z) (n : nat) :
  0 <= v <= 0xffffffff -> (1 <= n <= 4)%nat ->
  appendVarint32 buf p v (Z.of_nat n)
  = Ok (Buf.copy_at (Buf.be_bytes n v) buf p).
Proof.
  intros Hv Hn. unfold appendVarint32.
  rewrite writeUInt32BE_fits by (try rewrite alloc_length; lia).
  cbn [bindR]. f_equal. f_equal.
  rewrite copy_at_fits by (rewrite alloc_length, be_bytes_length; lia).
  rewrite be_bytes_length. unfold Buf.alloc, Buf.subarray.
  cbn [replicate take drop Nat.add app]. rewrite app_nil_r.
  replace (Z.to_nat (4 - Z.of_nat n)) with (length (Buf.be_bytes 4 v) - n)%nat
    by (rewrite be_bytes_length; lia).
  rewrite drop_be_value by (rewrite be_bytes_length; lia).
  rewrite take_ge by (rewrite be_bytes_length, be_bytes_length; lia).
  rewrite be_value_be_bytes_small; [reflexivity|].
  change (256 ^ Z.of_nat 4) with 4294967296. lia.
Qed.

Lemma appendVarint64_field (buf : Buffer) (p : nat) (v : Z) (n : nat) :
  0 <= v < 2 ^ 64 -> (1 <= n <= 8)%nat ->
  appendVarint64 buf p v (Z.of_nat n)
  = Ok (Buf.copy_at (Buf.be_bytes n v) buf p).
Proof.
  intros Hv Hn. unfold appendVarint64.
  rewrite writeBigUInt64BE_fits by (try rewrite alloc_length; lia).
  cbn [bindR]. f_equal. f_equal.
  unfold Buf.alloc, Buf.subarray.
  cbn [replicate take drop Nat.add app]. rewrite app_nil_r.
  replace (Z.to_nat (8 - Z.of_nat n)) with (length (Buf.be_bytes 8 v) - n)%nat
    by (rewrite be_bytes_length; lia).
  rewrite drop_be_value by (rewrite be_bytes_length; lia).
  rewrite take_ge by (rewrite be_bytes_length, be_bytes_length; lia).
  rewrite be_value_be_bytes_small; [reflexivity|].
  change (256 ^ Z.of_nat 8) with (2 ^ 64). lia.
Qed.

Lemma appendVarint128_field (buf : Buffer) (p : nat) (d : Uint128.t) (n : nat) :
  Uint128.wf d -> (1 <= n <= 16)%nat ->
  appendVarint128 buf p d (Z.of_nat n)
  = Ok (Buf.copy_at (Buf.be_bytes n (Uint128.toZ d)) buf p).
Proof.
  intros Hd Hn. unfold appendVarint128. rewrite (bytes_eq d Hd).
  cbn [bindR]. f_equal. f_equal.
  set (b := Buf.be_bytes 8 (Uint128.high d) ++ Buf.be_bytes 8 (Uint128.low d)).
  assert (Hl : length b = 16%nat)
    by (subst b; rewrite length_app, !be_bytes_length; reflexivity).
  assert (Hb : Buf.be_value b = Uint128.toZ d).
  { subst b. rewrite be_value_app, be_bytes_length.
    destruct Hd as [Hlo Hhi].
    rewrite !be_value_be_bytes_small
      by (change (256 ^ Z.of_nat 8) with (2 ^ 64); lia).
    reflexivity. }
  unfold Buf.subarray.
  replace (Z.to_nat (16 - Z.of_nat n)) with (length b - n)%nat by lia.
  rewrite drop_be_value by lia.
  rewrite take_ge by (rewrite be_bytes_length; lia).
  rewrite Hb. reflexivity.
Qed.

Lemma Arr_get_Some (u : list KSUID.t) (i : nat) (id : KSUID.t) :
  u !! i = Some id -> Arr.get u i = Ok id.
Proof. intros H. unfold Arr.get. rewrite H. reflexivity. Qed.

Lemma frame2 (out f tail : Buffer) (a : byte) :
  ((out ++ [a]) ++ f) ++ drop (length f) (drop 1 tail)
  = (out ++ a :: f) ++ drop (length (a :: f)) tail.
Proof.
  rewrite drop_drop. cbn [length]. rewrite <- !app_assoc. reflexivity.
Qed.

Lemma frame3 (out f p tail : Buffer) (a : byte) :
  (((out ++ [a]) ++ f) ++ p) ++ drop (length p) (drop (length f) (drop 1 tail))
  = (out ++ a :: f ++ p) ++ drop (length (a :: f ++ p)) tail.
Proof.
  rewrite !drop_drop. cbn [length]. rewrite length_app, <- !app_assoc.
  cbn [app]. rewrite <- app_assoc. reflexivity.
Qed.

(** A turn at an identifier with a later timestamp writes a TimeDelta
    record. *)
Lemma turn_time (u : list KSUID.t) (i : nat) (id : KSUID.t)
    (out tail : Buffer) (ts : Z) (last : Uint128.t) :
  u !! i = Some id -> KSUID.wf id -> 0 <= ts < tsOf id ->
  (21 <= length tail)%nat ->
  loopBody u (mkLoop i (length out) ts last (out ++ tail))
  = Ok (mkLoop i (length (out ++ timeRecord ts id)) (tsOf id) (plOf id)
          ((out ++ timeRecord ts id) ++ drop (length (timeRecord ts id)) tail),
        Next)
  /\ (length (timeRecord ts id) <= 21)%nat.
Proof.
  intros Hget Hwf Hts Htail.
  destruct (parts_of id Hwf) as (Et & Ep & Hr & Hp & _).
  destruct (payload_of id Hwf) as [Epl _].
  assert (Hlp : length (KSUID.payload id) = 16%nat).
  { rewrite Epl, length_app, !be_bytes_length. reflexivity. }
  pose proof (varintLength32_minimal (tsOf id - ts) ltac:(lia)) as (Hn & _).
  cbv zeta in Hn.
  unfold timeRecord.
  set (n := Z.to_nat (varintLength32 (tsOf id - ts))) in *.
  assert (En : varintLength32 (tsOf id - ts) = Z.of_nat n) by lia.
  set (tg := tagByte TIME_DELTA (Z.of_nat n)).
  set (f := Buf.be_bytes n (tsOf id - ts)).
  assert (Hf : length f = n) by apply be_bytes_length.
  split; [|cbn [length]; rewrite length_app, Hf, Hlp; lia].
  unfold loopBody. rewrite (Arr_get_Some _ _ _ Hget). cbn [bindR].
  rewrite Et. cbn [bindR]. rewrite Ep. cbn [bindR].
  destruct (Z.eqb_spec (tsOf id) ts) as [E|_]; [lia|]. cbn [negb].
  unfold JS.sub. rewrite round53_small by lia. rewrite En.
  rewrite set_app by lia. fold (tagByte TIME_DELTA (Z.of_nat n)). fold tg.
  replace (S (length out)) with (length (out ++ [tg]))
    by (rewrite length_app; cbn [length]; lia).
  rewrite appendVarint32_field by lia. fold f. cbn [bindR].
  rewrite copy_at_app by (rewrite length_drop; lia).
  rewrite Nat2Z.id.
  replace (length (out ++ [tg]) + n)%nat with (length ((out ++ [tg]) ++ f))
    by (rewrite (length_app _ f), Hf; reflexivity).
  rewrite copy_at_app by (rewrite !length_drop; lia).
  rewrite frame3. do 2 f_equal. f_equal.
  rewrite !length_app. cbn [length]. rewrite !length_app. cbn [length]. lia.
Qed.

(** A turn at an identifier of the same timestamp whose payload is not the
    successor of the last one writes a PayloadDelta record. *)
Lemma turn_delta (u : list KSUID.t) (i : nat) (id : KSUID.t)
    (out tail : Buffer) (ts : Z) (last : Uint128.t) :
  u !! i = Some id -> KSUID.wf id -> tsOf id = ts ->
  Uint128.sub (plOf id) last <> Uint128.one ->
  (17 <= length tail)%nat ->
  let rec := deltaRecord (Uint128.sub (plOf id) last) in
  loopBody u (mkLoop i (length out) ts last (out ++ tail))
  = Ok (mkLoop i (length (out ++ rec)) ts (plOf id)
          ((out ++ rec) ++ drop (length rec) tail), Next)
  /\ (length rec <= 17)%nat.
Proof.
  intros Hget Hwf Hts Hne Htail rec.
  destruct (parts_of id Hwf) as (Et & Ep & Hr & Hp & _).
  pose proof (sub_wf (plOf id) last) as Hd.
  pose proof (varintLength128_minimal _ Hd) as (Hn & _). cbv zeta in Hn.
  subst rec. unfold deltaRecord.
  set (d := Uint128.sub (plOf id) last) in *.
  set (n := Z.to_nat (varintLength128 d)) in *.
  assert (En : varintLength128 d = Z.of_nat n) by lia.
  set (tg := tagByte PAYLOAD_DELTA (Z.of_nat n)).
  set (f := Buf.be_bytes n (Uint128.toZ d)).
  assert (Hf : length f = n) by apply be_bytes_length.
  split; [|cbn [length]; rewrite Hf; lia].
  unfold loopBody. rewrite (Arr_get_Some _ _ _ Hget). cbn [bindR].
  rewrite Et. cbn [bindR]. rewrite Ep. cbn [bindR].
  destruct (Z.eqb_spec (tsOf id) ts) as [_|E]; [|lia]. cbn [negb].
  fold d.
  destruct (Uint128.equals d Uint128.one) eqn:Eq;
    [apply equals_true in Eq; contradiction|]. cbn [negb].
  rewrite En. rewrite set_app by lia.
  fold (tagByte PAYLOAD_DELTA (Z.of_nat n)). fold tg.
  replace (S (length out)) with (length (out ++ [tg]))
    by (rewrite length_app; cbn [length]; lia).
  rewrite appendVarint128_field by (assumption || lia). fold f. cbn [bindR].
  rewrite copy_at_app by (rewrite length_drop; lia).
  rewrite frame2. do 2 f_equal. f_equal.
  rewrite Nat2Z.id, !length_app. cbn [length]. rewrite Hf. lia.
Qed.

(** ** Runs *)

Lemma incr_wf (v : Uint128.t) : Uint128.wf (Uint128.incr v).
Proof. rewrite incr_add_one. apply add_wf. Qed.

Lemma incr_toZ (v : Uint128.t) :
  Uint128.wf v ->
  Uint128.toZ (Uint128.incr v) = (Uint128.toZ v + 1) mod 2 ^ 128.
Proof.
  intros Hv. rewrite incr_add_one, add_toZ by (assumption || apply one_wf).
  reflexivity.
Qed.

Lemma incr_neq (v : Uint128.t) : Uint128.wf v -> Uint128.incr v <> v.
Proof.
  intros Hv E. pose proof (incr_toZ v Hv) as H. rewrite E in H.
  pose proof (toZ_range v Hv) as Hr.
  destruct (Z.eq_dec (Uint128.toZ v) (2 ^ 128 - 1)) as [Em|Em].
  - rewrite Em in H. change ((2 ^ 128 - 1 + 1) mod 2 ^ 128) with 0 in H. lia.
  - rewrite Z.mod_small in H by lia. lia.
Qed.

Lemma advance_wf (v : Uint128.t) (m : nat) :
  Uint128.wf v -> Uint128.wf (advance v m).
Proof.
  revert v. induction m as [|m IH]; intros v Hv; [exact Hv|].
  cbn [advance]. apply IH, incr_wf.
Qed.

Lemma advance_S (v : Uint128.t) (m : nat) :
  advance v (S m) = Uint128.incr (advance v m).
Proof.
  revert v. induction m as [|m IH]; intros v; [reflexivity|].
  cbn [advance] in *. rewrite IH. reflexivity.
Qed.

Lemma advance_toZ (v : Uint128.t) (m : nat) :
  Uint128.wf v ->
  Uint128.toZ (advance v m) = (Uint128.toZ v + Z.of_nat m) mod 2 ^ 128.
Proof.
  intros Hv. induction m as [|m IH].
  - cbn [advance]. rewrite Z.add_0_r, Z.mod_small by (apply toZ_range; exact Hv).
    reflexivity.
  - rewrite advance_S, incr_toZ, IH by (apply advance_wf; exact Hv).
    rewrite Zplus_mod_idemp_l. f_equal. lia.
Qed.

Lemma run_ids_length (ts : Z) (v : Uint128.t) (m : nat) :
  length (run_ids ts v m) = m.
Proof.
  revert v. induction m as [|m IH]; intros v; [reflexivity|].
  cbn [run_ids length]. rewrite IH. reflexivity.
Qed.

Lemma run_ids_lookup (ts : Z) (v : Uint128.t) (m j : nat) :
  (j < m)%nat -> run_ids ts v m !! j = Some (assemble ts (advance v (S j))).
Proof.
  revert v j. induction m as [|m IH]; intros v j Hj; [lia|].
  destruct j as [|j]; [reflexivity|].
  cbn [run_ids]. cbn [lookup list_lookup]. rewrite IH by lia. reflexivity.
Qed.

Lemma run_ids_snoc (ts : Z) (v : Uint128.t) (m : nat) :
  run_ids ts v (S m) = run_ids ts v m ++ [assemble ts (advance v (S m))].
Proof.
  revert v. induction m as [|m IH]; intros v; [reflexivity|].
  change (run_ids ts v (S (S m)))
    with (assemble ts (Uint128.incr v) :: run_ids ts (Uint128.incr v) (S m)).
  rewrite IH. reflexivity.
Qed.

Lemma run_ids_wf (ts : Z) (v : Uint128.t) (m : nat) :
  Forall KSUID.wf (run_ids ts v m).
Proof.
  revert v. induction m as [|m IH]; intros v; [constructor|].
  cbn [run_ids]. constructor; [apply assemble_wf|apply IH].
Qed.

Lemma toString_distinct (a b : KSUID.t) :
  KSUID.wf a -> KSUID.wf b -> a <> b ->
  exists s s', KSUID.toString a = Ok s /\ KSUID.toString b = Ok s'
               /\ String.eqb s s' = false.
Proof.
  intros Ha Hb Hne.
  destruct (base62_roundtrip _ Ha) as (s & Es & _).
  destruct (base62_roundtrip _ Hb) as (s' & Es' & _).
  exists s, s'. unfold KSUID.toString. split; [exact Es|split; [exact Es'|]].
  apply String.eqb_neq. intros ->. apply Hne.
  apply toString_inj; [assumption..|]. unfold KSUID.toString. congruence.
Qed.

Lemma assemble_inj (ts : Z) (x y : Uint128.t) :
  Uint128.wf x -> Uint128.wf y -> 0 <= ts <= 0xffffffff ->
  assemble ts x = assemble ts y -> x = y.
Proof.
  intros Hx Hy Hts E.
  destruct (assemble_parts ts x Hx Hts) as [_ Ex].
  destruct (assemble_parts ts y Hy Hts) as [_ Ey].
  rewrite <- Ex, <- Ey, E. reflexivity.
Qed.

(** [rangeLength] counts the run that follows. *)
Lemma rangeLength_run (ts : Z) (rest : list KSUID.t) (m : nat) :
  forall (cur : Uint128.t) (len cnt : nat),
    0 <= ts <= 0xffffffff -> Uint128.wf cur ->
    stops ts (advance cur m) rest ->
    rangeLength_loop (run_ids ts cur m ++ rest) ts (assemble ts cur) cur len cnt
    = Ok ((len + m)%nat, (cnt + m)%nat).
Proof.
  induction m as [|m IH]; intros cur len cnt Hts Hcur Hstop.
  - cbn [run_ids app advance] in *. rewrite !Nat.add_0_r.
    destruct rest as [|d rest]; [reflexivity|].
    destruct Hstop as (Hd & Hne & Hnext).
    cbn [rangeLength_loop].
    destruct (toString_distinct d (assemble ts cur) Hd (assemble_wf _ _) Hne)
      as (s & s' & Es & Es' & Eqs).
    rewrite Es, Es'. cbn [bindR]. rewrite Eqs.
    destruct (parts_of d Hd) as (Et & Ep & _ & Hpd & Ed & _).
    rewrite Et. cbn [bindR].
    destruct (Z.eqb_spec (tsOf d) ts) as [E|E]; [|reflexivity]. cbn [negb].
    rewrite Ep. cbn [bindR].
    destruct (Uint128.equals (plOf d) (Uint128.add cur Uint128.one)) eqn:Eq;
      [|reflexivity].
    apply equals_true in Eq. exfalso. apply Hnext.
    rewrite incr_add_one, <- Eq, <- E. exact Ed.
  - cbn [run_ids app advance] in *. cbn [rangeLength_loop].
    assert (Hne : assemble ts (Uint128.incr cur) <> assemble ts cur).
    { intros E. apply assemble_inj in E; [|apply incr_wf|assumption..].
      exact (incr_neq cur Hcur E). }
    destruct (toString_distinct _ _ (assemble_wf _ _) (assemble_wf _ _) Hne)
      as (s & s' & Es & Es' & Eqs).
    rewrite Es, Es'. cbn [bindR]. rewrite Eqs.
    destruct (parts_of _ (assemble_wf ts (Uint128.incr cur))) as (Et & Ep & _).
    destruct (assemble_parts ts (Uint128.incr cur) (incr_wf _) Hts) as [E1 E2].
    rewrite Et, E1. cbn [bindR]. rewrite Z.eqb_refl. cbn [negb].
    rewrite Ep, E2. cbn [bindR].
    rewrite <- incr_add_one.
    replace (Uint128.equals (Uint128.incr cur) (Uint128.incr cur)) with true
      by (symmetry; apply equals_iff; reflexivity).
    cbn [negb]. rewrite IH by (assumption || apply incr_wf).
    f_equal. f_equal; lia.
Qed.

(** A turn at the successor of the last payload, with no run behind it,
    writes a PayloadDelta record for the difference 1. *)
Lemma turn_one (u : list KSUID.t) (i : nat) (id : KSUID.t)
    (out tail : Buffer) (ts : Z) (last : Uint128.t) :
  u !! i = Some id -> KSUID.wf id -> tsOf id = ts ->
  Uint128.sub (plOf id) last = Uint128.one ->
  stops ts (plOf id) (drop (S i) u) ->
  (2 <= length tail)%nat ->
  let rec := deltaRecord Uint128.one in
  loopBody u (mkLoop i (length out) ts last (out ++ tail))
  = Ok (mkLoop i (length (out ++ rec)) ts (plOf id)
          ((out ++ rec) ++ drop (length rec) tail), Next)
  /\ (length rec <= 17)%nat.
Proof.
  intros Hget Hwf Hts Hone Hstop Htail rec.
  destruct (parts_of id Hwf) as (Et & Ep & Hr & Hp & Ek & _).
  split; [|vm_compute; lia].
  pose proof (rangeLength_run ts (drop (S i) u) 0 (plOf id) 0 0
                ltac:(lia) Hp Hstop) as Hrl.
  cbn [run_ids app Nat.add] in Hrl. rewrite <- Hts, <- Ek in Hrl.
  unfold loopBody. rewrite (Arr_get_Some _ _ _ Hget). cbn [bindR].
  rewrite Et. cbn [bindR]. rewrite Ep. cbn [bindR].
  destruct (Z.eqb_spec (tsOf id) ts) as [_|E]; [|lia]. cbn [negb].
  rewrite Hone.
  change (Uint128.equals Uint128.one Uint128.one) with true. cbn [negb].
  unfold rangeLength. rewrite Nat.add_1_r. rewrite <- Hts at 1. rewrite Hrl.
  cbn [bindR]. change (0 <? 0)%nat with false. cbv iota.
  change (varintLength128 Uint128.one) with 1.
  rewrite set_app by lia.
  replace (S (length out))
    with (length (out ++ [to_uint8 (JS.bor PAYLOAD_DELTA 1)]))
    by (rewrite length_app; cbn [length]; lia).
  rewrite (appendVarint128_field _ _ _ 1) by (try apply one_wf; lia).
  cbn [bindR]. rewrite copy_at_app by (rewrite length_drop; cbn; lia).
  rewrite frame2. subst rec. unfold deltaRecord, tagByte.
  change (varintLength128 Uint128.one) with 1.
  change (Z.to_nat 1) with 1%nat. change (Z.of_nat 1) with 1.
  do 2 f_equal. f_equal.
  rewrite !length_app. cbn [length]. rewrite be_bytes_length. lia.
Qed.

(** A turn at the successor of the last payload, with a run of [m] further
    successors behind it, writes a PayloadRange record for [m + 1], moves
    to the last member of the run, and leaves [lastValue] at its first. *)
Lemma turn_range (u : list KSUID.t) (i : nat) (id : KSUID.t)
    (out tail : Buffer) (ts : Z) (last : Uint128.t) (m : nat)
    (rest : list KSUID.t) :
  u !! i = Some id -> KSUID.wf id -> tsOf id = ts ->
  Uint128.sub (plOf id) last = Uint128.one ->
  drop (S i) u = run_ids ts (plOf id) m ++ rest ->
  (0 < m)%nat -> Z.of_nat m + 1 < 2 ^ 53 ->
  stops ts (advance (plOf id) m) rest ->
  (2 <= length tail)%nat ->
  let rec := rangeRecord (Z.of_nat m + 1) in
  loopBody u (mkLoop i (length out) ts last (out ++ tail))
  = Ok (mkLoop (i + m) (length (out ++ rec)) ts (plOf id)
          ((out ++ rec) ++ drop (length rec) tail), Next).
Proof.
  intros Hget Hwf Hts Hone Hdrop Hm Hsmall Hstop Htail rec.
  destruct (parts_of id Hwf) as (Et & Ep & Hr & Hp & Ek & _).
  pose proof (rangeLength_run ts rest m (plOf id) 0 0
                ltac:(lia) Hp Hstop) as Hrl.
  cbn [Nat.add] in Hrl. rewrite <- Hdrop in Hrl. rewrite <- Hts in Hrl at 2.
  rewrite <- Ek in Hrl.
  assert (Hlen : (S i + m <= length u)%nat).
  { pose proof (f_equal length Hdrop) as Hl.
    rewrite length_drop, length_app, run_ids_length in Hl. lia. }
  assert (Hnew : exists newId, u !! (i + m)%nat = Some newId /\ KSUID.wf newId).
  { exists (assemble ts (advance (plOf id) (S (m - 1)))).
    split; [|apply assemble_wf].
    replace (i + m)%nat with (S i + (m - 1))%nat by lia.
    rewrite <- lookup_drop, Hdrop, lookup_app_l by (rewrite run_ids_length; lia).
    apply run_ids_lookup. lia. }
  destruct Hnew as (newId & Hnew & Hwn).
  destruct (parts_of newId Hwn) as (_ & Epn & _).
  unfold loopBody. rewrite (Arr_get_Some _ _ _ Hget). cbn [bindR].
  rewrite Et. cbn [bindR]. rewrite Ep. cbn [bindR].
  destruct (Z.eqb_spec (tsOf id) ts) as [_|E]; [|lia]. cbn [negb].
  rewrite Hone.
  change (Uint128.equals Uint128.one Uint128.one) with true. cbn [negb].
  unfold rangeLength. rewrite Nat.add_1_r, Hrl. cbn [bindR].
  destruct (Nat.ltb_spec 0 m) as [_|]; [|lia].
  unfold JS.add. rewrite round53_small by lia.
  rewrite varintLength64_eq_1.
  rewrite set_app by lia.
  replace (S (length out))
    with (length (out ++ [to_uint8 (JS.bor PAYLOAD_RANGE 1)]))
    by (rewrite length_app; cbn [length]; lia).
  rewrite (appendVarint64_field _ _ _ 1) by lia.
  cbn [bindR]. rewrite copy_at_app by (rewrite length_drop; cbn; lia).
  destruct (Nat.ltb_spec (i + m) (length u)) as [_|]; [|lia].
  rewrite (Arr_get_Some _ _ _ Hnew). cbn [bindR]. rewrite Epn. cbn [bindR].
  rewrite frame2. subst rec. unfold rangeRecord, tagByte.
  change (Z.to_nat 1) with 1%nat.
  change (Buf.be_bytes 1 (Z.of_nat m + 1)) with [to_uint8 (Z.of_nat m + 1)].
  do 2 f_equal. f_equal.
  rewrite !length_app. cbn [length]. lia.
Qed.

(** ** Records as the decoder reads them *)

Lemma next_rawRecord (pre rest : Buffer) (id k : KSUID.t) (sq ts : Z)
    (last : Uint128.t) :
  KSUID.wf id -> sq <= 0 ->
  next (mkIter k (pre ++ rawRecord id ++ rest) (length pre) sq ts last)
  = (Ok true,
     mkIter id (pre ++ rawRecord id ++ rest) (length (pre ++ rawRecord id))
       sq (tsOf id) (plOf id)).
Proof.
  intros Hwf Hsq. unfold rawRecord. cbn [app].
  rewrite next_raw by assumption. do 2 f_equal.
  rewrite length_app. cbn [length]. rewrite Hwf. reflexivity.
Qed.

Lemma next_timeRecord (pre rest : Buffer) (id k : KSUID.t) (sq ts : Z)
    (last : Uint128.t) :
  KSUID.wf id -> sq <= 0 -> 0 <= ts < tsOf id ->
  next (mkIter k (pre ++ timeRecord ts id ++ rest) (length pre) sq ts last)
  = (Ok true,
     mkIter id (pre ++ timeRecord ts id ++ rest)
       (length (pre ++ timeRecord ts id)) sq (tsOf id) (plOf id)).
Proof.
  intros Hwf Hsq Hts.
  destruct (parts_of id Hwf) as (_ & _ & Hr & _).
  destruct (payload_of id Hwf) as [Epl _].
  assert (Hlp : length (KSUID.payload id) = 16%nat).
  { rewrite Epl, length_app, !be_bytes_length. reflexivity. }
  pose proof (varintLength32_minimal (tsOf id - ts) ltac:(lia)) as (Hn & Hlt & _).
  cbv zeta in Hn, Hlt.
  unfold timeRecord.
  set (n := Z.to_nat (varintLength32 (tsOf id - ts))) in *.
  assert (En : varintLength32 (tsOf id - ts) = Z.of_nat n) by lia.
  rewrite En in Hlt.
  cbn [app]. rewrite <- app_assoc.
  rewrite next_time by (assumption || lia). do 2 f_equal.
  rewrite !length_app. cbn [length]. rewrite length_app, be_bytes_length, Hlp.
  lia.
Qed.

Lemma next_deltaRecord (pre rest : Buffer) (d : Uint128.t) (k : KSUID.t)
    (sq ts : Z) (last : Uint128.t) :
  Uint128.wf d -> sq <= 0 -> 0 <= ts <= 0xffffffff ->
  next (mkIter k (pre ++ deltaRecord d ++ rest) (length pre) sq ts last)
  = (Ok true,
     mkIter (assemble ts (Uint128.add last d)) (pre ++ deltaRecord d ++ rest)
       (length (pre ++ deltaRecord d)) sq ts (Uint128.add last d)).
Proof.
  intros Hd Hsq Hts.
  pose proof (varintLength128_minimal d Hd) as (Hn & Hlt & _).
  cbv zeta in Hn, Hlt.
  unfold deltaRecord.
  set (n := Z.to_nat (varintLength128 d)) in *.
  assert (En : varintLength128 d = Z.of_nat n) by lia.
  rewrite En in Hlt.
  cbn [app].
  rewrite next_delta by (assumption || lia). do 2 f_equal.
  rewrite !length_app. cbn [length]. rewrite be_bytes_length. lia.
Qed.

Lemma next_rangeRecord (pre rest : Buffer) (m : Z) (k : KSUID.t) (sq ts : Z)
    (last : Uint128.t) :
  sq <= 0 -> 0 <= ts <= 0xffffffff -> 0 <= m <= 255 ->
  next (mkIter k (pre ++ rangeRecord m ++ rest) (length pre) sq ts last)
  = (Ok true,
     mkIter (assemble ts (Uint128.incr last)) (pre ++ rangeRecord m ++ rest)
       (length (pre ++ rangeRecord m)) (m - 1) ts (Uint128.incr last)).
Proof.
  intros Hsq Hts Hm. unfold rangeRecord. cbn [app].
  rewrite next_range by assumption. do 2 f_equal.
  rewrite length_app. reflexivity.
Qed.

(** Inside a run the loop of [toArray] collects the successors. *)
Lemma toArray_loop_play (m : nat) :
  forall (c : Buffer) (o : nat) (k : KSUID.t) (ts : Z) (last : Uint128.t)
         (acc : list KSUID.t) (fuel : nat),
    (m <= 255)%nat -> 0 <= ts <= 0xffffffff ->
    exists k',
      toArray_loop (m + fuel) acc (mkIter k c o (Z.of_nat m) ts last)
      = toArray_loop fuel (acc ++ run_ids ts last m)
          (mkIter k' c o 0 ts (advance last m)).
Proof.
  induction m as [|m IH]; intros c o k ts last acc fuel Hm Hts.
  - exists k. cbn [run_ids advance Nat.add]. rewrite app_nil_r. reflexivity.
  - cbn [Nat.add toArray_loop]. unfold bindS at 1.
    rewrite next_play by lia. unfold bindS at 1. unfold getS at 1.
    cbn [ksuid].
    replace (Z.of_nat (S m) - 1) with (Z.of_nat m) by lia.
    destruct (IH c o (assemble ts (Uint128.incr last)) ts (Uint128.incr last)
                (acc ++ [assemble ts (Uint128.incr last)]) fuel
                ltac:(lia) Hts) as (k' & E).
    exists k'. rewrite E. cbn [run_ids advance]. rewrite <- app_assoc.
    reflexivity.
Qed.

(** ** Ascending arrays *)

Lemma runs_final_drop (l1 l2 : list KSUID.t) :
  runs_final (l1 ++ l2) -> runs_final l2.
Proof.
  intros H i j a c d Ha Hc Hts Hv Hd Htd.
  apply (H (length l1 + i)%nat j a c d); try assumption.
  - rewrite lookup_app_r by lia. rewrite <- Ha. f_equal. lia.
  - rewrite lookup_app_r by lia. rewrite <- Hc. f_equal. lia.
  - rewrite lookup_app_r by lia. rewrite <- Hd. f_equal. lia.
Qed.

Lemma vlt_parts (a b : KSUID.t) :
  KSUID.wf a -> KSUID.wf b -> vlt a b ->
  tsOf a <= tsOf b /\
  (tsOf a = tsOf b -> Uint128.toZ (plOf a) < Uint128.toZ (plOf b)).
Proof.
  intros Ha Hb Hlt. unfold vlt in Hlt.
  destruct (parts_of a Ha) as (_ & _ & Hra & Hpa & _ & Eva).
  destruct (parts_of b Hb) as (_ & _ & Hrb & Hpb & _ & Evb).
  pose proof (toZ_range _ Hpa). pose proof (toZ_range _ Hpb).
  rewrite Eva, Evb in Hlt. split; [nia|]. intros E. rewrite E in Hlt. lia.
Qed.

(** The difference of two payloads in ascending order, and how the decoder
    adds it back. *)
Lemma delta_parts (p q : Uint128.t) :
  Uint128.wf p -> Uint128.wf q -> Uint128.toZ p < Uint128.toZ q ->
  Uint128.toZ (Uint128.sub q p) = Uint128.toZ q - Uint128.toZ p /\
  Uint128.add p (Uint128.sub q p) = q.
Proof.
  intros Hp Hq Hlt. pose proof (toZ_range _ Hp). pose proof (toZ_range _ Hq).
  split.
  - rewrite sub_toZ by assumption. apply Z.mod_small. lia.
  - rewrite add_comm. apply add_sub_cancel; assumption.
Qed.

Lemma delta_one (p q : Uint128.t) :
  Uint128.wf p -> Uint128.wf q ->
  Uint128.sub q p = Uint128.one -> q = Uint128.incr p.
Proof.
  intros Hp Hq E. rewrite incr_add_one, add_comm, <- E.
  symmetry. apply add_sub_cancel; assumption.
Qed.

(** A run whose members are all above its start does not wrap. *)
Lemma run_no_wrap (ts : Z) (v : Uint128.t) (m : nat) :
  Uint128.wf v -> 0 <= ts <= 0xffffffff ->
  (forall j, (j < m)%nat ->
             vlt (assemble ts v) (assemble ts (advance v (S j)))) ->
  Uint128.toZ v + Z.of_nat m < 2 ^ 128.
Proof.
  intros Hv Hts. pose proof (toZ_range v Hv) as Hr.
  induction m as [|m IH]; intros Hall; [lia|].
  assert (IHm : Uint128.toZ v + Z.of_nat m < 2 ^ 128)
    by (apply IH; intros j Hj; apply Hall; lia).
  specialize (Hall m ltac:(lia)). unfold vlt in Hall.
  rewrite !assemble_value in Hall by (try apply advance_wf; assumption).
  rewrite advance_toZ in Hall by assumption.
  destruct (Z.eq_dec (Uint128.toZ v + Z.of_nat (S m)) (2 ^ 128)) as [E|E].
  - rewrite E, Z_mod_same_full in Hall. lia.
  - lia.
Qed.

(** The identifiers that follow [cur] split into the run that continues it
    and the rest. *)
Lemma run_split (ts : Z) (l : list KSUID.t) :
  forall cur : Uint128.t,
    Forall KSUID.wf l ->
    exists m rest,
      l = run_ids ts cur m ++ rest /\
      match rest with
      | [] => True
      | d :: _ => d <> assemble ts (Uint128.incr (advance cur m))
      end.
Proof.
  induction l as [|x l IH]; intros cur Hwf.
  - exists 0%nat, []. split; [reflexivity|exact I].
  - inversion Hwf as [|? ? Hx Hl]; subst.
    destruct (Z.eq_dec (value x) (value (assemble ts (Uint128.incr cur))))
      as [E|E].
    + apply value_inj in E; [|exact Hx|apply assemble_wf]. subst x.
      destruct (IH (Uint128.incr cur) Hl) as (m & rest & El & Hrest).
      exists (S m), rest. cbn [run_ids advance app]. rewrite <- El.
      split; [reflexivity|exact Hrest].
    + exists 0%nat, (x :: l). cbn [run_ids advance app].
      split; [reflexivity|]. intros ->. apply E. reflexivity.
Qed.

Lemma vlt_neq (a b : KSUID.t) : vlt a b -> a <> b.
Proof. unfold vlt. intros H ->. lia. Qed.

Lemma last_in_run (ts : Z) (v : Uint128.t) (m : nat) :
  assemble ts (advance v m) ∈ assemble ts v :: run_ids ts v m.
Proof.
  destruct m as [|m]; [left|]. right.
  apply (list_elem_of_lookup_2 _ m). apply run_ids_lookup. lia.
Qed.

(** In an ascending array the identifiers behind a run do not continue
    it. *)
Lemma stops_of_sorted (ts : Z) (q : Uint128.t) (m : nat)
    (rest : list KSUID.t) :
  StronglySorted vlt (assemble ts q :: run_ids ts q m ++ rest) ->
  Forall KSUID.wf rest ->
  match rest with
  | [] => True
  | d :: _ => d <> assemble ts (Uint128.incr (advance q m))
  end ->
  stops ts (advance q m) rest.
Proof.
  intros Hs Hwf Hrest. destruct rest as [|d rest]; [exact I|].
  inversion Hwf as [|? ? Hd _]; subst.
  split; [exact Hd|]. split; [|exact Hrest].
  intros ->. rewrite app_comm_cons in Hs.
  pose proof (StronglySorted_app_1_elem_of _ _ _
                (assemble ts (advance q m)) (assemble ts (advance q m)) Hs
                (last_in_run ts q m) ltac:(left)) as Hlt.
  unfold vlt in Hlt. lia.
Qed.

(** What [runs_final] says where a run of [m] identifiers follows the
    successor [id] of [prev]. *)
Lemma run_facts (prev id : KSUID.t) (m : nat) (rest : list KSUID.t) :
  let ts := tsOf prev in
  let q := plOf id in
  Forall KSUID.wf (prev :: id :: run_ids ts q m ++ rest) ->
  StronglySorted vlt (prev :: id :: run_ids ts q m ++ rest) ->
  runs_final (prev :: id :: run_ids ts q m ++ rest) ->
  tsOf id = ts -> Uint128.sub q (plOf prev) = Uint128.one ->
  (0 < m)%nat ->
  match rest with
  | [] => True
  | d :: _ => d <> assemble ts (Uint128.incr (advance q m))
  end ->
  (m + 1 <= 255)%nat /\
  match rest with
  | [] => True
  | d :: _ => tsOf d <> ts
  end.
Proof.
  intros ts q Hwf Hs Hgood Hts Hone Hm Hrest.
  apply Forall_cons in Hwf as [Hwp Hwf'].
  apply Forall_cons in Hwf' as [Hwi Hwr].
  apply Forall_app in Hwr as [_ Hwrest].
  destruct (parts_of prev Hwp) as (_ & _ & Hrp & Hpp & _ & Evp).
  destruct (parts_of id Hwi) as (_ & _ & _ & Hpi & Eki & Evi).
  fold ts in Hrp, Evp. fold q in Hpi, Eki, Evi. rewrite Hts in Eki, Evi.
  pose proof (toZ_range _ Hpp) as Hrpp. pose proof (toZ_range _ Hpi) as Hrq.
  apply StronglySorted_inv in Hs as [Hs Hprev].
  pose proof Hs as Hs'. apply StronglySorted_inv in Hs' as [_ Hid].
  (* the payload of [id] is one above that of [prev] *)
  assert (Hq : Uint128.toZ q = Uint128.toZ (plOf prev) + 1).
  { apply Forall_cons in Hprev as [Hlt _].
    destruct (vlt_parts prev id Hwp Hwi Hlt) as [_ Hp]. specialize (Hp (eq_sym Hts)).
    destruct (delta_parts _ _ Hpp Hpi Hp) as [Ed _]. fold q in Ed.
    rewrite Hone in Ed. change (Uint128.toZ Uint128.one) with 1 in Ed. lia. }
  (* the run does not wrap *)
  assert (Hnw : Uint128.toZ q + Z.of_nat m < 2 ^ 128).
  { apply (run_no_wrap ts); [assumption..|]. intros j Hj.
    rewrite <- Eki. rewrite Forall_forall in Hid. apply Hid.
    apply elem_of_app. left.
    apply (list_elem_of_lookup_2 _ j). apply run_ids_lookup. exact Hj. }
  assert (Hrun : forall j, (j < m)%nat ->
            (prev :: id :: run_ids ts q m ++ rest) !! (0 + (2 + j))%nat
            = Some (assemble ts (advance q (S j)))).
  { intros j Hj.
    change ((prev :: id :: run_ids ts q m ++ rest) !! (0 + (2 + j))%nat)
      with ((run_ids ts q m ++ rest) !! j).
    rewrite lookup_app_l by (rewrite run_ids_length; lia).
    apply run_ids_lookup. exact Hj. }
  assert (Hval : forall j, (j <= m)%nat ->
            value (assemble ts (advance q j))
            = value prev + 1 + Z.of_nat j).
  { intros j Hj. rewrite assemble_value by (try apply advance_wf; assumption).
    rewrite advance_toZ by assumption. rewrite Z.mod_small by lia. lia. }
  assert (Hts' : forall x, tsOf (assemble ts (advance q x)) = ts).
  { intros x. apply assemble_parts; [apply advance_wf|]; assumption. }
  assert (Hthird : (prev :: id :: run_ids ts q m ++ rest) !! (0 + 2)%nat
                   = Some (assemble ts (advance q 1))).
  { apply (Hrun 0%nat). lia. }
  pose proof (fun j d => Hgood 0%nat j prev (assemble ts (advance q 1)) d
                           eq_refl Hthird (eq_sym (Hts' 1%nat))
                           ltac:(rewrite Hval by lia; lia)) as Hg.
  split.
  - destruct (Hg (2 + (m - 1))%nat (assemble ts (advance q (S (m - 1)))))
      as [_ Hb]; [apply Hrun; lia|apply Hts'|lia].
  - destruct rest as [|d rest]; [exact I|]. intros Hd.
    apply Forall_cons in Hwrest as [Hwd _].
    destruct (Hg (2 + m)%nat d) as [Hv _]; [|exact Hd|].
    { change ((prev :: id :: run_ids ts q m ++ d :: rest) !! (0 + (2 + m))%nat)
        with ((run_ids ts q m ++ d :: rest) !! m).
      rewrite lookup_app_r by (rewrite run_ids_length; lia).
      rewrite run_ids_length, Nat.sub_diag. reflexivity. }
    apply Hrest. apply value_inj; [exact Hwd|apply assemble_wf|].
    destruct (parts_of d Hwd) as (_ & _ & _ & Hpd & _ & Evd).
    pose proof (toZ_range _ Hpd) as Hrd. rewrite Hd in Evd.
    rewrite assemble_value by (try apply incr_wf; assumption).
    rewrite incr_toZ, advance_toZ by (try apply advance_wf; assumption).
    rewrite (Z.mod_small (Uint128.toZ q + Z.of_nat m)) by lia.
    rewrite Z.mod_small by nia. lia.
Qed.

(** ** The encoder and the decoder together *)

Lemma toArray_loop_step (fuel : nat) (acc : list KSUID.t)
    (s s' : CompressedSetIter.t) :
  next s = (Ok true, s') ->
  toArray_loop (S fuel) acc s = toArray_loop fuel (acc ++ [ksuid s']) s'.
Proof.
  intros H. cbn [toArray_loop]. unfold bindS at 1. rewrite H.
  unfold bindS at 1. unfold getS at 1. reflexivity.
Qed.

(** The main loop of [appendCompressed] from the identifier after [prev]
    on, and the loop of [toArray] on the bytes it writes. *)
Lemma codec (n : nat) :
  forall (todo done : list KSUID.t) (prev : KSUID.t) (eL dL : Uint128.t)
         (out tail : Buffer) (fuel : nat),
    (length todo <= n)%nat ->
    Forall KSUID.wf (prev :: todo) ->
    StronglySorted vlt (prev :: todo) ->
    runs_final (prev :: todo) ->
    (forall id todo', todo = id :: todo' -> tsOf id = tsOf prev ->
                      eL = plOf prev /\ dL = plOf prev) ->
    (21 * length todo <= length tail)%nat ->
    (length todo <= fuel)%nat ->
    exists bs s',
      loop fuel (done ++ prev :: todo)
        (mkLoop (S (length done)) (length out) (tsOf prev) eL (out ++ tail))
      = Ok s'
      /\ Buf.subarray (buffer s') 0 (pos s') = out ++ bs
      /\ forall pre acc k0 fuel',
           (length todo < fuel')%nat ->
           fst (toArray_loop fuel' acc
                  (mkIter k0 (pre ++ bs) (length pre) 0 (tsOf prev) dL))
           = Ok (acc ++ todo).
Proof.
  induction n as [n IH] using lt_wf_ind.
  intros todo done prev eL dL out tail fuel Hn Hwf Hs Hgood Hinv Hcap Hfuel.
  destruct todo as [|id todo'].
  { (* nothing left *)
    exists [], (mkLoop (S (length done)) (length out) (tsOf prev) eL (out ++ tail)).
    split; [|split].
    - destruct fuel; cbn [loop i];
        (destruct (Nat.ltb_spec (S (length done)) (length (done ++ [prev])));
         [rewrite length_app in *; cbn [length] in *; lia|reflexivity]).
    - cbn [buffer pos]. unfold Buf.subarray. rewrite drop_0, Nat.sub_0_r.
      rewrite take_app_length, app_nil_r. reflexivity.
    - intros pre acc k0 fuel' Hf. destruct fuel' as [|f]; [cbn in Hf; lia|].
      cbn [toArray_loop]. unfold bindS at 1.
      rewrite next_end
        by (cbn [seqlength content offset]; try rewrite app_nil_r; lia).
      rewrite !app_nil_r. reflexivity. }
  cbn [length] in Hn, Hcap, Hfuel.
  destruct fuel as [|fuel0]; [lia|].
  apply Forall_cons in Hwf as [Hwp Hwf']. pose proof Hwf' as Hwt.
  apply Forall_cons in Hwt as [Hwi Hwt].
  pose proof Hs as Hs0. apply StronglySorted_inv in Hs0 as [Hs' Hprev].
  pose proof Hprev as Hlt. apply Forall_cons in Hlt as [Hlt _].
  destruct (vlt_parts prev id Hwp Hwi Hlt) as [Hle Hpl].
  destruct (parts_of prev Hwp) as (_ & _ & Hrp & Hpp & _ & _).
  destruct (parts_of id Hwi) as (_ & _ & Hri & Hpi & Eki & _).
  set (u := done ++ prev :: id :: todo').
  assert (Hget : u !! S (length done) = Some id).
  { subst u. replace (done ++ prev :: id :: todo')
      with ((done ++ [prev]) ++ id :: todo')
      by (rewrite <- app_assoc; reflexivity).
    apply list_lookup_middle. rewrite length_app. cbn [length]. lia. }
  assert (Hlu : length u = (length done + 2 + length todo')%nat).
  { subst u. rewrite length_app. cbn [length]. lia. }
  assert (Hdrop : drop (S (S (length done))) u = todo').
  { subst u. replace (done ++ prev :: id :: todo')
      with ((done ++ [prev; id]) ++ todo')
      by (rewrite <- app_assoc; reflexivity).
    apply drop_app_length'. rewrite length_app. cbn [length]. lia. }
  assert (Eu1 : (done ++ [prev]) ++ id :: todo' = u)
    by (subst u; rewrite <- app_assoc; reflexivity).
  assert (El1 : S (length (done ++ [prev])) = S (S (length done)))
    by (rewrite length_app; cbn [length]; lia).
  cbn [loop i].
  destruct (Nat.ltb_spec (S (length done)) (length u)) as [_|]; [|lia].
  (* a turn that writes one record [rec] for [id] alone *)
  assert (Hsingle : forall rec : Buffer,
    (length rec <= 21)%nat ->
    loopBody u (mkLoop (S (length done)) (length out) (tsOf prev) eL (out ++ tail))
    = Ok (mkLoop (S (length done)) (length (out ++ rec)) (tsOf id) (plOf id)
            ((out ++ rec) ++ drop (length rec) tail), Next) ->
    (forall pre rest k0,
       next (mkIter k0 (pre ++ rec ++ rest) (length pre) 0 (tsOf prev) dL)
       = (Ok true,
          mkIter id (pre ++ rec ++ rest) (length (pre ++ rec)) 0 (tsOf id)
            (plOf id))) ->
    exists bs s',
      (let? (s1, flow) :=
         loopBody u (mkLoop (S (length done)) (length out) (tsOf prev) eL
                       (out ++ tail)) in
       match flow with
       | Break => Ok s1
       | Next => loop fuel0 u
                   (mkLoop (S (i s1)) (pos s1) (CompressedSet.timestamp s1)
                      (CompressedSet.lastValue s1) (buffer s1))
       end) = Ok s'
      /\ Buf.subarray (buffer s') 0 (pos s') = out ++ bs
      /\ forall pre acc k0 fuel',
           (length (id :: todo') < fuel')%nat ->
           fst (toArray_loop fuel' acc
                  (mkIter k0 (pre ++ bs) (length pre) 0 (tsOf prev) dL))
           = Ok (acc ++ id :: todo')).
  { intros rec Hrec Hturn Hnext.
    destruct (IH (length todo') ltac:(lia) todo' (done ++ [prev]) id
                (plOf id) (plOf id) (out ++ rec) (drop (length rec) tail) fuel0
                (le_n _) Hwf' Hs' (runs_final_drop [prev] _ Hgood)
                ltac:(auto) ltac:(rewrite length_drop; lia) ltac:(lia))
      as (bs & s' & Hloop & Hsub & Hdec).
    rewrite Eu1, El1 in Hloop.
    exists (rec ++ bs), s'. split; [|split].
    - rewrite Hturn. cbn [bindR i pos buffer CompressedSet.timestamp
                           CompressedSet.lastValue]. exact Hloop.
    - rewrite Hsub, <- app_assoc. reflexivity.
    - intros pre acc k0 fuel' Hf. destruct fuel' as [|f]; [cbn in Hf; lia|].
      cbn [length] in Hf.
      rewrite (toArray_loop_step _ _ _ _ (Hnext pre bs k0)). cbn [ksuid].
      rewrite (app_assoc pre rec bs), Hdec by lia.
      rewrite <- app_assoc. reflexivity. }
  destruct (Z.eq_dec (tsOf id) (tsOf prev)) as [Ets|Ets].
  2:{ (* a later timestamp *)
      destruct (turn_time u (S (length done)) id out tail (tsOf prev) eL
                  Hget Hwi ltac:(lia) ltac:(lia)) as [Hturn Hrec].
      apply (Hsingle (timeRecord (tsOf prev) id) Hrec Hturn).
      intros pre rest k0. apply next_timeRecord; [assumption|lia|lia]. }
  destruct (Hinv id todo' eq_refl Ets) as [-> ->].
  specialize (Hpl (eq_sym Ets)).
  destruct (delta_parts _ _ Hpp Hpi Hpl) as [Ed Eadd].
  set (d := Uint128.sub (plOf id) (plOf prev)) in *.
  assert (Hnextd : forall pre rest k0,
    next (mkIter k0 (pre ++ deltaRecord d ++ rest) (length pre) 0 (tsOf prev)
            (plOf prev))
    = (Ok true,
       mkIter id (pre ++ deltaRecord d ++ rest) (length (pre ++ deltaRecord d))
         0 (tsOf id) (plOf id))).
  { intros pre rest k0.
    rewrite next_deltaRecord by (try apply sub_wf; lia).
    rewrite Eadd, <- Ets, <- Eki. reflexivity. }
  destruct (Uint128.equals d Uint128.one) eqn:Eone.
  2:{ (* a payload that is not the successor *)
      assert (Hne : d <> Uint128.one).
      { intros E. rewrite E in Eone. discriminate. }
      destruct (turn_delta u (S (length done)) id out tail (tsOf prev)
                  (plOf prev) Hget Hwi Ets Hne ltac:(lia)) as [Hturn Hrec].
      cbv zeta in Hturn, Hrec. fold d in Hturn, Hrec. rewrite <- Ets in Hturn at 2.
      apply (Hsingle (deltaRecord d) ltac:(lia) Hturn Hnextd). }
  apply equals_true in Eone.
  destruct (run_split (tsOf prev) todo' (plOf id) Hwt) as (m & rest & Etodo & Hrest).
  assert (Hstop : stops (tsOf prev) (advance (plOf id) m) rest).
  { apply stops_of_sorted; [|rewrite Etodo in Hwt; apply Forall_app in Hwt; tauto
                            |exact Hrest].
    rewrite <- Etodo.
    replace (assemble (tsOf prev) (plOf id)) with id
      by (rewrite <- Ets; exact Eki).
    exact Hs'. }
  destruct m as [|m'].
  { (* the successor, with no run behind it *)
    cbn [run_ids app advance] in Etodo, Hstop. subst rest.
    rewrite <- Hdrop in Hstop.
    destruct (turn_one u (S (length done)) id out tail (tsOf prev)
                (plOf prev) Hget Hwi Ets Eone Hstop ltac:(lia)) as [Hturn Hrec].
    cbv zeta in Hturn, Hrec. rewrite <- Ets in Hturn at 2.
    rewrite <- Eone in Hturn, Hrec.
    apply (Hsingle (deltaRecord d) ltac:(lia) Hturn Hnextd). }
  (* a run *)
  clear Hsingle Hnextd.
  set (m := S m') in *. set (ts := tsOf prev) in *. set (q := plOf id) in *.
  assert (Hfacts := run_facts prev id m rest).
  cbv zeta in Hfacts. fold ts q in Hfacts. rewrite <- Etodo in Hfacts.
  destruct (Hfacts ltac:(constructor; assumption) Hs Hgood Ets Eone
              ltac:(lia) Hrest) as [Hm255 Hother].
  clear Hfacts.
  pose proof (turn_range u (S (length done)) id out tail ts (plOf prev) m rest
                Hget Hwi Ets Eone ltac:(rewrite Hdrop; exact Etodo)
                ltac:(lia) ltac:(lia) Hstop ltac:(lia)) as Hturn.
  cbv zeta in Hturn. set (rec := rangeRecord (Z.of_nat m + 1)) in *.
  set (lastk := assemble ts (advance q m)).
  assert (Hlk : tsOf lastk = ts /\ plOf lastk = advance q m).
  { apply assemble_parts; [apply advance_wf; assumption|lia]. }
  destruct Hlk as [Hlk1 Hlk2].
  assert (Esnoc : todo' = run_ids ts q m' ++ lastk :: rest).
  { rewrite Etodo. subst m. rewrite run_ids_snoc, <- app_assoc. reflexivity. }
  assert (Hlen' : length todo' = (m + length rest)%nat).
  { rewrite Etodo, length_app, run_ids_length. reflexivity. }
  assert (Hwl : Forall KSUID.wf (lastk :: rest)).
  { rewrite Esnoc in Hwt. apply Forall_app in Hwt. tauto. }
  assert (Hsl : StronglySorted vlt (lastk :: rest)).
  { rewrite Esnoc in Hs'. rewrite app_comm_cons in Hs'.
    apply StronglySorted_app_1_r in Hs'. exact Hs'. }
  assert (Hgl : runs_final (lastk :: rest)).
  { apply (runs_final_drop (prev :: id :: run_ids ts q m')).
    cbn [app]. rewrite <- Esnoc. exact Hgood. }
  destruct (IH (length rest) ltac:(lia) rest
              (done ++ prev :: id :: run_ids ts q m') lastk q (advance q m)
              (out ++ rec) (drop (length rec) tail) fuel0
              (le_n _) Hwl Hsl Hgl) as (bs & s' & Hloop & Hsub & Hdec).
  { intros d0 rest' -> Hd0. rewrite Hlk1 in Hd0. contradiction. }
  { rewrite length_drop. change (length rec) with 2%nat. lia. }
  { lia. }
  assert (Eu2 : (done ++ prev :: id :: run_ids ts q m') ++ lastk :: rest = u).
  { subst u. rewrite Esnoc, <- app_assoc. reflexivity. }
  assert (El2 : S (length (done ++ prev :: id :: run_ids ts q m'))
                = S (S (length done) + m)).
  { rewrite length_app. cbn [length]. rewrite run_ids_length. subst m. lia. }
  rewrite Eu2, El2, Hlk1 in Hloop.
  exists (rec ++ bs), s'. split; [|split].
  - rewrite Hturn. cbn [bindR i pos buffer CompressedSet.timestamp
                         CompressedSet.lastValue]. exact Hloop.
  - rewrite Hsub, <- app_assoc. reflexivity.
  - intros pre acc k0 fuel' Hf. cbn [length] in Hf.
    destruct fuel' as [|f]; [lia|].
    assert (Hq : q = Uint128.incr (plOf prev))
      by (apply delta_one; assumption).
    assert (Hn1 : next (mkIter k0 (pre ++ rec ++ bs) (length pre) 0 ts (plOf prev))
                  = (Ok true,
                     mkIter id (pre ++ rec ++ bs) (length (pre ++ rec))
                       (Z.of_nat m) ts q)).
    { subst rec. rewrite next_rangeRecord by lia.
      rewrite <- Hq. subst ts. rewrite <- Ets. fold q. rewrite <- Eki.
      do 2 f_equal. lia. }
    rewrite (toArray_loop_step _ _ _ _ Hn1). cbn [ksuid].
    replace f with (m + (f - m))%nat by lia.
    destruct (toArray_loop_play m (pre ++ rec ++ bs) (length (pre ++ rec)) id
                ts q (acc ++ [id]) (f - m) ltac:(lia) ltac:(lia)) as (k' & ->).
    rewrite (app_assoc pre rec bs).
    pose proof (Hdec (pre ++ rec) ((acc ++ [id]) ++ run_ids ts q m) k' (f - m)%nat
                  ltac:(lia)) as Hd.
    rewrite Hlk1 in Hd. rewrite Hd, Etodo, <- !app_assoc. reflexivity.
Qed.

(** ** From the arguments of [compress] to the array that is encoded *)

Lemma toString_ok (k : KSUID.t) :
  KSUID.wf k -> exists s, KSUID.toString k = Ok s.
Proof.
  intros Hk. destruct (base62_roundtrip _ Hk) as (s & Es & _).
  exists s. exact Es.
Qed.

(** The first loop of [appendCompressed] keeps the first occurrence of every
    identifier. *)
Lemma sorted_without (l1 l2 : list KSUID.t) (x : KSUID.t) :
  StronglySorted vle (l1 ++ x :: l2) -> StronglySorted vle (l1 ++ l2).
Proof.
  intros H. apply StronglySorted_app in H as (H12 & H1 & H2).
  apply StronglySorted_cons in H2 as [_ H2].
  apply StronglySorted_app_2; [|exact H1|exact H2].
  intros x1 x2 Hx1 Hx2. apply H12; [exact Hx1|]. right. exact Hx2.
Qed.

Lemma strict_sorted_le (l : list KSUID.t) :
  StronglySorted vlt l -> StronglySorted vle l.
Proof.
  induction 1 as [|x l Hs IH Hx]; constructor; [exact IH|].
  eapply Forall_impl; [exact Hx|]. cbn beta. unfold vle, vlt. intros y Hy. lia.
Qed.

Lemma dedupe_spec (ids : list KSUID.t) :
  forall (seen : gset string) (acc : list KSUID.t) (h : Heap) (l : nat),
    Forall KSUID.wf ids -> Forall KSUID.wf acc -> NoDup acc ->
    (forall s, s ∈ seen <-> exists x, x ∈ acc /\ KSUID.toString x = Ok s) ->
    h !! l = Some acc ->
    exists acc',
      dedupe ids seen l h = (Ok tt, <[l := acc']> h)
      /\ NoDup acc' /\ Forall KSUID.wf acc'
      /\ (forall k, k ∈ acc' <-> k ∈ acc \/ k ∈ ids)
      /\ (StronglySorted vle (acc ++ ids) -> StronglySorted vle acc').
Proof.
  induction ids as [|id ids IH]; intros seen acc h l Hwf Hwa Hnd Hseen Hl.
  - exists acc. cbn [dedupe]. unfold retS. rewrite insert_id by exact Hl.
    split; [reflexivity|]. split; [exact Hnd|]. split; [exact Hwa|].
    split; [|rewrite app_nil_r; auto].
    intros k. rewrite elem_of_nil. tauto.
  - apply Forall_cons in Hwf as [Hid Hwf].
    destruct (toString_ok id Hid) as (key & Ekey).
    cbn [dedupe]. unfold bindS at 1. unfold liftS at 1. rewrite Ekey.
    destruct (decide (key ∈ seen)) as [Hin|Hnin].
    + apply Hseen in Hin as (x & Hx & Ex).
      assert (x = id).
      { apply toString_inj; [|exact Hid|congruence].
        rewrite Forall_forall in Hwa. apply Hwa. exact Hx. }
      subst x.
      destruct (IH seen acc h l Hwf Hwa Hnd Hseen Hl)
        as (acc' & E & H1 & H2 & H3 & H4).
      exists acc'. split; [exact E|]. split; [exact H1|]. split; [exact H2|].
      split; [|intros Hs; apply H4; exact (sorted_without _ _ _ Hs)].
      intros k. rewrite H3, elem_of_cons. split; [tauto|].
      intros [H|[->|H]]; auto.
    + assert (Hnew : id ∉ acc).
      { intros Hx. apply Hnin, Hseen. exists id. auto. }
      unfold bindS at 1. unfold Arr.push at 1. rewrite Hl.
      destruct (IH ({[key]} ∪ seen) (acc ++ [id]) (<[l := acc ++ [id]]> h) l Hwf)
        as (acc' & E & H1 & H2 & H3 & H4).
      * apply Forall_app. split; [exact Hwa|]. constructor; [exact Hid|constructor].
      * apply NoDup_app. split; [exact Hnd|]. split.
        -- intros x Hx Hx'. apply list_elem_of_singleton in Hx'. subst x.
           contradiction.
        -- apply NoDup_singleton.
      * intros s. rewrite elem_of_union, elem_of_singleton, Hseen. split.
        -- intros [->|(x & Hx & Ex)].
           ++ exists id. split; [apply elem_of_app; right; left|exact Ekey].
           ++ exists x. split; [apply elem_of_app; left; exact Hx|exact Ex].
        -- intros (x & Hx & Ex). apply elem_of_app in Hx as [Hx|Hx].
           ++ right. exists x. auto.
           ++ apply list_elem_of_singleton in Hx. subst x. left. congruence.
      * apply lookup_insert_eq.
      * exists acc'. rewrite E, insert_insert_eq.
        split; [reflexivity|]. split; [exact H1|]. split; [exact H2|].
        split; [|intros Hs; apply H4; rewrite <- app_assoc; exact Hs].
        intros k. rewrite H3, elem_of_app, list_elem_of_singleton, elem_of_cons.
        tauto.
Qed.

Lemma sorted_strict (l : list KSUID.t) :
  Forall KSUID.wf l -> NoDup l -> StronglySorted vle l -> StronglySorted vlt l.
Proof.
  induction l as [|x l IH]; intros Hwf Hnd Hs; [constructor|].
  apply Forall_cons in Hwf as [Hx Hwf]. apply NoDup_cons in Hnd as [Hnx Hnd].
  apply StronglySorted_inv in Hs as [Hs Hall].
  constructor; [apply IH; assumption|].
  rewrite Forall_forall in Hall, Hwf |- *. intros y Hy.
  specialize (Hall y Hy). unfold vle in Hall. unfold vlt.
  destruct (Z.eq_dec (value x) (value y)) as [E|E]; [|lia].
  apply value_inj in E; [|exact Hx|apply Hwf; exact Hy]. subst y. contradiction.
Qed.

Lemma strict_NoDup (l : list KSUID.t) : StronglySorted vlt l -> NoDup l.
Proof.
  induction l as [|x l IH]; intros Hs; [constructor|].
  apply StronglySorted_inv in Hs as [Hs Hall].
  apply NoDup_cons. split; [|apply IH; exact Hs].
  intros Hx. rewrite Forall_forall in Hall. specialize (Hall x Hx).
  unfold vlt in Hall. lia.
Qed.

(** An ascending array without duplicates is determined by its members. *)
Lemma strict_unique (l1 l2 : list KSUID.t) :
  StronglySorted vlt l1 -> StronglySorted vlt l2 ->
  (forall k, k ∈ l1 <-> k ∈ l2) -> l1 = l2.
Proof.
  intros H1 H2 Hel.
  apply (StronglySorted_unique_strong vlt); [|assumption..|].
  - intros x y _ _ Hxy Hyx. unfold vlt in *. lia.
  - apply NoDup_Permutation; [apply strict_NoDup..|]; assumption.
Qed.

(** [appendCompressed] encodes the ascending array of the distinct
    arguments, unless they need sorting and the call stack has room for
    fewer calls of [quickSort] than there are of them. *)
Lemma appendCompressed_emit (stack : nat) (buf : Buffer)
    (ids u : list KSUID.t) (h : Heap) (l0 : nat) :
  h !! l0 = Some ids -> Forall KSUID.wf ids -> ids <> [] ->
  StronglySorted vlt u -> (forall k, k ∈ u <-> k ∈ ids) ->
  fst (appendCompressed stack buf l0 h) = emit buf u
  \/ (fst (appendCompressed stack buf l0 h) = Err RangeError
      /\ (stack < length u)%nat /\ ~ StronglySorted vle ids).
Proof.
  intros Hl0 Hwf Hne Hs Hel.
  set (P := fun r : Result Buffer =>
              r = emit buf u
              \/ (r = Err RangeError
                  /\ (stack < length u)%nat /\ ~ StronglySorted vle ids)).
  change (P (fst (appendCompressed stack buf l0 h))).
  unfold appendCompressed. unfold bindS at 1. unfold Arr.read at 1. rewrite Hl0.
  destruct ids as [|id0 ids0]; [contradiction|].
  set (ids := id0 :: ids0) in *.
  change (length ids =? 0)%nat with false. cbv iota.
  unfold bindS at 1. unfold Arr.alloc at 1.
  set (l := fresh (dom h)). set (h1 := <[l := []]> h).
  destruct (dedupe_spec ids ∅ [] h1 l Hwf ltac:(constructor) (NoDup_nil_2))
    as (u0 & Ed & Hnd & Hw0 & Hel0 & Hsort0).
  { intros s. split; [intros H; apply elem_of_empty in H; contradiction|].
    intros (x & Hx & _). apply elem_of_nil in Hx. contradiction. }
  { apply lookup_insert_eq. }
  unfold bindS at 1. rewrite Ed.
  unfold bindS at 1. unfold Arr.read at 1. rewrite lookup_insert_eq.
  assert (Hel0' : forall k, k ∈ u0 <-> k ∈ ids).
  { intros k. rewrite Hel0, elem_of_nil. tauto. }
  assert (Hu0 : u0 <> []).
  { intros ->. specialize (Hel0' id0). rewrite elem_of_nil in Hel0'.
    apply Hel0'. left. }
  assert (Hfinal : forall (u1 : list KSUID.t) (h' : Heap),
            h' !! l = Some u1 -> Forall KSUID.wf u1 -> NoDup u1 ->
            StronglySorted vle u1 -> (forall k, k ∈ u1 <-> k ∈ ids) ->
            fst ((u2 <- Arr.read l ;;
                  if (length u2 =? 0)%nat then retS (Buf.subarray buf 0 0)
                  else liftS (emit buf u2)) h') = emit buf u).
  { intros u1 h' Hl1 Hw1 Hnd1 Hs1 Hel1.
    assert (u1 = u).
    { apply strict_unique; [apply sorted_strict; assumption|exact Hs|].
      intros k. rewrite Hel1, Hel. reflexivity. }
    subst u1. unfold bindS, Arr.read. rewrite Hl1.
    destruct u as [|x u]; [|reflexivity].
    exfalso. specialize (Hel id0). rewrite elem_of_nil in Hel.
    apply Hel. left. }
  destruct (Sort.isSorted u0) eqn:Esorted; cbn [negb].
  - unfold bindS at 1. unfold retS at 1. left.
    apply (Hfinal u0); try assumption; [apply lookup_insert_eq|].
    destruct u0 as [|x u0]; [constructor|].
    apply isSorted_from_Sorted; assumption.
  - unfold bindS at 1. unfold Arr.sort at 1. rewrite lookup_insert_eq.
    destruct (sort_spec stack u0 Hw0)
      as [(out & Eout & Hp & Hso)|(Eout & Hlt & _)]; rewrite Eout.
    + left. apply (Hfinal out); [apply lookup_insert_eq| | |exact Hso|].
      * rewrite Hp. exact Hw0.
      * rewrite Hp. exact Hnd.
      * intros k. rewrite Hp. apply Hel0'.
    + right. split; [reflexivity|]. split.
      * assert (Hpu : u0 ≡ₚ u).
        { apply NoDup_Permutation; [exact Hnd|apply strict_NoDup, Hs|].
          intros k. rewrite Hel0', Hel. reflexivity. }
        rewrite <- (Permutation_length Hpu). exact Hlt.
      * intros Hsi. specialize (Hsort0 Hsi).
        destruct u0 as [|x u0]; [contradiction|].
        cbn [Sort.isSorted] in Esorted.
        apply (isSorted_from_Sorted x u0 Hw0) in Hsort0. congruence.
Qed.

(** The first record, the main loop, and the decoder on the result. *)
Lemma emit_roundtrip (buf : Buffer) (u : list KSUID.t) :
  u <> [] -> Forall KSUID.wf u -> StronglySorted vlt u -> runs_final u ->
  (21 * length u <= length buf)%nat ->
  exists c,
    emit buf u = Ok c /\
    forall fuel, (length u < fuel)%nat -> toArray fuel (mk c) = Ok u.
Proof.
  intros Hne Hwf Hs Hgood Hcap.
  destruct u as [|first todo]; [contradiction|]. cbn [length] in Hcap.
  pose proof Hwf as Hwf0. apply Forall_cons in Hwf0 as [Hw _].
  destruct (parts_of first Hw) as (Et & Ep & _).
  set (tail := drop 20 (drop 1 buf)).
  assert (Hbuf : Buf.copy_at (KSUID.toBuffer first) (Buf.set buf 0 RAW_KSUID) 1
                 = rawRecord first ++ tail).
  { pose proof (set_app [] buf RAW_KSUID ltac:(lia)) as H1.
    cbn [app length] in H1. rewrite H1.
    pose proof (copy_at_app (KSUID.buffer first) [to_uint8 RAW_KSUID]
                  (drop 1 buf)) as H2.
    cbn [length] in H2. unfold KSUID.toBuffer.
    change (to_uint8 RAW_KSUID :: drop 1 buf)
      with ([to_uint8 RAW_KSUID] ++ drop 1 buf).
    rewrite H2 by (rewrite length_drop, Hw; unfold KSUID.KSUID_LENGTH;
                   unfold KSUID.TIMESTAMP_LENGTH, KSUID.PAYLOAD_LENGTH; lia).
    rewrite Hw. reflexivity. }
  assert (Hlr : length (rawRecord first) = 21%nat).
  { unfold rawRecord. cbn [length]. rewrite Hw. reflexivity. }
  destruct (codec (length todo) todo [] first (plOf first) (plOf first)
              (rawRecord first) tail (length (first :: todo))
              (le_n _) Hwf Hs Hgood ltac:(auto))
    as (bs & s' & Hloop & Hsub & Hdec).
  { subst tail. rewrite !length_drop. lia. }
  { cbn [length]. lia. }
  exists (rawRecord first ++ bs). split.
  - unfold emit. change (Arr.get (first :: todo) 0) with (Ok first).
    cbn [bindR]. rewrite Et, Ep. cbn [bindR]. rewrite Hbuf.
    cbn [app length] in Hloop. rewrite Hlr in Hloop.
    change (1 + 20)%nat with 21%nat. cbn [length]. rewrite Hloop. cbn [bindR].
    rewrite Hsub. reflexivity.
  - intros fuel Hf. destruct fuel as [|f]; [lia|]. cbn [length] in Hf.
    unfold toArray, iter, CompressedSetIter.new. cbn [CompressedSet.content].
    pose proof (next_rawRecord [] bs first KSUID.nil 0 0 Uint128.zero Hw
                  ltac:(lia)) as Hn.
    cbn [app length] in Hn.
    rewrite (toArray_loop_step _ _ _ _ Hn). cbn [ksuid app].
    apply Hdec. lia.
Qed.

(** X14. [compress(...ids).toArray()] returns the distinct arguments in
    ascending order, whatever their order and however often they occur,
    when the arguments are 20-byte identifiers, every run of three or more
    consecutive identifiers is the last thing in its timestamp and has at
    most 255 members after its first, 21 bytes for each distinct identifier
    fit in the buffer [compress] allocates, and either the call stack has
    room for as many nested calls of [quickSort] as there are distinct
    arguments or the arguments are in ascending order already. *)
Theorem compress_toArray_roundtrip (stack : nat) (ids u : list KSUID.t) :
  Forall KSUID.wf ids ->
  StronglySorted vlt u -> (forall k, k ∈ u <-> k ∈ ids) ->
  runs_final u ->
  21 * Z.of_nat (length u) <= 10 * Z.max 100 (21 + Z.of_nat (length ids) / 5) ->
  (length u <= stack)%nat \/ StronglySorted vle ids ->
  compress_then_toArray stack (S (length u)) ids = Ok u.
Proof.
  intros Hwf Hs Hel Hgood Hcap Hroom.
  unfold compress_then_toArray, compress.
  unfold bindS at 1. unfold Arr.read at 1. rewrite lookup_singleton_eq.
  set (buf := Buf.alloc _).
  assert (Hbuf : (21 * length u <= length buf)%nat).
  { subst buf. rewrite alloc_length.
    change (1 + 20 + Z.of_nat (length ids) / 5)
      with (21 + Z.of_nat (length ids) / 5). lia. }
  destruct ids as [|id0 ids0].
  - assert (u = []).
    { destruct u as [|x u]; [reflexivity|]. exfalso.
      specialize (Hel x). rewrite elem_of_nil in Hel. apply Hel. left. }
    subst u. unfold bindS at 1. unfold appendCompressed.
    unfold bindS at 1. unfold Arr.read at 1. rewrite lookup_singleton_eq.
    change (length (@nil KSUID.t) =? 0)%nat with true. cbv iota.
    unfold retS. cbn [fst bindR]. unfold Buf.subarray. cbn [Nat.sub take].
    unfold toArray, iter, CompressedSetIter.new. cbn [CompressedSet.content].
    cbn [length toArray_loop]. unfold bindS at 1.
    rewrite next_end
      by (cbn [seqlength content offset length]; rewrite ?length_take; lia).
    reflexivity.
  - set (ids := id0 :: ids0) in *.
    assert (Hwu : Forall KSUID.wf u).
    { rewrite Forall_forall in Hwf |- *. intros k Hk. apply Hwf, Hel, Hk. }
    assert (Hne : u <> []).
    { intros ->. specialize (Hel id0). rewrite elem_of_nil in Hel.
      apply Hel. left. }
    destruct (emit_roundtrip buf u Hne Hwu Hs Hgood Hbuf) as (c & Ec & Hdec).
    assert (Happ : fst (appendCompressed stack buf 0 {[0%nat := ids]})
                   = emit buf u).
    { destruct (appendCompressed_emit stack buf ids u {[0%nat := ids]} 0%nat
                  (lookup_singleton_eq _ _) Hwf ltac:(discriminate) Hs Hel)
        as [H|(_ & Hlt & Hns)]; [exact H|].
      destruct Hroom as [Hroom|Hroom]; [lia|contradiction]. }
    rewrite Ec in Happ. unfold bindS at 1.
    destruct (appendCompressed stack buf 0 {[0%nat := ids]}) as [r h'].
    cbn [fst] in Happ. subst r. cbn [fst retS bindR].
    apply Hdec. lia.
Qed.

(** X14 (instance). Six arguments, out of order and with a duplicate, whose
    distinct members end in a run of three; the call stack has room for
    five calls. *)
Lemma compress_toArray_roundtrip_witness :
  compress_then_toArray 5 6
    [ident 2 7; ident 1 9; ident 2 3; ident 1 9; ident 2 9; ident 2 8]
  = Ok [ident 1 9; ident 2 3; ident 2 7; ident 2 8; ident 2 9].
Proof.
  apply (compress_toArray_roundtrip 5
           [ident 2 7; ident 1 9; ident 2 3; ident 1 9; ident 2 9; ident 2 8]
           [ident 1 9; ident 2 3; ident 2 7; ident 2 8; ident 2 9]).
  - repeat constructor.
  - repeat (constructor; [|repeat (constructor; [vm_compute; reflexivity|])];
            try constructor).
  - intros k. rewrite !elem_of_cons, !elem_of_nil. tauto.
  - intros i j a c d Ha Hc Hts Hv Hd Htd.
    destruct i as [|[|[|[|[|i]]]]]; cbn [lookup list_lookup] in Ha, Hc;
      try discriminate Hc; try (destruct i; discriminate Hc);
      injection Ha as <-; injection Hc as <-;
      try (vm_compute in Hv; discriminate Hv).
    clear Hv Hts Htd.
    destruct j as [|[|[|j]]]; cbn [lookup list_lookup] in Hd;
      try discriminate Hd; try (destruct j; discriminate Hd);
      injection Hd as <-; (split; [vm_compute; reflexivity|clear; lia]).
  - vm_compute. discriminate.
  - left. cbn [length]. lia.
Defined.

(** ** Variable-length fields *)

(** X15. [varintLength32], [varintLength64BigInt] and [varintLength128]
    return the least number of bytes that hold their argument: between 1 and
    4, 8 and 16 respectively, with the argument below 256^n and, unless
    n = 1, at least 256^(n-1). *)
Theorem varintLength_is_minimal (v : Z) (x : Uint128.t) :
  (0 <= v < 2 ^ 32 ->
   let n := varintLength32 v in
   1 <= n <= 4 /\ v < 256 ^ n /\ (1 < n -> 256 ^ (n - 1) <= v)) /\
  (0 <= v < 2 ^ 64 ->
   let n := varintLength64BigInt v in
   1 <= n <= 8 /\ v < 256 ^ n /\ (1 < n -> 256 ^ (n - 1) <= v)) /\
  (Uint128.wf x ->
   let n := varintLength128 x in
   1 <= n <= 16 /\ Uint128.toZ x < 256 ^ n
   /\ (1 < n -> 256 ^ (n - 1) <= Uint128.toZ x)).
Proof.
  split; [apply varintLength32_minimal|].
  split; [apply varintLength64BigInt_minimal|apply varintLength128_minimal].
Qed.

Lemma copy_at_frame (src out tail : Buffer) :
  (length src <= length tail)%nat ->
  let b' := Buf.copy_at src (out ++ tail) (length out) in
  length b' = length (out ++ tail)
  /\ Buf.subarray b' (length out) (length out + length src) = src
  /\ take (length out) b' = out
  /\ drop (length out + length src) b' = drop (length src) tail.
Proof.
  intros H b'. subst b'. rewrite copy_at_length.
  split; [reflexivity|]. rewrite copy_at_app by exact H.
  rewrite <- app_assoc. split; [apply subarray_mid|].
  split; [apply take_app_length|].
  rewrite (app_assoc out src), drop_app_length'
    by (rewrite length_app; reflexivity).
  reflexivity.
Qed.

(** X16. A field written by [appendVarint32] or [appendVarint128] with the
    length the matching length helper returns is read back by
    [readVarint32] or [readVarint128] as the value written, and the write
    changes no other byte.  A count written by [appendVarint64] with the
    length [varintLength64] returns is read back by [readVarint64] modulo
    256. *)
Theorem varint_write_read (buf : Buffer) (off : nat) :
  (forall v, 0 <= v <= 0xffffffff ->
     let n := Z.to_nat (varintLength32 v) in
     (off + n <= length buf)%nat ->
     exists buf',
       appendVarint32 buf off v (varintLength32 v) = Ok buf'
       /\ length buf' = length buf
       /\ readVarint32 (Buf.subarray buf' off (off + n)) = Ok v
       /\ take off buf' = take off buf
       /\ drop (off + n) buf' = drop (off + n) buf) /\
  (forall x, Uint128.wf x ->
     let n := Z.to_nat (varintLength128 x) in
     (off + n <= length buf)%nat ->
     exists buf',
       appendVarint128 buf off x (varintLength128 x) = Ok buf'
       /\ length buf' = length buf
       /\ readVarint128 (Buf.subarray buf' off (off + n)) = Ok x
       /\ take off buf' = take off buf
       /\ drop (off + n) buf' = drop (off + n) buf) /\
  (forall v, 0 <= v < 2 ^ 53 ->
     (off + 1 <= length buf)%nat ->
     exists buf',
       appendVarint64 buf off v (varintLength64 v) = Ok buf'
       /\ length buf' = length buf
       /\ readVarint64 (Buf.subarray buf' off (off + 1)) = Ok (v mod 256)
       /\ take off buf' = take off buf
       /\ drop (off + 1) buf' = drop (off + 1) buf).
Proof.
  assert (Hsplit : forall k, (off + k <= length buf)%nat ->
            exists out tail, buf = out ++ tail /\ length out = off
                             /\ (k <= length tail)%nat).
  { intros k Hk. exists (take off buf), (drop off buf).
    rewrite take_drop, length_take, length_drop. repeat split; lia. }
  split; [|split].
  - intros v Hv n Hfit.
    pose proof (varintLength32_minimal v ltac:(lia)) as (Hn & Hlt & _).
    cbv zeta in Hn, Hlt. fold n in Hn, Hlt.
    assert (En : varintLength32 v = Z.of_nat n) by lia.
    destruct (Hsplit n Hfit) as (out & tail & -> & Ho & Ht). subst off.
    rewrite En, appendVarint32_field by lia.
    destruct (copy_at_frame (Buf.be_bytes n v) out tail) as (H1 & H2 & H3 & H4);
      [rewrite be_bytes_length; exact Ht|].
    rewrite be_bytes_length in H2, H4.
    eexists. split; [reflexivity|]. split; [exact H1|].
    split; [rewrite H2; apply readVarint32_be_bytes; [lia|rewrite <- En; lia]|].
    split; [rewrite H3, take_app_length; reflexivity|].
    rewrite H4, drop_app_ge, Nat.add_sub' by lia. reflexivity.
  - intros x Hx n Hfit.
    pose proof (varintLength128_minimal x Hx) as (Hn & Hlt & _).
    cbv zeta in Hn, Hlt. fold n in Hn, Hlt.
    assert (En : varintLength128 x = Z.of_nat n) by lia.
    destruct (Hsplit n Hfit) as (out & tail & -> & Ho & Ht). subst off.
    rewrite En, appendVarint128_field by (assumption || lia).
    destruct (copy_at_frame (Buf.be_bytes n (Uint128.toZ x)) out tail)
      as (H1 & H2 & H3 & H4); [rewrite be_bytes_length; exact Ht|].
    rewrite be_bytes_length in H2, H4.
    eexists. split; [reflexivity|]. split; [exact H1|].
    split; [rewrite H2; apply readVarint128_be_bytes;
            [lia|exact Hx|rewrite <- En; lia]|].
    split; [rewrite H3, take_app_length; reflexivity|].
    rewrite H4, drop_app_ge, Nat.add_sub' by lia. reflexivity.
  - intros v Hv Hfit.
    destruct (Hsplit 1%nat Hfit) as (out & tail & -> & Ho & Ht). subst off.
    rewrite varintLength64_eq_1.
    rewrite (appendVarint64_field _ _ _ 1) by lia.
    destruct (copy_at_frame (Buf.be_bytes 1 v) out tail) as (H1 & H2 & H3 & H4);
      [rewrite be_bytes_length; exact Ht|].
    rewrite be_bytes_length in H2, H4.
    eexists. split; [reflexivity|]. split; [exact H1|].
    split.
    + rewrite H2.
      replace (Buf.be_bytes 1 v) with (Buf.be_bytes 1 (v mod 256)).
      * pose proof (Z.mod_pos_bound v 256 ltac:(lia)).
        apply readVarint64_be_bytes; [lia| |lia].
        change (256 ^ Z.of_nat 1) with 256. lia.
      * cbn [Buf.be_bytes app]. rewrite to_uint8_mod. reflexivity.
    + split; [rewrite H3, take_app_length; reflexivity|].
      rewrite H4, drop_app_ge, Nat.add_sub' by lia. reflexivity.
Qed.

(** ** The outcomes of the encoder *)

Lemma set_length (buf : Buffer) (p : nat) (v : Z) :
  length (Buf.set buf p v) = length buf.
Proof. unfold Buf.set. apply length_insert. Qed.

(** One turn of the main loop on an ascending array succeeds, whatever the
    buffer holds: it ends at an identifier of the timestamp of [id], at or
    behind [id]. *)
Lemma turn_total (u : list KSUID.t) (i p : nat) (id : KSUID.t) (ts : Z)
    (last : Uint128.t) (buf : Buffer) :
  u !! i = Some id -> Forall KSUID.wf u -> StronglySorted vlt (drop i u) ->
  0 <= ts <= tsOf id -> Z.of_nat (length u) < 2 ^ 32 ->
  exists i' p' last' buf' id',
    loopBody u (mkLoop i p ts last buf)
    = Ok (mkLoop i' p' (tsOf id) last' buf', Next)
    /\ (i <= i')%nat /\ u !! i' = Some id' /\ tsOf id' = tsOf id
    /\ length buf' = length buf.
Proof.
  intros Hget Hwf Hs Hts Hlen.
  assert (Hwi : KSUID.wf id).
  { rewrite Forall_forall in Hwf. apply Hwf.
    apply (list_elem_of_lookup_2 _ i). exact Hget. }
  destruct (parts_of id Hwi) as (Et & Ep & Hr & Hp & Ek & _).
  unfold loopBody. rewrite (Arr_get_Some _ _ _ Hget). cbn [bindR].
  rewrite Et. cbn [bindR]. rewrite Ep. cbn [bindR].
  destruct (Z.eqb_spec (tsOf id) ts) as [E|E]; cbn [negb].
  2:{ pose proof (varintLength32_minimal (tsOf id - ts) ltac:(lia)) as (Hn & _).
      cbv zeta in Hn. unfold JS.sub. rewrite round53_small by lia.
      set (n := Z.to_nat (varintLength32 (tsOf id - ts))).
      replace (varintLength32 (tsOf id - ts)) with (Z.of_nat n) by lia.
      rewrite appendVarint32_field by lia. cbn [bindR].
      do 4 eexists. exists id. split; [reflexivity|].
      split; [lia|]. split; [exact Hget|]. split; [reflexivity|].
      rewrite !copy_at_length, set_length. reflexivity. }
  set (d := Uint128.sub (plOf id) last).
  pose proof (sub_wf (plOf id) last) as Hd. fold d in Hd.
  assert (Hdelta : exists buf',
            (let deltaLength := varintLength128 d in
             let buffer := Buf.set buf p (JS.bor PAYLOAD_DELTA deltaLength) in
             let pos := S p in
             let? buffer := appendVarint128 buffer pos d deltaLength in
             let pos := (pos + Z.to_nat deltaLength)%nat in
             Ok (mkLoop i pos ts last buffer, Next))
            = Ok (mkLoop i (S p + Z.to_nat (varintLength128 d)) ts last buf', Next)
            /\ length buf' = length buf).
  { pose proof (varintLength128_minimal d Hd) as (Hn & _). cbv zeta in Hn |- *.
    set (n := Z.to_nat (varintLength128 d)).
    replace (varintLength128 d) with (Z.of_nat n) by lia.
    rewrite appendVarint128_field by (assumption || lia). cbn [bindR].
    eexists. split; [reflexivity|]. rewrite copy_at_length, set_length.
    reflexivity. }
  destruct Hdelta as (bufd & Edelta & Hlend). cbv zeta in Edelta.
  destruct (Uint128.equals d Uint128.one) eqn:Eone; cbn [negb].
  2:{ rewrite Edelta. do 4 eexists. exists id. split; [rewrite E; reflexivity|].
      split; [lia|]. split; [exact Hget|]. split; [reflexivity|exact Hlend]. }
  (* the successor of the last payload: look for a run *)
  assert (Hwt : Forall KSUID.wf (drop (S i) u)) by (apply Forall_drop; exact Hwf).
  destruct (run_split ts (drop (S i) u) (plOf id) Hwt) as (m & rest & Edrop & Hrest).
  assert (Hstop : stops ts (advance (plOf id) m) rest).
  { apply stops_of_sorted; [|rewrite Edrop in Hwt; apply Forall_app in Hwt; tauto
                            |exact Hrest].
    rewrite <- Edrop. replace (assemble ts (plOf id)) with id
      by (rewrite <- E; exact Ek).
    rewrite (drop_S _ _ _ Hget) in Hs. exact Hs. }
  pose proof (rangeLength_run ts rest m (plOf id) 0 0 ltac:(lia) Hp Hstop) as Hrl.
  cbn [Nat.add] in Hrl. rewrite <- Edrop in Hrl.
  replace (assemble ts (plOf id)) with id in Hrl by (rewrite <- E; exact Ek).
  unfold rangeLength. rewrite Nat.add_1_r, Hrl. cbn [bindR].
  destruct (Nat.ltb_spec 0 m) as [Hm|Hm].
  2:{ rewrite Edelta. do 4 eexists. exists id. split; [rewrite E; reflexivity|].
      split; [lia|]. split; [exact Hget|]. split; [reflexivity|exact Hlend]. }
  assert (Hlen' : (S i + m <= length u)%nat).
  { pose proof (f_equal length Edrop) as Hl.
    rewrite length_drop, length_app, run_ids_length in Hl. lia. }
  set (newId := assemble ts (advance (plOf id) (S (m - 1)))).
  assert (Hnew : u !! (i + m)%nat = Some newId).
  { replace (i + m)%nat with (S i + (m - 1))%nat by lia.
    rewrite <- lookup_drop, Edrop, lookup_app_l by (rewrite run_ids_length; lia).
    apply run_ids_lookup. lia. }
  destruct (parts_of newId (assemble_wf _ _)) as (_ & Epn & _).
  unfold JS.add. rewrite round53_small by lia.
  rewrite varintLength64_eq_1.
  rewrite (appendVarint64_field _ _ _ 1) by lia. cbn [bindR].
  destruct (Nat.ltb_spec (i + m) (length u)) as [_|]; [|lia].
  rewrite (Arr_get_Some _ _ _ Hnew). cbn [bindR]. rewrite Epn. cbn [bindR].
  do 4 eexists. exists newId. split; [rewrite E; reflexivity|].
  split; [lia|]. split; [exact Hnew|].
  split; [|rewrite copy_at_length, set_length; reflexivity].
  rewrite E. apply assemble_parts; [apply advance_wf; exact Hp|lia].
Qed.

(** The main loop on an ascending array returns, and keeps the length of
    the buffer. *)
Lemma loop_total (u : list KSUID.t) (n : nat) :
  forall (fuel i p : nat) (prev : KSUID.t) (last : Uint128.t) (buf : Buffer),
    (length u - i <= n)%nat -> (length u - i <= fuel)%nat ->
    Forall KSUID.wf u -> StronglySorted vlt u ->
    Z.of_nat (length u) < 2 ^ 32 ->
    u !! (i - 1)%nat = Some prev -> (1 <= i)%nat ->
    exists s',
      loop fuel u (mkLoop i p (tsOf prev) last buf) = Ok s'
      /\ length (buffer s') = length buf.
Proof.
  induction n as [|n IH]; intros fuel i p prev last buf Hn Hfuel Hwf Hs Hlen Hprev Hi.
  - exists (mkLoop i p (tsOf prev) last buf).
    split; [|reflexivity].
    destruct fuel; cbn [loop CompressedSet.i];
      (destruct (Nat.ltb_spec i (length u)); [lia|reflexivity]).
  - destruct (Nat.ltb_spec i (length u)) as [Hlt|Hge].
    2:{ exists (mkLoop i p (tsOf prev) last buf). split; [|reflexivity].
        destruct fuel; cbn [loop CompressedSet.i];
          (destruct (Nat.ltb_spec i (length u)); [lia|reflexivity]). }
    destruct fuel as [|fuel]; [lia|].
    cbn [loop CompressedSet.i].
    destruct (Nat.ltb_spec i (length u)) as [_|]; [|lia].
    destruct (lookup_lt_is_Some_2 u i Hlt) as (id & Hget).
    assert (Hwp : KSUID.wf prev /\ KSUID.wf id).
    { rewrite Forall_forall in Hwf. split; apply Hwf.
      - apply (list_elem_of_lookup_2 _ (i - 1)). exact Hprev.
      - apply (list_elem_of_lookup_2 _ i). exact Hget. }
    destruct Hwp as [Hwp Hwi].
    assert (Hlt' : vlt prev id).
    { rewrite <- (take_drop (i - 1) u) in Hs.
      apply StronglySorted_app_1_r in Hs.
      rewrite (drop_S _ _ _ Hprev) in Hs.
      apply StronglySorted_inv in Hs as [_ Hall].
      rewrite Forall_forall in Hall. apply Hall.
      apply (list_elem_of_lookup_2 _ 0).
      rewrite lookup_drop. rewrite <- Hget. f_equal. lia. }
    destruct (vlt_parts prev id Hwp Hwi Hlt') as [Hle _].
    destruct (parts_of prev Hwp) as (_ & _ & Hrp & _).
    destruct (turn_total u i p id (tsOf prev) last buf Hget Hwf
                ltac:(rewrite <- (take_drop i u) in Hs;
                      apply StronglySorted_app_1_r in Hs; exact Hs)
                ltac:(lia) Hlen)
      as (i' & p' & last' & buf' & id' & Eturn & Hi' & Hget' & Hts' & Hl').
    rewrite Eturn.
    cbn [bindR CompressedSet.i pos buffer CompressedSet.timestamp
           CompressedSet.lastValue].
    pose proof (lookup_lt_Some _ _ _ Hget') as Hlt2.
    rewrite <- Hts'.
    destruct (IH fuel (S i') p' id' last' buf' ltac:(lia) ltac:(lia) Hwf Hs Hlen)
      as (s' & Eloop & Hls).
    { rewrite <- Hget'. f_equal. lia. }
    { lia. }
    exists s'. split; [exact Eloop|]. rewrite Hls. exact Hl'.
Qed.

(** Every argument list has an ascending array of its distinct members. *)
Lemma ascending_exists (ids : list KSUID.t) :
  Forall KSUID.wf ids ->
  exists u, StronglySorted vlt u /\ (forall k, k ∈ u <-> k ∈ ids)
            /\ (length u <= length ids)%nat.
Proof.
  intros Hwf.
  destruct (dedupe_spec ids ∅ [] {[0%nat := []]} 0%nat Hwf ltac:(constructor)
              (NoDup_nil_2)) as (u0 & _ & Hnd & Hw0 & Hel0 & _).
  { intros s. split; [intros H; apply elem_of_empty in H; contradiction|].
    intros (x & Hx & _). apply elem_of_nil in Hx. contradiction. }
  { apply lookup_singleton_eq. }
  destruct (sort_spec (length u0) u0 Hw0)
    as [(out & _ & Hp & Hso)|(_ & Hlt & _)]; [|lia].
  exists out. split; [|split].
  - apply sorted_strict; [rewrite Hp; exact Hw0|rewrite Hp; exact Hnd|exact Hso].
  - intros k. rewrite Hp, Hel0, elem_of_nil. tauto.
  - rewrite (Permutation_length Hp).
    apply (submseteq_length u0 ids). apply NoDup_submseteq; [exact Hnd|].
    intros k Hk. apply Hel0 in Hk as [Hk|Hk]; [|exact Hk].
    apply elem_of_nil in Hk. contradiction.
Qed.

(** X17. [compress] on 20-byte identifiers (fewer than 2^32 of them), with
    room on the call stack for [stack] nested calls of [quickSort].  It
    returns a compressed set whose content is no longer than the buffer it
    allocates, 10 * max(100, 21 + floor(n/5)) bytes for n arguments, the
    empty argument list giving the empty content; or it throws the
    RangeError of the exhausted call stack, and that only when the
    arguments are not in ascending order and the call stack has room for
    fewer calls than there are arguments.  It throws nothing else. *)
Theorem compress_outcomes (stack : nat) (ids : list KSUID.t) :
  Forall KSUID.wf ids -> Z.of_nat (length ids) < 2 ^ 32 ->
  ((exists c,
      fst (compress stack 0 ({[0%nat := ids]} : Heap)) = Ok c
      /\ Z.of_nat (length (CompressedSet.content c))
         <= 10 * Z.max 100 (21 + Z.of_nat (length ids) / 5)
      /\ (ids = [] -> CompressedSet.content c = []))
   \/ (fst (compress stack 0 ({[0%nat := ids]} : Heap)) = Err RangeError
       /\ (stack < length ids)%nat /\ ~ StronglySorted vle ids))
  /\ ((length ids <= stack)%nat \/ StronglySorted vle ids ->
      exists c, fst (compress stack 0 ({[0%nat := ids]} : Heap)) = Ok c).
Proof.
  intros Hwf Hlen.
  assert (Hout :
    (exists c,
       fst (compress stack 0 ({[0%nat := ids]} : Heap)) = Ok c
       /\ Z.of_nat (length (CompressedSet.content c))
          <= 10 * Z.max 100 (21 + Z.of_nat (length ids) / 5)
       /\ (ids = [] -> CompressedSet.content c = []))
    \/ (fst (compress stack 0 ({[0%nat := ids]} : Heap)) = Err RangeError
        /\ (stack < length ids)%nat /\ ~ StronglySorted vle ids)).
  2:{ split; [exact Hout|]. intros Hroom.
      destruct Hout as [(c & E & _)|(_ & Hlt & Hns)]; [exists c; exact E|].
      destruct Hroom as [Hroom|Hroom]; [lia|contradiction]. }
  set (P := fun r : Result CompressedSet.t =>
              (exists c,
                 r = Ok c
                 /\ Z.of_nat (length (CompressedSet.content c))
                    <= 10 * Z.max 100 (21 + Z.of_nat (length ids) / 5)
                 /\ (ids = [] -> CompressedSet.content c = []))
              \/ (r = Err RangeError
                  /\ (stack < length ids)%nat /\ ~ StronglySorted vle ids)).
  change (P (fst (compress stack 0 ({[0%nat := ids]} : Heap)))).
  unfold compress.
  unfold bindS at 1. unfold Arr.read at 1. rewrite lookup_singleton_eq.
  set (buf := Buf.alloc _).
  assert (Hbuf : Z.of_nat (length buf)
                 = 10 * Z.max 100 (21 + Z.of_nat (length ids) / 5)).
  { subst buf. rewrite alloc_length.
    change (1 + 20 + Z.of_nat (length ids) / 5)
      with (21 + Z.of_nat (length ids) / 5). lia. }
  destruct ids as [|id0 ids0].
  - unfold bindS at 1. unfold appendCompressed.
    unfold bindS at 1. unfold Arr.read at 1. rewrite lookup_singleton_eq.
    change (length (@nil KSUID.t) =? 0)%nat with true. cbv iota.
    unfold retS. left. eexists. split; [reflexivity|].
    cbn [CompressedSet.content]. unfold Buf.subarray. cbn [Nat.sub take length].
    split; [|reflexivity].
    rewrite length_take. lia.
  - set (ids := id0 :: ids0) in *.
    destruct (ascending_exists ids Hwf) as (u & Hs & Hel & Hlu).
    assert (Hwu : Forall KSUID.wf u).
    { rewrite Forall_forall in Hwf |- *. intros k Hk. apply Hwf, Hel, Hk. }
    pose proof (appendCompressed_emit stack buf ids u {[0%nat := ids]} 0%nat
                  (lookup_singleton_eq _ _) Hwf ltac:(discriminate) Hs Hel)
      as Happ.
    destruct u as [|first todo].
    { exfalso. specialize (Hel id0). rewrite elem_of_nil in Hel.
      apply Hel. left. }
    pose proof Hwu as Hw. apply Forall_cons in Hw as [Hw _].
    destruct (parts_of first Hw) as (Et & Ep & _).
    destruct (loop_total (first :: todo) (length (first :: todo))
                (length (first :: todo)) 1 (0 + 1 + 20) first (plOf first)
                (Buf.copy_at (KSUID.toBuffer first)
                   (Buf.set buf 0 RAW_KSUID) 1))
      as (s' & Eloop & Hls);
      [lia|lia|exact Hwu|exact Hs|lia|reflexivity|lia|].
    assert (Eemit : emit buf (first :: todo)
                    = Ok (Buf.subarray (buffer s') 0 (pos s'))).
    { unfold emit. change (Arr.get (first :: todo) 0) with (Ok first).
      cbn [bindR]. rewrite Et, Ep. cbn [bindR].
      change (1 + 20)%nat with (0 + 1 + 20)%nat. rewrite Eloop. reflexivity. }
    rewrite Eemit in Happ. unfold bindS at 1.
    destruct (appendCompressed stack buf 0 {[0%nat := ids]}) as [r h'].
    cbn [fst] in Happ. destruct Happ as [->|(-> & Hlt & Hns)].
    + unfold retS. left. eexists. split; [reflexivity|].
      cbn [CompressedSet.content]. split; [|discriminate].
      unfold Buf.subarray. rewrite length_take, drop_0, Hls.
      rewrite copy_at_length, set_length. lia.
    + right. split; [reflexivity|]. split; [lia|exact Hns].
Qed.

(** X17 (instance). Three arguments out of order, one of them twice: with
    room for three calls they are compressed, and with room for one call
    only [compress] throws. *)
Lemma compress_outcomes_witness :
  (exists c,
     fst (compress 3 0 ({[0%nat := [ident 2 7; ident 1 9; ident 2 7]]} : Heap))
     = Ok c) /\
  fst (compress 1 0 ({[0%nat := [ident 2 7; ident 1 9; ident 2 7]]} : Heap))
  = Err RangeError.
Proof.
  split.
  - apply (compress_outcomes 3 [ident 2 7; ident 1 9; ident 2 7]).
    + repeat constructor.
    + vm_compute. reflexivity.
    + left. cbn [length]. lia.
  - destruct (proj1 (compress_outcomes 1 [ident 2 7; ident 1 9; ident 2 7]
                       ltac:(repeat constructor)
                       ltac:(vm_compute; reflexivity)))
      as [(c & E & _)|(E & _)]; [|exact E].
    vm_compute in E. discriminate E.
Defined.

(** ** The order of the texts *)

(** The value of a character of the alphabet grows with its code. *)
Lemma CHAR_MAP_code (c : Ascii.ascii) (v : Z) :
  Base62.CHAR_MAP !! c = Some v ->
  let n := Z.of_N (Ascii.N_of_ascii c) in
  (48 <= n <= 57 /\ v = n - 48) \/ (65 <= n <= 90 /\ v = n - 55)
  \/ (97 <= n <= 122 /\ v = n - 61).
Proof.
  destruct c as [[] [] [] [] [] [] [] []]; vm_compute; intros H;
    first [discriminate H
          | injection H as <-;
            first [left; repeat split; congruence
                  | right; left; repeat split; congruence
                  | right; right; repeat split; congruence]].
Qed.

Lemma char_order (c c' : Ascii.ascii) (v v' : Z) :
  Base62.CHAR_MAP !! c = Some v -> Base62.CHAR_MAP !! c' = Some v' ->
  Ascii.compare c c' = (v ?= v').
Proof.
  intros H H'. apply CHAR_MAP_code in H, H'. cbv zeta in H, H'.
  unfold Ascii.compare. rewrite <- N2Z.inj_compare.
  destruct (Z.compare_spec (Z.of_N (Ascii.N_of_ascii c))
              (Z.of_N (Ascii.N_of_ascii c'))) as [E|E|E];
    symmetry; [apply Z.compare_eq_iff|apply Z.compare_lt_iff
              |apply Z.compare_gt_iff]; lia.
Qed.

Lemma decode_loop_value (s : string) (n v : Z) :
  Base62.decode_loop s n = Ok v ->
  exists w, v = n * 62 ^ Z.of_nat (String.length s) + w
            /\ 0 <= w < 62 ^ Z.of_nat (String.length s).
Proof.
  revert n. induction s as [|c s IH]; intros n H.
  - cbn in H. injection H as <-. exists 0. cbn. lia.
  - cbn [Base62.decode_loop] in H.
    pose proof (CHAR_MAP_spec c) as Hc.
    destruct (Base62.CHAR_MAP !! c) as [d|]; [|discriminate].
    destruct Hc as [Hd _]. apply IH in H as (w & -> & Hw).
    unfold Base62.BASE. cbn [String.length].
    rewrite Nat2Z.inj_succ, Z.pow_succ_r by lia.
    exists (d * 62 ^ Z.of_nat (String.length s) + w). split; [lia|nia].
Qed.

(** Texts of one length over the alphabet compare like their values. *)
Lemma decode_loop_order (s : string) :
  forall (s' : string) (n v v' : Z),
    String.length s = String.length s' ->
    Base62.decode_loop s n = Ok v -> Base62.decode_loop s' n = Ok v' ->
    String.compare s s' = (v ?= v').
Proof.
  induction s as [|c s IH]; intros s' n v v' Hlen H H';
    destruct s' as [|c' s']; try discriminate Hlen.
  - cbn in H, H'. injection H as <-. injection H' as <-.
    cbn. symmetry. apply Z.compare_refl.
  - injection Hlen as Hlen. cbn [Base62.decode_loop] in H, H'.
    cbn [String.compare].
    destruct (Base62.CHAR_MAP !! c) as [d|] eqn:Ec; [|discriminate].
    destruct (Base62.CHAR_MAP !! c') as [d'|] eqn:Ec'; [|discriminate].
    rewrite (char_order c c' d d' Ec Ec').
    destruct (Z.compare_spec d d') as [E|E|E].
    + subst d'. apply (IH s' _ _ _ Hlen H H').
    + apply decode_loop_value in H as (w & -> & Hw).
      apply decode_loop_value in H' as (w' & -> & Hw').
      rewrite <- Hlen in *. unfold Base62.BASE. symmetry.
      apply Z.compare_lt_iff. nia.
    + apply decode_loop_value in H as (w & -> & Hw).
      apply decode_loop_value in H' as (w' & -> & Hw').
      rewrite <- Hlen in *. unfold Base62.BASE. symmetry.
      apply Z.compare_gt_iff. nia.
Qed.

(** X18. The texts of two 20-byte identifiers compare, character by
    character in the order of the character codes, like the identifiers
    themselves: [toString] preserves the order of [compare]. *)
Theorem toString_preserves_order (a b : KSUID.t) :
  KSUID.wf a -> KSUID.wf b ->
  exists s s',
    KSUID.toString a = Ok s /\ KSUID.toString b = Ok s' /\
    String.compare s s' = (value a ?= value b) /\
    KSUID.compare a b
    = match String.compare s s' with Lt => -1 | Eq => 0 | Gt => 1 end.
Proof.
  intros Ha Hb.
  destruct (encode_20 _ Ha) as (s & Es & Hl & Hd).
  destruct (encode_20 _ Hb) as (s' & Es' & Hl' & Hd').
  exists s, s'. unfold KSUID.toString.
  split; [exact Es|]. split; [exact Es'|].
  assert (E : String.compare s s' = (value a ?= value b)).
  { apply (decode_loop_order s s' 0); [congruence|exact Hd|exact Hd']. }
  split; [exact E|]. rewrite E. apply ksuid_compare_value; assumption.
Qed.

(** X18 (instance). *)
Lemma toString_preserves_order_witness :
  exists s s',
    KSUID.toString (ident 1 9) = Ok s /\ KSUID.toString (ident 2 3) = Ok s' /\
    String.compare s s' = (value (ident 1 9) ?= value (ident 2 3)) /\
    KSUID.compare (ident 1 9) (ident 2 3)
    = match String.compare s s' with Lt => -1 | Eq => 0 | Gt => 1 end.
Proof.
  apply (toString_preserves_order (ident 1 9) (ident 2 3)); reflexivity.
Defined.

(** ** A run that never ends *)

(** [next] inside a run, whatever the count. *)
Lemma next_in_run (c : Buffer) (o : nat) (k : KSUID.t) (sq ts : Z)
    (last : Uint128.t) :
  0 < sq -> 0 <= ts <= 0xffffffff ->
  next (mkIter k c o sq ts last)
  = (Ok true,
     mkIter (assemble ts (Uint128.incr last)) c o (JS.sub sq 1) ts
       (Uint128.incr last)).
Proof.
  intros Hsq Hts. unfold next, bindS, getS, liftS.
  cbn [content offset seqlength timestamp lastValue ksuid].
  destruct (Z.ltb_spec 0 sq); [|lia].
  pose proof (materialise ts (Uint128.incr last)) as Hmat.
  rewrite incr_add_one in Hmat |- *. specialize (Hmat (add_wf _ _) Hts).
  destruct (Uint128.ksuid (Uint128.add last Uint128.one) ts) as [b|e];
    cbn [bindR] in Hmat; [|discriminate].
  rewrite Hmat. reflexivity.
Qed.

(** X19. When the count of a run is so large that subtracting 1 does not
    change it as a double, every later call of [next] returns true without
    reading the buffer, and the count stays what it is: the iterator never
    reaches the end.  Nine bytes at the start of a buffer are enough: a
    PayloadRange tag with an 8-byte count of 2^64 - 1, which [Number] reads
    as 2^64; the loop of [toArray] on such a buffer is still running when
    the result has as many members as a JavaScript array can hold. *)
Theorem next_never_ends :
  (forall s : CompressedSetIter.t,
     0 < seqlength s -> JS.sub (seqlength s) 1 = seqlength s ->
     0 <= timestamp s <= 0xffffffff ->
     forall n : nat,
       let sn := Nat.iter n (fun st => snd (next st)) s in
       fst (next sn) = Ok true /\ seqlength sn = seqlength s
       /\ offset sn = offset s /\ content sn = content s) /\
  (forall rest : Buffer,
     let c := [xc8; xff; xff; xff; xff; xff; xff; xff; xff]%byte ++ rest in
     let s1 := snd (next (CompressedSetIter.new c)) in
     fst (next (CompressedSetIter.new c)) = Ok true /\
     seqlength s1 = 2 ^ 64 /\ JS.sub (seqlength s1) 1 = seqlength s1 /\
     timestamp s1 = 0 /\
     forall fuel, Z.of_nat fuel < 2 ^ 32 ->
                  toArray fuel (fromBuffer c) = Err OutOfFuel).
Proof.
  assert (Hstuck : forall fuel acc k c o sq ts last,
            0 < sq -> JS.sub sq 1 = sq -> 0 <= ts <= 0xffffffff ->
            fst (toArray_loop fuel acc (mkIter k c o sq ts last))
            = Err OutOfFuel).
  { induction fuel as [|fuel IH]; intros acc k c o sq ts last Hsq Hsub Hts;
      [reflexivity|].
    rewrite (toArray_loop_step _ _ _ _ (next_in_run c o k sq ts last Hsq Hts)).
    rewrite Hsub. apply IH; assumption. }
  split.
  - intros [k c o sq ts last]. cbn [seqlength timestamp offset content].
    intros Hsq Hsub Hts n.
    assert (Hn : exists k' last',
              Nat.iter n (fun st => snd (next st)) (mkIter k c o sq ts last)
              = mkIter k' c o sq ts last').
    { induction n as [|n (k' & last' & IH)]; [exists k, last; reflexivity|].
      rewrite Nat.iter_succ, IH, next_in_run by assumption.
      cbn [snd]. rewrite Hsub. eauto. }
    destruct Hn as (k' & last' & ->). cbv zeta.
    rewrite next_in_run by assumption. cbn. auto.
  - intros rest c.
    assert (Hn : next (CompressedSetIter.new c)
                 = (Ok true,
                    mkIter (assemble 0 (Uint128.incr Uint128.zero)) c 9
                      (2 ^ 64) 0 (Uint128.incr Uint128.zero))).
    { unfold CompressedSetIter.new.
      rewrite (next_record _ xc8%byte) by (cbn; first [lia|reflexivity]).
      change (tag_of xc8) with PAYLOAD_RANGE. change (cnt_of xc8) with 8.
      cbn [content offset seqlength timestamp lastValue ksuid].
      change (PAYLOAD_RANGE =? RAW_KSUID) with false.
      change (PAYLOAD_RANGE =? TIME_DELTA) with false.
      change (PAYLOAD_RANGE =? PAYLOAD_DELTA) with false.
      change (PAYLOAD_RANGE =? PAYLOAD_RANGE) with true. cbv iota.
      unfold casePayloadRange, bindS, getS, liftS.
      cbn [content offset timestamp lastValue].
      change (Buf.subarray c (0 + 1) (0 + 1 + Z.to_nat 8))
        with [xff; xff; xff; xff; xff; xff; xff; xff]%byte.
      change (readVarint64 [xff; xff; xff; xff; xff; xff; xff; xff]%byte)
        with (Ok (2 ^ 64)).
      unfold set_offset, set_ksuid, set_seqlength, set_lastValue.
      cbn [content offset seqlength timestamp lastValue ksuid].
      pose proof (materialise 0 (Uint128.incr Uint128.zero) (incr_wf _)
                    ltac:(lia)) as Hmat.
      destruct (Uint128.ksuid (Uint128.incr Uint128.zero) 0) as [b|e];
        cbn [bindR] in Hmat; [|discriminate].
      rewrite Hmat. reflexivity. }
    cbv zeta. rewrite Hn. cbn [fst snd seqlength timestamp].
    split; [reflexivity|]. split; [reflexivity|]. split; [reflexivity|].
    split; [reflexivity|].
    intros fuel _. destruct fuel as [|fuel]; [reflexivity|].
    unfold toArray, iter, fromBuffer. cbn [CompressedSet.content].
    rewrite (toArray_loop_step _ _ _ _ Hn).
    apply Hstuck; [reflexivity|reflexivity|lia].
Qed.

(** ** The records, one by one *)

(** X20. What [next] does at each kind of record, outside a run: a Raw
    record gives the identifier it holds; a TimeDelta record gives the
    identifier of the later timestamp and the payload that follows; a
    PayloadDelta record gives the identifier of the same timestamp whose
    payload is the last one plus the difference; a PayloadRange record with
    a one-byte count [m] gives the successor of the last identifier and
    leaves [m - 1] more to come.  Each time the offset moves past the
    record, and the timestamp and the last payload are those of the
    identifier given.  Inside a run [next] gives the successor and reads
    nothing; at the end of the buffer it returns false and changes
    nothing. *)
Theorem next_reads_records (pre rest : Buffer) (k : KSUID.t) (ts : Z)
    (last : Uint128.t) :
  let before (rec : Buffer) :=
    mkIter k (pre ++ rec ++ rest) (length pre) 0 ts last in
  let after (rec : Buffer) (id : KSUID.t) (sq t : Z) (v : Uint128.t) :=
    (Ok true,
     mkIter id (pre ++ rec ++ rest) (length (pre ++ rec)) sq t v) in
  (forall id, KSUID.wf id ->
     next (before (rawRecord id))
     = after (rawRecord id) id 0 (tsOf id) (plOf id)) /\
  (forall id, KSUID.wf id -> 0 <= ts < tsOf id ->
     next (before (timeRecord ts id))
     = after (timeRecord ts id) id 0 (tsOf id) (plOf id)) /\
  (forall d, Uint128.wf d -> 0 <= ts <= 0xffffffff ->
     next (before (deltaRecord d))
     = after (deltaRecord d) (assemble ts (Uint128.add last d)) 0 ts
         (Uint128.add last d)) /\
  (forall m, 0 <= m <= 255 -> 0 <= ts <= 0xffffffff ->
     next (before (rangeRecord m))
     = after (rangeRecord m) (assemble ts (Uint128.incr last)) (m - 1) ts
         (Uint128.incr last)) /\
  (forall c o sq, 0 < sq < 2 ^ 53 -> 0 <= ts <= 0xffffffff ->
     next (mkIter k c o sq ts last)
     = (Ok true,
        mkIter (assemble ts (Uint128.incr last)) c o (sq - 1) ts
          (Uint128.incr last))) /\
  (forall s, seqlength s <= 0 -> (length (content s) <= offset s)%nat ->
     next s = (Ok false, s)).
Proof.
  cbv zeta.
  split; [intros id Hid; apply next_rawRecord; [exact Hid|lia]|].
  split; [intros id Hid Hts; apply next_timeRecord; [exact Hid|lia|exact Hts]|].
  split; [intros d Hd Hts; apply next_deltaRecord; [exact Hd|lia|exact Hts]|].
  split; [intros m Hm Hts; apply next_rangeRecord; [lia|exact Hts|exact Hm]|].
  split; [intros c o sq Hsq Hts; apply next_play; assumption|].
  intros s Hs Ho. apply next_end; assumption.
Qed.

(** X21. What one turn of the main loop of [appendCompressed] writes for
    the identifier [id] at index [i], with room for 21 bytes left: a
    TimeDelta record when the timestamp of [id] is later than the current
    one; otherwise a PayloadDelta record for the difference to the last
    payload, unless that difference is 1; and when it is 1, a PayloadDelta
    record for 1 if no further successor follows, and a PayloadRange record
    if [m] further successors follow, after which the loop stands at the
    last of them.  The count of that record is one byte, [m + 1] modulo 256:
    it is [m + 1] for runs of up to 254 further successors, and a longer
    run loses the high part of its count.  [lastValue] becomes the payload
    of [id] in every case. *)
Theorem loopBody_writes_records (u : list KSUID.t) (i : nat) (id : KSUID.t)
    (out tail : Buffer) (ts : Z) (last : Uint128.t) :
  u !! i = Some id -> KSUID.wf id -> (21 <= length tail)%nat -> 0 <= ts ->
  let wrote (rec : Buffer) (i' : nat) :=
    loopBody u (mkLoop i (length out) ts last (out ++ tail))
    = Ok (mkLoop i' (length (out ++ rec)) (tsOf id) (plOf id)
            ((out ++ rec) ++ drop (length rec) tail), Next) in
  (ts < tsOf id -> wrote (timeRecord ts id) i) /\
  (tsOf id = ts -> Uint128.sub (plOf id) last <> Uint128.one ->
   wrote (deltaRecord (Uint128.sub (plOf id) last)) i) /\
  (tsOf id = ts -> Uint128.sub (plOf id) last = Uint128.one ->
   forall m rest,
     drop (S i) u = run_ids ts (plOf id) m ++ rest ->
     stops ts (advance (plOf id) m) rest -> Z.of_nat m + 1 < 2 ^ 53 ->
     wrote (if (m =? 0)%nat then deltaRecord Uint128.one
            else [tagByte PAYLOAD_RANGE 1;
                  to_uint8 ((Z.of_nat m + 1) mod 256)]) (i + m)%nat
     /\ byte_val (to_uint8 ((Z.of_nat m + 1) mod 256))
        = (Z.of_nat m + 1) mod 256
     /\ ((m <= 254)%nat -> (Z.of_nat m + 1) mod 256 = Z.of_nat m + 1)).
Proof.
  intros Hget Hwf Htail Hts. cbv zeta.
  split; [|split].
  - intros Hlt. apply turn_time; [assumption..|lia|assumption].
  - intros E Hne.
    destruct (turn_delta u i id out tail ts last Hget Hwf E Hne ltac:(lia))
      as [H _].
    cbv zeta in H. rewrite E. exact H.
  - intros E Hone m rest Hdrop Hstop Hm.
    split; [|split; [rewrite byte_val_to_uint8, Z.mod_mod by lia; reflexivity
                    |intros Hle; apply Z.mod_small; lia]].
    destruct m as [|m].
    + cbn [run_ids app advance] in Hdrop, Hstop. subst rest.
      destruct (turn_one u i id out tail ts last Hget Hwf E Hone Hstop
                  ltac:(lia)) as [H _].
      cbv zeta in H. change (0 =? 0)%nat with true. cbv iota.
      rewrite Nat.add_0_r, E. exact H.
    + change (S m =? 0)%nat with false. cbv iota. rewrite E.
      rewrite to_uint8_mod.
      apply (turn_range u i id out tail ts last (S m) rest); try assumption; lia.
Qed.

(** X21 (instance). The second of four consecutive identifiers: two more
    follow, and the record is a PayloadRange with count 3. *)
Lemma loopBody_writes_records_witness :
  let u := [ident 1 5; ident 1 6; ident 1 7; ident 1 8] in
  let id := ident 1 6 in
  let out := rawRecord (ident 1 5) in
  let tail := Buf.alloc 30 in
  let last := plOf (ident 1 5) in
  let wrote (rec : Buffer) (i' : nat) :=
    loopBody u (mkLoop 1 (length out) 1 last (out ++ tail))
    = Ok (mkLoop i' (length (out ++ rec)) (tsOf id) (plOf id)
            ((out ++ rec) ++ drop (length rec) tail), Next) in
  (1 < tsOf id -> wrote (timeRecord 1 id) 1%nat) /\
  (tsOf id = 1 -> Uint128.sub (plOf id) last <> Uint128.one ->
   wrote (deltaRecord (Uint128.sub (plOf id) last)) 1%nat) /\
  (tsOf id = 1 -> Uint128.sub (plOf id) last = Uint128.one ->
   forall m rest,
     drop 2 u = run_ids 1 (plOf id) m ++ rest ->
     stops 1 (advance (plOf id) m) rest -> Z.of_nat m + 1 < 2 ^ 53 ->
     wrote (if (m =? 0)%nat then deltaRecord Uint128.one
            else [tagByte PAYLOAD_RANGE 1;
                  to_uint8 ((Z.of_nat m + 1) mod 256)]) (1 + m)%nat
     /\ byte_val (to_uint8 ((Z.of_nat m + 1) mod 256))
        = (Z.of_nat m + 1) mod 256
     /\ ((m <= 254)%nat -> (Z.of_nat m + 1) mod 256 = Z.of_nat m + 1)).
Proof.
  apply (loopBody_writes_records
           [ident 1 5; ident 1 6; ident 1 7; ident 1 8] 1 (ident 1 6)
           (rawRecord (ident 1 5)) (Buf.alloc 30) 1 (plOf (ident 1 5)));
    [reflexivity|reflexivity|vm_compute; lia|lia].
Defined.

(** ** The step of delta 1 *)

(** C9 (amended). A turn of the encoder at an identifier [id] whose
    timestamp is the current one and whose payload is the last payload plus
    1, when [m] further identifiers continue the run of consecutive
    payloads and what follows them does not.  With no further identifier
    in the run the turn writes the two bytes of a PayloadDelta record that
    carries delta 1; with one or more it writes the two bytes of a single
    PayloadRange record, whose count byte is [m + 1] modulo 256, and moves
    on to the last identifier of the run. *)
Theorem delta_one_record (u : list KSUID.t) (i : nat) (id : KSUID.t)
    (out tail : Buffer) (last : Uint128.t) (m : nat) (rest : list KSUID.t) :
  u !! i = Some id -> KSUID.wf id ->
  Uint128.sub (plOf id) last = Uint128.one ->
  drop (S i) u = run_ids (tsOf id) (plOf id) m ++ rest ->
  stops (tsOf id) (advance (plOf id) m) rest ->
  Z.of_nat (length u) < 2 ^ 32 ->
  (2 <= length tail)%nat ->
  loopBody u (mkLoop i (length out) (tsOf id) last (out ++ tail))
  = Ok (mkLoop (i + m) (length out + 2) (tsOf id) (plOf id)
          (out
           ++ (if (m =? 0)%nat
               then [to_uint8 (JS.bor PAYLOAD_DELTA 1); to_uint8 1]
               else [to_uint8 (JS.bor PAYLOAD_RANGE 1);
                     to_uint8 ((Z.of_nat m + 1) mod 256)])
           ++ drop 2 tail), Next)
  /\ tag_of (to_uint8 (JS.bor PAYLOAD_DELTA 1)) = PAYLOAD_DELTA
  /\ tag_of (to_uint8 (JS.bor PAYLOAD_RANGE 1)) = PAYLOAD_RANGE.
Proof.
  intros Hget Hwf Hone Hdrop Hstop Hlen Htail.
  split; [|split; vm_compute; reflexivity].
  assert (Hm : Z.of_nat m + 1 < 2 ^ 53).
  { assert (Hl : length (drop (S i) u) = (m + length rest)%nat)
      by (rewrite Hdrop, length_app, run_ids_length; reflexivity).
    rewrite length_drop in Hl. lia. }
  destruct m as [|m].
  - cbn [run_ids app advance] in Hdrop, Hstop. subst rest.
    destruct (turn_one u i id out tail (tsOf id) last Hget Hwf eq_refl Hone
                Hstop Htail) as [H _].
    cbv zeta in H. change (0 =? 0)%nat with true. cbv iota.
    rewrite Nat.add_0_r, H. do 2 f_equal. f_equal.
    + rewrite length_app. reflexivity.
    + rewrite <- app_assoc. reflexivity.
  - change (S m =? 0)%nat with false. cbv iota.
    rewrite to_uint8_mod.
    rewrite (turn_range u i id out tail (tsOf id) last (S m) rest Hget Hwf
               eq_refl Hone Hdrop ltac:(lia) Hm Hstop Htail).
    do 2 f_equal. f_equal.
    + rewrite length_app. reflexivity.
    + rewrite <- app_assoc. reflexivity.
Qed.

(** C9 (instance). Payloads 5, 6, 7, 9 at timestamp 100, at the turn for
    payload 6: payload 7 continues the run and payload 9 does not, and the
    turn writes PayloadRange 2, the bytes 0xc1 0x02.  At the turn for
    payload 6 in payloads 5, 6, 9 nothing continues the run, and the turn
    writes PayloadDelta 1, the bytes 0x81 0x01. *)
Lemma delta_one_record_witness :
  let out := rawRecord (ident 100 5) in
  let tail := Buf.alloc 979 in
  loopBody [ident 100 5; ident 100 6; ident 100 7; ident 100 9]
    (mkLoop 1 21 100 (Uint128.new 5 0) (out ++ tail))
  = Ok (mkLoop 2 23 100 (Uint128.new 6 0)
          (out ++ [xc1; x02]%byte ++ drop 2 tail), Next)
  /\ loopBody [ident 100 5; ident 100 6; ident 100 9]
       (mkLoop 1 21 100 (Uint128.new 5 0) (out ++ tail))
     = Ok (mkLoop 1 23 100 (Uint128.new 6 0)
             (out ++ [x81; x01]%byte ++ drop 2 tail), Next).
Proof.
  intros out tail. split.
  - refine (proj1 (delta_one_record
                     [ident 100 5; ident 100 6; ident 100 7; ident 100 9] 1
                     (ident 100 6) out tail (Uint128.new 5 0) 1
                     [ident 100 9] _ _ _ _ _ _ _)).
    + reflexivity.
    + reflexivity.
    + vm_compute. reflexivity.
    + vm_compute. reflexivity.
    + vm_compute. split; [reflexivity|split; discriminate].
    + vm_compute. reflexivity.
    + vm_compute. lia.
  - refine (proj1 (delta_one_record
                     [ident 100 5; ident 100 6; ident 100 9] 1
                     (ident 100 6) out tail (Uint128.new 5 0) 0
                     [ident 100 9] _ _ _ _ _ _ _)).
    + reflexivity.
    + reflexivity.
    + vm_compute. reflexivity.
    + vm_compute. reflexivity.
    + vm_compute. split; [reflexivity|split; discriminate].
    + vm_compute. reflexivity.
    + vm_compute. lia.
Defined.

(** ** Runs are stored in two bytes *)

Lemma run_sorted (ts : Z) (m : nat) :
  forall v : Uint128.t,
    Uint128.wf v -> 0 <= ts <= 0xffffffff ->
    Uint128.toZ v + Z.of_nat m < 2 ^ 128 ->
    StronglySorted vlt (assemble ts v :: run_ids ts v m).
Proof.
  induction m as [|m IH]; intros v Hv Hts Hnw; [repeat constructor|].
  pose proof (toZ_range v Hv) as Hr.
  assert (Hi : Uint128.toZ (Uint128.incr v) = Uint128.toZ v + 1).
  { rewrite incr_toZ by exact Hv. apply Z.mod_small. lia. }
  constructor.
  - cbn [run_ids]. apply IH; [apply incr_wf|exact Hts|lia].
  - rewrite Forall_forall. intros x Hx.
    apply list_elem_of_lookup_1 in Hx as [j Hj].
    pose proof (lookup_lt_Some _ _ _ Hj) as Hlt. rewrite run_ids_length in Hlt.
    rewrite run_ids_lookup in Hj by exact Hlt. injection Hj as <-.
    change (advance (Uint128.incr v) j) with (advance v (S j)).
    unfold vlt. rewrite !assemble_value by (try apply advance_wf; assumption).
    rewrite advance_toZ by exact Hv. rewrite Z.mod_small by lia. lia.
Qed.

(** X22. An identifier followed by its [m] successors, for [m] between 2
    and 255, is compressed to 23 bytes: the Raw record of the first
    identifier and a PayloadRange record with the count [m].  The arguments
    are in order, so this holds whatever room the call stack has. *)
Theorem run_compresses_to_23_bytes (stack : nat) (first : KSUID.t) (m : nat) :
  KSUID.wf first -> (2 <= m <= 255)%nat ->
  Uint128.toZ (plOf first) + Z.of_nat m < 2 ^ 128 ->
  exists c h',
    compress stack 0
      ({[0%nat := first :: run_ids (tsOf first) (plOf first) m]} : Heap)
    = (Ok c, h')
    /\ CompressedSet.content c = rawRecord first ++ rangeRecord (Z.of_nat m)
    /\ length (CompressedSet.content c) = 23%nat.
Proof.
  intros Hw Hm Hnw.
  destruct (parts_of first Hw) as (Et & Ep & Hts & Hp & Ek & _).
  set (ts := tsOf first) in *. set (p := plOf first) in *.
  destruct m as [|[|m]]; [lia|lia|].
  set (id := assemble ts (Uint128.incr p)).
  set (u := first :: run_ids ts p (S (S m))).
  assert (Hu : u = first :: id :: run_ids ts (Uint128.incr p) (S m))
    by reflexivity.
  assert (Hs : StronglySorted vlt u).
  { subst u. rewrite Ek at 1. apply run_sorted; assumption. }
  assert (Hwu : Forall KSUID.wf u).
  { subst u. constructor; [exact Hw|apply run_ids_wf]. }
  destruct (assemble_parts ts (Uint128.incr p) (incr_wf _) Hts) as [Eti Epi].
  fold id in Eti, Epi.
  unfold compress.
  unfold bindS at 1. unfold Arr.read at 1. rewrite lookup_singleton_eq.
  set (buf := Buf.alloc _).
  assert (Hbuf : (1000 <= length buf)%nat).
  { subst buf. rewrite alloc_length.
    pose proof (Z.le_max_l 100 (1 + 20 + Z.of_nat (length u) / 5)). lia. }
  assert (Happ : fst (appendCompressed stack buf 0 {[0%nat := u]})
                 = emit buf u).
  { destruct (appendCompressed_emit stack buf u u {[0%nat := u]} 0%nat
                (lookup_singleton_eq _ _) Hwu ltac:(discriminate) Hs
                ltac:(reflexivity)) as [H|(_ & _ & Hns)]; [exact H|].
    exfalso. apply Hns, strict_sorted_le, Hs. }
  (* the first record *)
  set (tail := drop 20 (drop 1 buf)).
  assert (Hfirst : Buf.copy_at (KSUID.toBuffer first) (Buf.set buf 0 RAW_KSUID) 1
                   = rawRecord first ++ tail).
  { pose proof (set_app [] buf RAW_KSUID ltac:(lia)) as H1.
    cbn [app length] in H1. rewrite H1.
    pose proof (copy_at_app (KSUID.buffer first) [to_uint8 RAW_KSUID]
                  (drop 1 buf)) as H2.
    cbn [length] in H2. unfold KSUID.toBuffer.
    change (to_uint8 RAW_KSUID :: drop 1 buf)
      with ([to_uint8 RAW_KSUID] ++ drop 1 buf).
    rewrite H2 by (rewrite length_drop, Hw; unfold KSUID.KSUID_LENGTH;
                   unfold KSUID.TIMESTAMP_LENGTH, KSUID.PAYLOAD_LENGTH; lia).
    rewrite Hw. reflexivity. }
  assert (Hlr : length (rawRecord first) = 21%nat).
  { unfold rawRecord. cbn [length]. rewrite Hw. reflexivity. }
  (* the turn at the first successor *)
  assert (Hone : Uint128.sub (plOf id) p = Uint128.one).
  { rewrite Epi, incr_add_one, add_comm.
    apply sub_add_cancel; [apply one_wf|exact Hp]. }
  pose proof (turn_range u 1 id (rawRecord first) tail ts p (S m) []
                eq_refl (assemble_wf _ _) Eti Hone
                ltac:(rewrite Epi, app_nil_r; reflexivity)
                ltac:(lia) ltac:(lia) I
                ltac:(subst tail; rewrite !length_drop; lia)) as Hturn.
  cbv zeta in Hturn. rewrite Hlr in Hturn.
  assert (Eemit : emit buf u
                  = Ok (rawRecord first ++ rangeRecord (Z.of_nat (S m) + 1))).
  { unfold emit. change (Arr.get u 0) with (Ok first).
    cbn [bindR]. rewrite Et, Ep. cbn [bindR]. rewrite Hfirst.
    change (1 + 20)%nat with 21%nat.
    assert (Hlu : length u = S (S (S m)))
      by (subst u; cbn [length]; rewrite run_ids_length; reflexivity).
    rewrite Hlu. cbn [loop i]. rewrite Hlu.
    destruct (Nat.ltb_spec 1 (S (S (S m)))) as [_|H]; [|lia].
    fold ts p. rewrite Hturn.
    cbn [bindR i pos buffer CompressedSet.timestamp CompressedSet.lastValue].
    destruct (Nat.ltb_spec (S (1 + S m)) (S (S (S m)))) as [H|_]; [lia|].
    cbn [bindR buffer pos]. unfold Buf.subarray.
    rewrite drop_0, Nat.sub_0_r, take_app_length. reflexivity. }
  rewrite Eemit in Happ. unfold bindS at 1.
  destruct (appendCompressed stack buf 0 {[0%nat := u]}) as [r h'].
  cbn [fst] in Happ. subst r. unfold retS.
  do 2 eexists. split; [reflexivity|]. cbn [CompressedSet.content].
  replace (Z.of_nat (S m) + 1) with (Z.of_nat (S (S m))) by lia.
  split; [reflexivity|]. rewrite length_app, Hlr. reflexivity.
Qed.

(** X22 (instance). Two hundred consecutive identifiers, and no room on
    the call stack for [quickSort]. *)
Lemma run_compresses_to_23_bytes_witness :
  exists c h',
    compress 0 0
      ({[0%nat := ident 7 1
                  :: run_ids (tsOf (ident 7 1)) (plOf (ident 7 1)) 199]} : Heap)
    = (Ok c, h')
    /\ CompressedSet.content c
       = rawRecord (ident 7 1) ++ rangeRecord (Z.of_nat 199)
    /\ length (CompressedSet.content c) = 23%nat.
Proof.
  apply (run_compresses_to_23_bytes 0 (ident 7 1) 199);
    [reflexivity|lia|vm_compute; reflexivity].
Defined.
